(** * pilz_trajectory_generation: sampling, limit checking and merging

    A shallow embedding of the free functions of
    [trajectory_functions.cpp] ([computePoseIK], [verifySampleJointLimits],
    the two [generateJointTrajectory] overloads,
    [determineAndCheckSamplingTime], [isRobotStateEqual]), of
    [TrajectoryAppender::merge] and of the inline
    [TrajectoryGenerator::isScalingFactorValid].

    Numbers.  A C++ [double] is modelled by an exact rational ([Q]): the
    arithmetic does not round and does not overflow; the literal [0.0] is
    written [0].  Two places where the program differs from exact arithmetic
    are modelled apart.  The division of [verifySampleJointLimits] whose
    divisor can be zero yields a [quotient], which is infinite or not a
    number for a zero divisor ([divide]).  A [ros::Duration] holds a whole
    number of nanoseconds: building one from a [double] rounds
    ([ros_Duration]), and its value in seconds is again a rational.
    Every concrete input used below is a dyadic rational of small size, so
    that it is also an exact [double] and the run of the C++ code on it can
    be followed by hand.  [std::size_t] is modelled by [Z] with the
    wrap-around at [2^64] written out where the code subtracts.

    Maps.  A [std::map<std::string,double>] is a [gmap string Q]; iterating
    over it visits the entries in ascending key order ([entries]).
    [m.at(k)] on a missing key throws [std::out_of_range]: a lookup that
    finds nothing ends in the outcome [Throw out_of_range]. *)

From Stdlib Require Import QArith Qabs Qround Lqa ZArith Lia String.
From stdpp Require Import base option list gmap strings sorting.

Open Scope Q_scope.

(** ** Doubles *)

Abbreviation double := Q.

Definition fabs (x : double) : double := Qabs x.

Definition Qleb (x y : double) : bool := Qle_bool x y.
Definition Qltb (x y : double) : bool := negb (Qle_bool y x).
Definition Qgtb (x y : double) : bool := Qltb y x.

Arguments Qleb : simpl never.
Arguments Qltb : simpl never.
Arguments Qgtb : simpl never.
Arguments fabs : simpl never.

Infix "<=?" := Qleb (at level 70, no associativity) : Q_scope.
Infix "<?" := Qltb (at level 70, no associativity) : Q_scope.
Infix ">?" := Qgtb (at level 70, no associativity) : Q_scope.

(** The result of a floating-point division whose divisor may be zero: a
    non-zero number over zero is an infinity, zero over zero is not a
    number.  The sign of the infinity is not kept: the code only takes its
    [fabs]. *)
Inductive quotient : Type :=
| Finite (q : double)
| Infinite
| NotANumber.

Definition divide (a b : double) : quotient :=
  if Qeq_bool b 0
  then if Qeq_bool a 0 then NotANumber else Infinite
  else Finite (a / b).

(** [x * 2] *)
Definition twice (x : quotient) : quotient :=
  match x with
  | Finite q => Finite (q * 2)
  | Infinite => Infinite
  | NotANumber => NotANumber
  end.

(** [fabs(x) > fabs(limit)] for a finite [limit]: true of an infinity, false
    of what is not a number. *)
Definition fabs_exceeds (x : quotient) (limit : double) : bool :=
  match x with
  | Finite q => fabs q >? fabs limit
  | Infinite => true
  | NotANumber => false
  end.

(** [ros::Duration(double)]: the seconds as a whole number of nanoseconds,
    rounded to the nearest one, [floor(d) s + round((d - floor(d)) * 1e9) ns];
    the result is given in seconds, as [toSec()] reads it, in lowest terms.
    The width of the seconds field is not modelled. *)
Definition ros_Duration (d : double) : double :=
  let sec := Qfloor d in
  let nsec := Qfloor ((d - inject_Z sec) * (1000000000 # 1) + (1 # 2)) in
  Qred (inject_Z sec + inject_Z nsec / (1000000000 # 1)).

(** ** Outcomes: a normal return or a C++ exception *)

Inductive exn : Type := out_of_range.

Inductive outcome (A : Type) : Type :=
| Ret (a : A)
| Throw (e : exn).
Arguments Ret {A} a.
Arguments Throw {A} e.

(** ** std::map<std::string, double> *)

Definition key_le (a b : string * double) : Prop := String.leb a.1 b.1 = true.

#[global] Instance key_le_dec (a b : string * double) : Decision (key_le a b).
Proof. unfold key_le. apply _. Defined.

(** The entries of a map in the order a range-based [for] visits them. *)
Definition entries (m : gmap string double) : list (string * double) :=
  merge_sort key_le (map_to_list m).

(** ** moveit_msgs::MoveItErrorCodes *)

Module MoveItErrorCodes.
Definition SUCCESS : Z := 1%Z.
Definition FAILURE : Z := 99999%Z.
Definition PLANNING_FAILED : Z := (-1)%Z.
Definition INVALID_MOTION_PLAN : Z := (-2)%Z.
Definition INVALID_ROBOT_STATE : Z := (-17)%Z.
Definition INVALID_GOAL_CONSTRAINTS : Z := (-16)%Z.
Definition INVALID_GROUP_NAME : Z := (-15)%Z.
Definition NO_IK_SOLUTION : Z := (-31)%Z.
End MoveItErrorCodes.

(** ** Joint limits

    [pilz_extensions::JointLimit] and [pilz::JointLimitsContainer] are
    declared outside the translated files; the container is taken as the
    read-only lookup the callers use: [verifyVelocityLimit] and [getLimit]. *)

Record JointLimit : Type := {
  max_velocity : double;
  has_acceleration_limits : bool;
  max_acceleration : double;
  has_deceleration_limits : bool;
  max_deceleration : double
}.

Record JointLimitsContainer : Type := {
  verifyVelocityLimit : string -> double -> bool;
  getLimit : string -> JointLimit
}.

(** ** verifySampleJointLimits *)

Module SampleValidator.

Definition epsilon : double := 10e-6.

(** The body of the loop over [position_current]: [Ret true] when the loop
    goes on to the next joint, [Ret false] for [return false].  The loop
    runs only for a [duration_current] above [epsilon], so the divisor of
    [velocity_current] is not zero; the divisor of [acceleration_current] is
    zero when [duration_last] is the opposite of [duration_current]. *)
Definition verifyJoint (position_last velocity_last : gmap string double)
    (duration_last duration_current : double)
    (joint_limits : JointLimitsContainer)
    (pos : string * double) : outcome bool :=
  match position_last !! pos.1 with
  | None => Throw out_of_range
  | Some p_last =>
    let velocity_current := (pos.2 - p_last) / duration_current in
    if negb (verifyVelocityLimit joint_limits pos.1 velocity_current)
    then Ret false
    else
      match velocity_last !! pos.1 with
      | None => Throw out_of_range
      | Some v_last =>
        let acceleration_current :=
          twice (divide (velocity_current - v_last)
                        (duration_last + duration_current)) in
        if fabs v_last <=? fabs velocity_current
        then
          (* acceleration case *)
          if has_acceleration_limits (getLimit joint_limits pos.1)
             && fabs_exceeds acceleration_current
                  (max_acceleration (getLimit joint_limits pos.1))
          then Ret false else Ret true
        else
          (* deceleration case *)
          if has_deceleration_limits (getLimit joint_limits pos.1)
             && fabs_exceeds acceleration_current
                  (max_deceleration (getLimit joint_limits pos.1))
          then Ret false else Ret true
      end
  end.

(** The loop over [position_current].  Beside the outcome it counts, as a
    ghost value, the joints whose loop body was entered. *)
Fixpoint verifyJoints (position_last velocity_last : gmap string double)
    (duration_last duration_current : double)
    (joint_limits : JointLimitsContainer)
    (todo : list (string * double)) (examined : nat) : outcome bool * nat :=
  match todo with
  | [] => (Ret true, examined)
  | pos :: todo' =>
    match verifyJoint position_last velocity_last duration_last
                      duration_current joint_limits pos with
    | Ret true => verifyJoints position_last velocity_last duration_last
                               duration_current joint_limits todo'
                               (S examined)
    | r => (r, S examined)
    end
  end.

Definition verifySampleJointLimits_traced
    (position_last velocity_last position_current : gmap string double)
    (duration_last duration_current : double)
    (joint_limits : JointLimitsContainer) : outcome bool * nat :=
  if duration_current <=? epsilon
  then (Ret false, O)
  else verifyJoints position_last velocity_last duration_last
                    duration_current joint_limits
                    (entries position_current) O.

Definition verifySampleJointLimits
    (position_last velocity_last position_current : gmap string double)
    (duration_last duration_current : double)
    (joint_limits : JointLimitsContainer) : outcome bool :=
  (verifySampleJointLimits_traced position_last velocity_last
     position_current duration_last duration_current joint_limits).1.

End SampleValidator.
Import SampleValidator.

(** ** Joint trajectories (trajectory_msgs) *)

Record JointTrajectoryPoint : Type := {
  positions : list double;
  velocities : list double;
  accelerations : list double;
  time_from_start : double
}.

Record JointTrajectory : Type := {
  joint_names : list string;
  points : list JointTrajectoryPoint
}.

Definition clear_points (jt : JointTrajectory) : JointTrajectory :=
  {| joint_names := joint_names jt; points := [] |}.

Definition push_point (jt : JointTrajectory) (p : JointTrajectoryPoint)
    : JointTrajectory :=
  {| joint_names := joint_names jt; points := points jt ++ [p] |}.

Definition set_joint_names (jt : JointTrajectory) (names : list string)
    : JointTrajectory :=
  {| joint_names := names; points := points jt |}.

Definition empty_point (t : double) : JointTrajectoryPoint :=
  {| positions := []; velocities := []; accelerations := [];
     time_from_start := t |}.

Definition push_joint (p : JointTrajectoryPoint) (pos vel acc : double)
    : JointTrajectoryPoint :=
  {| positions := positions p ++ [pos];
     velocities := velocities p ++ [vel];
     accelerations := accelerations p ++ [acc];
     time_from_start := time_from_start p |}.

(** What a call of [generateJointTrajectory] leaves behind: how it ended and
    the two output arguments [joint_trajectory] and [error_code.val]. *)
Record GenResult : Type := {
  gen_ret : outcome bool;
  gen_trajectory : JointTrajectory;
  gen_error_code : Z
}.

Definition finish (r : outcome bool) (jt : JointTrajectory) (ec : Z)
    : GenResult :=
  {| gen_ret := r; gen_trajectory := jt; gen_error_code := ec |}.

(** The keys of a map in iteration order. *)
Definition keys (m : gmap string double) : list string := (entries m).*1.

(** ** The time samples of the KDL overload *)

Module TimeSamples.

(** "avoid adding the last time sample twice" *)
Definition epsilon : double := 10e-06.

(** for(double t_sample=0.0; t_sample < limit; t_sample+=sampling_time)
      time_samples.push_back(t_sample);
    The loop need not end (a sampling time that is not positive); [fuel]
    bounds the number of iterations and [None] says it was used up. *)
Fixpoint time_samples_loop (fuel : nat)
    (limit sampling_time t_sample : double) : option (list double) :=
  if t_sample <? limit
  then
    match fuel with
    | O => None
    | S fuel' =>
      match time_samples_loop fuel' limit sampling_time
                              (t_sample + sampling_time) with
      | Some l => Some (t_sample :: l)
      | None => None
      end
    end
  else Some [].

Definition make_time_samples (fuel : nat) (duration sampling_time : double)
    : option (list double) :=
  match time_samples_loop fuel (duration - epsilon) sampling_time 0 with
  | Some l => Some (l ++ [duration])
  | None => None
  end.

End TimeSamples.
Import TimeSamples.

(** ** Poses, the robot model and computePoseIK

    The three pose types ([KDL::Frame], [geometry_msgs::Pose],
    [Eigen::Isometry3d]) and the conversions between them belong to external
    libraries and stay abstract.  Of the MoveIt robot model the code uses
    four queries and the inverse-kinematics solver.  The field [setFromIK]
    stands for the block

      robot_state::RobotState rstate(robot_model);
      rstate.setToDefaultValues();
      rstate.setVariablePositions(seed);
      rstate.setFromIK(group, pose, link_name, timeout, ik_constraint_function)

    and returns, when the solver succeeds, [rstate.getVariablePosition]. *)

Record RobotModel (Isometry3d : Type) : Type := {
  hasJointModelGroup : string -> bool;
  canSetStateFromIK : string -> string -> bool;
  getModelFrame : string;
  getActiveJointModelNames : string -> list string;
  setFromIK : string -> Isometry3d -> string -> double -> bool ->
              gmap string double -> option (string -> double)
}.
Arguments hasJointModelGroup {Isometry3d} _ _.
Arguments canSetStateFromIK {Isometry3d} _ _ _.
Arguments getModelFrame {Isometry3d} _.
Arguments getActiveJointModelNames {Isometry3d} _ _.
Arguments setFromIK {Isometry3d} _ _ _ _ _ _ _.

(** What a call of [computePoseIK] leaves behind: the returned flag, the
    [solution] map (an in/out argument) and, as a ghost value, how many
    times the solver was invoked. *)
Record IKResult : Type := {
  ik_ok : bool;
  ik_solution_out : gmap string double;
  ik_solver_calls : nat
}.

Record KDLTrajectory (Frame : Type) : Type := {
  Duration : double;
  Pos : double -> Frame
}.
Arguments Duration {Frame} _.
Arguments Pos {Frame} _ _.

Record CartesianTrajectoryPoint (PoseMsg : Type) : Type := {
  pose : PoseMsg;
  ctp_time_from_start : double
}.
Arguments pose {PoseMsg} _.
Arguments ctp_time_from_start {PoseMsg} _.

Section Kinematics.

Context {Frame PoseMsg Isometry3d : Type}.
Variable transformKDLToEigen : Frame -> Isometry3d.
Variable poseMsgToEigen : PoseMsg -> Isometry3d.
(** The default value of the [timeout] argument of [computePoseIK], which
    the header gives. *)
Variable default_timeout : double.

Definition copy_solution (rstate : string -> double) (names : list string)
    (solution : gmap string double) : gmap string double :=
  foldl (fun sol joint_name => <[joint_name := rstate joint_name]> sol)
        solution names.

Definition computePoseIK (robot_model : RobotModel Isometry3d)
    (group_name link_name : string) (pose : Isometry3d) (frame_id : string)
    (seed solution : gmap string double)
    (check_self_collision : bool) (timeout : double) : IKResult :=
  if negb (hasJointModelGroup robot_model group_name)
  then {| ik_ok := false; ik_solution_out := solution; ik_solver_calls := 0 |}
  else if negb (canSetStateFromIK robot_model group_name link_name)
  then {| ik_ok := false; ik_solution_out := solution; ik_solver_calls := 0 |}
  else if negb (String.eqb frame_id (getModelFrame robot_model))
  then {| ik_ok := false; ik_solution_out := solution; ik_solver_calls := 0 |}
  else
    match setFromIK robot_model group_name pose link_name timeout
                    check_self_collision seed with
    | Some rstate =>
      {| ik_ok := true;
         ik_solution_out :=
           copy_solution rstate
             (getActiveJointModelNames robot_model group_name) solution;
         ik_solver_calls := 1 |}
    | None =>
      {| ik_ok := false; ik_solution_out := solution; ik_solver_calls := 1 |}
    end.

(** The overload taking a [geometry_msgs::Pose]. *)
Definition computePoseIK_msg (robot_model : RobotModel Isometry3d)
    (group_name link_name : string) (pose : PoseMsg) (frame_id : string)
    (seed solution : gmap string double)
    (check_self_collision : bool) (timeout : double) : IKResult :=
  computePoseIK robot_model group_name link_name (poseMsgToEigen pose)
                frame_id seed solution check_self_collision timeout.

(** *** generateJointTrajectory, from a KDL::Trajectory *)

(** The loop over [joint_trajectory.joint_names] that fills one point.
    [inner] is [time_iter!=time_samples.begin() &&
    time_iter!=time_samples.end()-1].  For an inner sample the divisor is
    the square of the sampling time, which is positive as soon as there is
    an inner sample. *)
Fixpoint fill_point_kdl (inner : bool) (duration_current_sample : double)
    (ik_solution ik_solution_last : gmap string double)
    (names : list string) (point : JointTrajectoryPoint)
    (joint_velocity_last : gmap string double)
    : outcome (JointTrajectoryPoint * gmap string double) :=
  match names with
  | [] => Ret (point, joint_velocity_last)
  | joint_name :: names' =>
    match ik_solution !! joint_name with
    | None => Throw out_of_range
    | Some q =>
      if inner
      then
        match ik_solution_last !! joint_name with
        | None => Throw out_of_range
        | Some q_last =>
          let distance := q - q_last in
          match joint_velocity_last !! joint_name with
          | None => Throw out_of_range
          | Some v_last =>
            let joint_acceleration :=
              2 * (distance - v_last * duration_current_sample)
              / duration_current_sample ^ 2 in
            let joint_velocity :=
              v_last + joint_acceleration * duration_current_sample in
            fill_point_kdl inner duration_current_sample ik_solution
              ik_solution_last names'
              (push_joint point q joint_velocity joint_acceleration)
              (<[joint_name := joint_velocity]> joint_velocity_last)
          end
        end
      else
        fill_point_kdl inner duration_current_sample ik_solution
          ik_solution_last names'
          (push_joint point q 0 0)
          (<[joint_name := 0]> joint_velocity_last)
    end
  end.

(** The loop over the time samples; [time_iter] is the index the iterator
    stands at and [todo] the number of samples from there to [end()].  The
    time stamp of a point is the [ros::Duration] made from the sample. *)
Fixpoint kdl_loop (robot_model : RobotModel Isometry3d)
    (joint_limits : JointLimitsContainer) (trajectory : KDLTrajectory Frame)
    (group_name link_name : string)
    (initial_joint_position : gmap string double) (sampling_time : double)
    (check_self_collision : bool) (time_samples : list double)
    (todo time_iter : nat)
    (ik_solution_last ik_solution joint_velocity_last : gmap string double)
    (joint_trajectory : JointTrajectory) (error_code : Z) : GenResult :=
  match todo with
  | O => finish (Ret true) joint_trajectory MoveItErrorCodes.SUCCESS
  | S todo' =>
    let t := nth time_iter time_samples 0 in
    let pose_sample := transformKDLToEigen (Pos trajectory t) in
    let ik := computePoseIK robot_model group_name link_name pose_sample
                (getModelFrame robot_model) ik_solution_last ik_solution
                check_self_collision default_timeout in
    if negb (ik_ok ik)
    then finish (Ret false) (clear_points joint_trajectory)
                MoveItErrorCodes.NO_IK_SOLUTION
    else
      let ik_solution := ik_solution_out ik in
      let size := length time_samples in
      let is_begin := Nat.eqb time_iter 0 in
      let is_last := Nat.eqb (S time_iter) size in
      let duration_current_sample := sampling_time in
      let duration_current_sample :=
        if is_last && Nat.ltb 1 size
        then t - nth (time_iter - 1) time_samples 0
        else duration_current_sample in
      let duration_current_sample :=
        if Nat.eqb size 1 then t else duration_current_sample in
      let verdict :=
        if is_begin then Ret true
        else verifySampleJointLimits ik_solution_last joint_velocity_last
               ik_solution sampling_time duration_current_sample
               joint_limits in
      match verdict with
      | Throw e => finish (Throw e) joint_trajectory error_code
      | Ret false => finish (Ret false) (clear_points joint_trajectory)
                            MoveItErrorCodes.PLANNING_FAILED
      | Ret true =>
        let joint_trajectory :=
          set_joint_names joint_trajectory (keys initial_joint_position) in
        match fill_point_kdl (negb is_begin && negb is_last)
                duration_current_sample ik_solution ik_solution_last
                (joint_names joint_trajectory) (empty_point (ros_Duration t))
                joint_velocity_last with
        | Throw e => finish (Throw e) joint_trajectory error_code
        | Ret (point, joint_velocity_last) =>
          kdl_loop robot_model joint_limits trajectory group_name link_name
            initial_joint_position sampling_time check_self_collision
            time_samples todo' (S time_iter)
            ik_solution ik_solution joint_velocity_last
            (push_point joint_trajectory point) error_code
        end
      end
  end.

(** [None]: the loop that builds the time samples does not end within
    [fuel] iterations. *)
Definition generateJointTrajectory_KDL (fuel : nat)
    (robot_model : RobotModel Isometry3d)
    (joint_limits : JointLimitsContainer) (trajectory : KDLTrajectory Frame)
    (group_name link_name : string)
    (initial_joint_position : gmap string double) (sampling_time : double)
    (joint_trajectory : JointTrajectory) (error_code : Z)
    (check_self_collision : bool) : option GenResult :=
  match make_time_samples fuel (Duration trajectory) sampling_time with
  | None => None
  | Some time_samples =>
    let ik_solution_last := initial_joint_position in
    (* for(const auto& item: ik_solution_last)
         joint_velocity_last[item.first] = 0.0; *)
    let joint_velocity_last : gmap string double :=
      (fun _ => 0) <$> ik_solution_last in
    Some (kdl_loop robot_model joint_limits trajectory group_name link_name
            initial_joint_position sampling_time check_self_collision
            time_samples (length time_samples) 0
            ik_solution_last ∅ joint_velocity_last
            joint_trajectory error_code)
  end.

(** *** generateJointTrajectory, from a pilz::CartesianTrajectory *)

(** The loop over [joint_trajectory.joint_names] that fills one way point.
    It runs after [verifySampleJointLimits] has passed, so both durations
    are above [10e-6] and no divisor is zero. *)
Fixpoint fill_point_cart (duration_last duration_current : double)
    (ik_solution ik_solution_last : gmap string double)
    (names : list string) (waypoint_joint : JointTrajectoryPoint)
    (joint_velocity_last : gmap string double)
    : outcome (JointTrajectoryPoint * gmap string double) :=
  match names with
  | [] => Ret (waypoint_joint, joint_velocity_last)
  | joint_name :: names' =>
    match ik_solution !! joint_name with
    | None => Throw out_of_range
    | Some q =>
      match ik_solution_last !! joint_name with
      | None => Throw out_of_range
      | Some q_last =>
        let joint_velocity := (q - q_last) / duration_current in
        match joint_velocity_last !! joint_name with
        | None => Throw out_of_range
        | Some v_last =>
          let joint_acceleration :=
            (joint_velocity - v_last) / (duration_current + duration_last)
            * 2 in
          fill_point_cart duration_last duration_current ik_solution
            ik_solution_last names'
            (push_joint waypoint_joint q joint_velocity joint_acceleration)
            (<[joint_name := joint_velocity]> joint_velocity_last)
        end
      end
    end
  end.

(** The loop [for(size_t i=0; i<trajectory.points.size(); ++i)]; [todo] is
    the number of iterations left.  [duration_current] is assigned in every
    iteration before it is read, so only [duration_last] is loop state. *)
Fixpoint cart_loop (robot_model : RobotModel Isometry3d)
    (joint_limits : JointLimitsContainer)
    (trajectory : list (CartesianTrajectoryPoint PoseMsg))
    (group_name link_name : string) (check_self_collision : bool)
    (todo i : nat)
    (ik_solution_last ik_solution joint_velocity_last : gmap string double)
    (duration_last : double)
    (joint_trajectory : JointTrajectory) (error_code : Z) : GenResult :=
  match todo with
  | O => finish (Ret true) joint_trajectory MoveItErrorCodes.SUCCESS
  | S todo' =>
    match trajectory !! i with
    | None => finish (Throw out_of_range) joint_trajectory error_code
    | Some point_i =>
      let ik := computePoseIK_msg robot_model group_name link_name
                  (pose point_i) (getModelFrame robot_model)
                  ik_solution_last ik_solution check_self_collision
                  default_timeout in
      if negb (ik_ok ik)
      then finish (Ret false) (clear_points joint_trajectory)
                  MoveItErrorCodes.NO_IK_SOLUTION
      else
        let ik_solution := ik_solution_out ik in
        let durations : outcome (double * double) :=
          if Nat.eqb i 0
          then
            match head trajectory with
            | Some front =>
              Ret (ctp_time_from_start front, ctp_time_from_start front)
            | None => Throw out_of_range
            end
          else
            match trajectory !! (i - 1)%nat with
            | Some point_before =>
              Ret (duration_last,
                   ctp_time_from_start point_i
                   - ctp_time_from_start point_before)
            | None => Throw out_of_range
            end in
        match durations with
        | Throw e => finish (Throw e) joint_trajectory error_code
        | Ret (duration_last, duration_current) =>
          match verifySampleJointLimits ik_solution_last joint_velocity_last
                  ik_solution duration_last duration_current
                  joint_limits with
          | Throw e => finish (Throw e) joint_trajectory error_code
          | Ret false => finish (Ret false) (clear_points joint_trajectory)
                                MoveItErrorCodes.PLANNING_FAILED
          | Ret true =>
            match fill_point_cart duration_last duration_current
                    ik_solution ik_solution_last
                    (joint_names joint_trajectory)
                    (empty_point (ctp_time_from_start point_i))
                    joint_velocity_last with
            | Throw e => finish (Throw e) joint_trajectory error_code
            | Ret (waypoint_joint, joint_velocity_last) =>
              cart_loop robot_model joint_limits trajectory group_name
                link_name check_self_collision todo' (S i)
                ik_solution ik_solution joint_velocity_last
                duration_current
                (push_point joint_trajectory waypoint_joint) error_code
            end
          end
        end
    end
  end.

Definition generateJointTrajectory_Cartesian
    (robot_model : RobotModel Isometry3d)
    (joint_limits : JointLimitsContainer)
    (trajectory : list (CartesianTrajectoryPoint PoseMsg))
    (group_name link_name : string)
    (initial_joint_position initial_joint_velocity : gmap string double)
    (joint_trajectory : JointTrajectory) (error_code : Z)
    (check_self_collision : bool) : GenResult :=
  let ik_solution_last := initial_joint_position in
  let joint_velocity_last := initial_joint_velocity in
  let joint_trajectory :=
    set_joint_names joint_trajectory (keys ik_solution_last) in
  cart_loop robot_model joint_limits trajectory group_name link_name
    check_self_collision (length trajectory) 0
    ik_solution_last ∅ joint_velocity_last 0
    joint_trajectory error_code.

End Kinematics.

(** ** Robot states and robot trajectories (MoveIt)

    Of a [moveit::core::RobotState] the code reads the position, velocity and
    acceleration vectors of a joint group.  A
    [robot_trajectory::RobotTrajectory] keeps its way points and, beside
    them, the duration from the previous way point. *)

Record RobotState : Type := {
  copyJointGroupPositions : string -> list double;
  copyJointGroupVelocities : string -> list double;
  copyJointGroupAccelerations : string -> list double
}.

Record RobotTrajectory : Type := {
  getGroupName : string;
  waypoints : list RobotState;
  duration_from_previous : list double
}.

Definition getWayPointCount (t : RobotTrajectory) : nat :=
  length (waypoints t).

(** if (duration_from_previous_.size() > index)
      return duration_from_previous_[index];
    else return 0.0; *)
Definition getWayPointDurationFromPrevious (t : RobotTrajectory) (index : nat)
    : double :=
  nth index (duration_from_previous t) 0.

Definition addSuffixWayPoint (t : RobotTrajectory) (state : RobotState)
    (dt : double) : RobotTrajectory :=
  {| getGroupName := getGroupName t;
     waypoints := waypoints t ++ [state];
     duration_from_previous := duration_from_previous t ++ [dt] |}.

(** [RobotTrajectory::append(source, dt)]: all way points of [source] are
    added, the first of them with duration [dt]. *)
Definition append (t source : RobotTrajectory) (dt : double)
    : RobotTrajectory :=
  let index := length (duration_from_previous t) in
  let durations := duration_from_previous t ++ duration_from_previous source in
  {| getGroupName := getGroupName t;
     waypoints := waypoints t ++ waypoints source;
     duration_from_previous :=
       if Nat.ltb index (length durations)
       then <[index := dt]> durations else durations |}.

(** ** isRobotStateEqual *)

Definition vec_sub (a b : list double) : list double := zip_with Qminus a b.

Definition squaredNorm (v : list double) : double :=
  foldr (fun x acc => x * x + acc) 0 v.

(** [v.norm() > epsilon], the norm being the non-negative square root of
    [squaredNorm v]: true for a negative [epsilon], and otherwise the
    comparison of the squares. *)
Definition norm_gt (v : list double) (epsilon : double) : bool :=
  (epsilon <? 0) || (squaredNorm v >? epsilon ^ 2).

Definition isRobotStateEqual (state1 state2 : RobotState)
    (joint_group_name : string) (epsilon : double) : bool :=
  if norm_gt (vec_sub (copyJointGroupPositions state1 joint_group_name)
                      (copyJointGroupPositions state2 joint_group_name))
             epsilon
  then false
  else if norm_gt (vec_sub (copyJointGroupVelocities state1 joint_group_name)
                           (copyJointGroupVelocities state2 joint_group_name))
                  epsilon
  then false
  else if norm_gt
            (vec_sub (copyJointGroupAccelerations state1 joint_group_name)
                     (copyJointGroupAccelerations state2 joint_group_name))
            epsilon
  then false
  else true.

(** ** determineAndCheckSamplingTime *)

Module Reconciler.

(** Subtraction of [std::size_t] values. *)
Definition size_t_sub (a b : Z) : Z := ((a - b) mod 2 ^ 64)%Z.

(** [getWayPointDurationFromPrevious] at a [std::size_t] index. *)
Definition duration_at (t : RobotTrajectory) (i : Z) : double :=
  getWayPointDurationFromPrevious t (Z.to_nat i).

(** The loop [for(std::size_t i = 1; i < std::max(n1, n2); ++i)], with
    [todo] iterations left. *)
Fixpoint check_loop (first_trajectory second_trajectory : RobotTrajectory)
    (epsilon sampling_time : double) (n1 n2 : Z) (todo : nat) (i : Z)
    : bool :=
  match todo with
  | O => true
  | S todo' =>
    if (i <? n1)%Z
       && (fabs (sampling_time - duration_at first_trajectory i) >? epsilon)
    then false
    else if (i <? n2)%Z
            && (fabs (sampling_time - duration_at second_trajectory i)
                >? epsilon)
    then false
    else check_loop first_trajectory second_trajectory epsilon
                    sampling_time n1 n2 todo' (i + 1)%Z
  end.

(** Returns the flag and the value of the output argument
    [sampling_time], which is left as it was when the function gives up
    at once. *)
Definition determineAndCheckSamplingTime
    (first_trajectory second_trajectory : RobotTrajectory)
    (epsilon : double) (sampling_time : double) : bool * double :=
  let n1 := size_t_sub (Z.of_nat (getWayPointCount first_trajectory)) 1 in
  let n2 := size_t_sub (Z.of_nat (getWayPointCount second_trajectory)) 1 in
  if (n1 <? 2)%Z && (n2 <? 2)%Z
  then (false, sampling_time)
  else
    let sampling_time :=
      if (2 <=? n1)%Z
      then getWayPointDurationFromPrevious first_trajectory 1
      else getWayPointDurationFromPrevious second_trajectory 1 in
    (check_loop first_trajectory second_trajectory epsilon sampling_time
                n1 n2 (Z.to_nat (Z.max n1 n2 - 1)) 1,
     sampling_time).

End Reconciler.
Import Reconciler.

(** ** TrajectoryAppender::merge *)

Module TrajectoryAppender.

(** Modelled from the spec: the constant [ROBOT_STATE_EQUALITY_EPSILON] of
    trajectory_appender.h, which is not among the translated files; the
    way points are compared "within 1e-8". *)
Definition ROBOT_STATE_EQUALITY_EPSILON : double := 1e-8.

(** for (size_t i = 1; i < source.getWayPointCount(); ++i)
      result.addSuffixWayPoint(source.getWayPoint(i),
                               source.getWayPointDurationFromPrevious(i)); *)
Fixpoint add_suffix_from (source : RobotTrajectory) (todo i : nat)
    (result : RobotTrajectory) : RobotTrajectory :=
  match todo with
  | O => result
  | S todo' =>
    match waypoints source !! i with
    | Some w =>
      add_suffix_from source todo' (S i)
        (addSuffixWayPoint result w
           (getWayPointDurationFromPrevious source i))
    | None => result
    end
  end.

(** The condition of [merge]:
    (!result.empty()) && pilz::isRobotStateEqual(result.getLastWayPointPtr(),
      append_traj_first, result.getGroupName(),
      ROBOT_STATE_EQUALITY_EPSILON) *)
Definition same_boundary (result : RobotTrajectory)
    (append_traj_first : RobotState) : bool :=
  match last (waypoints result) with
  | None => false
  | Some result_last =>
    isRobotStateEqual result_last append_traj_first
                      (getGroupName result) ROBOT_STATE_EQUALITY_EPSILON
  end.

(** [None]: [source] has no way point, and [source.getFirstWayPoint()] is
    undefined. *)
Definition merge (result source : RobotTrajectory) : option RobotTrajectory :=
  match head (waypoints source) with
  | None => None
  | Some append_traj_first =>
    if same_boundary result append_traj_first
    then Some (add_suffix_from source (getWayPointCount source - 1) 1 result)
    else Some (append result source 0)
  end.

End TrajectoryAppender.

(** ** TrajectoryGenerator: the scaling factors *)

Module TrajectoryGenerator.

Definition MIN_SCALING_FACTOR : double := 0.0001.
Definition MAX_SCALING_FACTOR : double := 1.
Definition VELOCITY_TOLERANCE : double := 1e-8.

Definition isScalingFactorValid (scaling_factor : double) : bool :=
  (scaling_factor >? MIN_SCALING_FACTOR)
  && (scaling_factor <=? MAX_SCALING_FACTOR).

(** The exception classes the header declares and the error code each of
    them carries. *)
Inductive MoveItErrorCodeException : Type :=
| TrajectoryGeneratorInvalidLimitsException
| VelocityScalingIncorrect
| AccelerationScalingIncorrect
| UnknownPlanningGroup
| NoJointNamesInStartState
| SizeMismatchInStartState
| JointsOfStartStateOutOfRange
| NonZeroVelocityInStartState
| NotExactlyOneGoalConstraintGiven
| OnlyOneGoalTypeAllowed
| StartStateGoalStateMismatch
| JointConstraintDoesNotBelongToGroup
| JointsOfGoalOutOfRange
| PositionConstraintNameMissing
| OrientationConstraintNameMissing
| PositionOrientationConstraintNameMismatch
| NoIKSolverAvailable
| NoPrimitivePoseGiven.

Definition getErrorCode (e : MoveItErrorCodeException) : Z :=
  match e with
  | TrajectoryGeneratorInvalidLimitsException => MoveItErrorCodes.FAILURE
  | VelocityScalingIncorrect => MoveItErrorCodes.INVALID_MOTION_PLAN
  | AccelerationScalingIncorrect => MoveItErrorCodes.INVALID_MOTION_PLAN
  | UnknownPlanningGroup => MoveItErrorCodes.INVALID_GROUP_NAME
  | NoJointNamesInStartState
  | SizeMismatchInStartState
  | JointsOfStartStateOutOfRange
  | NonZeroVelocityInStartState => MoveItErrorCodes.INVALID_ROBOT_STATE
  | NoIKSolverAvailable => MoveItErrorCodes.NO_IK_SOLUTION
  | _ => MoveItErrorCodes.INVALID_GOAL_CONSTRAINTS
  end.

(** A motion plan request: the two scaling factors, and whatever else the
    request carries. *)
Record MotionPlanRequest (Rest : Type) : Type := {
  max_velocity_scaling_factor : double;
  max_acceleration_scaling_factor : double;
  request_rest : Rest
}.
Arguments max_velocity_scaling_factor {Rest} _.
Arguments max_acceleration_scaling_factor {Rest} _.
Arguments request_rest {Rest} _.

(** Modelled from the spec: [checkVelocityScaling], whose body is in
    trajectory_generator.cpp, not among the translated files: "scaling
    factor outside (epsilon, 1] -> ScalingIncorrect (velocity or
    acceleration variant)".  [None] is a normal return. *)
Definition checkVelocityScaling (scaling_factor : double)
    : option MoveItErrorCodeException :=
  if isScalingFactorValid scaling_factor then None
  else Some VelocityScalingIncorrect.

(** Modelled from the spec: [checkAccelerationScaling], as
    [checkVelocityScaling]. *)
Definition checkAccelerationScaling (scaling_factor : double)
    : option MoveItErrorCodeException :=
  if isScalingFactorValid scaling_factor then None
  else Some AccelerationScalingIncorrect.

Section Generate.

Context {Rest : Type}.
(** The checks of the request validator that come after the scaling
    factors (group name, start state, goal constraints). *)
Variable further_checks :
  MotionPlanRequest Rest -> option MoveItErrorCodeException.
(** The virtual [plan] of the derived generator, which does the
    sampling. *)
Variable plan : MotionPlanRequest Rest -> double -> JointTrajectory.

(** Modelled from the spec: [validateRequest], whose body is in
    trajectory_generator.cpp; the checks in the order the header and the
    spec list them, the scaling factors first. *)
Definition validateRequest (req : MotionPlanRequest Rest)
    : option MoveItErrorCodeException :=
  match checkVelocityScaling (max_velocity_scaling_factor req) with
  | Some e => Some e
  | None =>
    match checkAccelerationScaling
            (max_acceleration_scaling_factor req) with
    | Some e => Some e
    | None => further_checks req
    end
  end.

(** What [generate] leaves in the response, with the number of calls of
    [plan] as a ghost value. *)
Record Response : Type := {
  res_ok : bool;
  res_error_code : Z;
  res_trajectory : list JointTrajectoryPoint;
  res_plan_calls : nat
}.

(** Modelled from the spec: [generate], whose body is in
    trajectory_generator.cpp: "validation failures are detected before
    any sampling work begins and abort immediately with zero trajectory
    points". *)
Definition generate (req : MotionPlanRequest Rest) (sampling_time : double)
    : Response :=
  match validateRequest req with
  | Some e =>
    {| res_ok := false; res_error_code := getErrorCode e;
       res_trajectory := []; res_plan_calls := 0 |}
  | None =>
    {| res_ok := true; res_error_code := MoveItErrorCodes.SUCCESS;
       res_trajectory := points (plan req sampling_time);
       res_plan_calls := 1 |}
  end.

End Generate.

End TrajectoryGenerator.

(** ** isRobotStateStationary *)

Definition isRobotStateStationary (state : RobotState) (group : string)
    (EPSILON : double) : bool :=
  if norm_gt (copyJointGroupVelocities state group) EPSILON
  then false
  else if norm_gt (copyJointGroupAccelerations state group) EPSILON
  then false
  else true.

(** ** intersectionFound and linearSearchIntersectionPoint *)

Record Vector3d : Type := {
  v3_x : double;
  v3_y : double;
  v3_z : double
}.

Definition v3_sub (a b : Vector3d) : Vector3d :=
  {| v3_x := v3_x a - v3_x b; v3_y := v3_y a - v3_y b;
     v3_z := v3_z a - v3_z b |}.

Definition v3_squaredNorm (v : Vector3d) : double :=
  v3_x v * v3_x v + v3_y v * v3_y v + v3_z v * v3_z v.

(** [v.norm() <= r] and [v.norm() >= r], the norm being the non-negative
    square root of [v3_squaredNorm v]. *)
Definition v3_norm_le (v : Vector3d) (r : double) : bool :=
  (0 <=? r) && (v3_squaredNorm v <=? r ^ 2).

Definition v3_norm_ge (v : Vector3d) (r : double) : bool :=
  (r <=? 0) || (r ^ 2 <=? v3_squaredNorm v).

Definition intersectionFound (p_center p_current p_next : Vector3d)
    (r : double) : bool :=
  v3_norm_le (v3_sub p_current p_center) r
  && v3_norm_ge (v3_sub p_next p_center) r.

Section LinearSearch.

(** [state.getFrameTransform(link_name).translation()], the forward
    kinematics of MoveIt. *)
Variable getFrameTranslation : RobotState -> string -> Vector3d.

Variable link_name : string.
Variable center_position : Vector3d.
Variable r : double.
Variable traj : RobotTrajectory.
(** The value of the output argument [index] at the call. *)
Variable index : nat.

(** for(size_t i = 0; i < waypoint_num-1; ++i), with [todo] iterations left.
    [None]: [getWayPointPtr] is called with an index that is out of range,
    which is undefined. *)
Fixpoint search_forward (todo i : nat) : option (bool * nat) :=
  match todo with
  | O => Some (false, index)
  | S todo' =>
    match waypoints traj !! i, waypoints traj !! S i with
    | Some current, Some next =>
      if intersectionFound center_position
           (getFrameTranslation current link_name)
           (getFrameTranslation next link_name) r
      then Some (true, i)
      else search_forward todo' (S i)
    | _, _ => None
    end
  end.

(** for(size_t i = waypoint_num-1; i>0; --i) *)
Fixpoint search_inverse (i : nat) : option (bool * nat) :=
  match i with
  | O => Some (false, index)
  | S i' =>
    match waypoints traj !! S i', waypoints traj !! i' with
    | Some current, Some next =>
      if intersectionFound center_position
           (getFrameTranslation current link_name)
           (getFrameTranslation next link_name) r
      then Some (true, S i')
      else search_inverse i'
    | _, _ => None
    end
  end.

(** Returns the flag and the value of the output argument [index]. *)
Definition linearSearchIntersectionPoint (inverseOrder : bool)
    : option (bool * nat) :=
  let waypoint_num := Z.of_nat (getWayPointCount traj) in
  if inverseOrder
  then search_inverse (Z.to_nat (size_t_sub waypoint_num 1))
  else search_forward (Z.to_nat (size_t_sub waypoint_num 1)) 0.

End LinearSearch.

(** Way point [j] of a trajectory lies within the sphere and way point [k]
    on it or outside: the test of [linearSearchIntersectionPoint]. *)
Definition crosses (getFrameTranslation : RobotState -> string -> Vector3d)
    (link_name : string) (center_position : Vector3d) (r : double)
    (traj : RobotTrajectory) (j k : nat) : Prop :=
  exists current next,
    waypoints traj !! j = Some current
    /\ waypoints traj !! k = Some next
    /\ intersectionFound center_position
         (getFrameTranslation current link_name)
         (getFrameTranslation next link_name) r = true.

(** A trajectory keeps one duration per way point. *)
Definition well_formed (t : RobotTrajectory) : Prop :=
  length (duration_from_previous t) = length (waypoints t).

(** * The vocabulary of the properties *)

(** One iteration of the loop of [determineAndCheckSamplingTime] lets the
    index [i] pass. *)
Definition interval_ok (first_trajectory second_trajectory : RobotTrajectory)
    (epsilon sampling_time : double) (n1 n2 : Z) (i : Z) : Prop :=
  ((i < n1)%Z ->
   Qabs (sampling_time - duration_at first_trajectory i) <= epsilon)
  /\ ((i < n2)%Z ->
      Qabs (sampling_time - duration_at second_trajectory i) <= epsilon).

(** Every interval of [t] but the last one, the one before the first way
    point not counted, lasts [sampling_time] up to [epsilon]. *)
Definition inner_intervals_ok (t : RobotTrajectory)
    (epsilon sampling_time : double) : Prop :=
  forall i : nat, (1 <= i < getWayPointCount t - 1)%nat ->
    Qabs (sampling_time - getWayPointDurationFromPrevious t i) <= epsilon.

Definition Qnat (n : nat) : Q := inject_Z (Z.of_nat n).

(** The acceleration and the velocity the KDL overload records for a joint
    of an inner sample. *)
Definition kdl_acceleration (q q_last v_last d : double) : double :=
  2 * (q - q_last - v_last * d) / d ^ 2.

Definition kdl_velocity (q q_last v_last d : double) : double :=
  v_last + kdl_acceleration q q_last v_last d * d.

(** What [generateJointTrajectory] promises about its two outputs. *)
Definition outputs_agree (r : GenResult) : Prop :=
  (gen_ret r = Ret false ->
   points (gen_trajectory r) = []
   /\ (gen_error_code r = MoveItErrorCodes.NO_IK_SOLUTION
       \/ gen_error_code r = MoveItErrorCodes.PLANNING_FAILED))
  /\ (gen_ret r = Ret true ->
      gen_error_code r = MoveItErrorCodes.SUCCESS).

(** All joints of a way point stand still. *)
Definition at_rest (p : JointTrajectoryPoint) : Prop :=
  Forall (fun v => v = 0) (velocities p)
  /\ Forall (fun a => a = 0) (accelerations p).

(** The loop state after a way point [p] was pushed: for the [j]-th joint
    name, the last IK solution holds the position and the last joint
    velocity holds the velocity recorded in [p]. *)
Definition linked (names : list string)
    (ik_solution_last jvl : gmap string double) (p : JointTrajectoryPoint)
    : Prop :=
  length (positions p) = length names
  /\ length (velocities p) = length names
  /\ forall (j : nat) (name : string), names !! j = Some name ->
       ik_solution_last !! name = positions p !! j
       /\ jvl !! name = velocities p !! j.

(** An inner way point [p] of the KDL overload and the way point [p_prev]
    before it, [d] apart. *)
Definition kdl_inner_step (d : double) (p_prev p : JointTrajectoryPoint)
    : Prop :=
  forall (j : nat) (q q_prev v_prev : double),
    positions p !! j = Some q ->
    positions p_prev !! j = Some q_prev ->
    velocities p_prev !! j = Some v_prev ->
    accelerations p !! j = Some (kdl_acceleration q q_prev v_prev d)
    /\ velocities p !! j = Some (kdl_velocity q q_prev v_prev d).

(** The velocity and the acceleration the CartesianTrajectory overload
    records for a joint. *)
Definition cart_velocity (q q_last d_current : double) : double :=
  (q - q_last) / d_current.

Definition cart_acceleration (v v_last d_last d_current : double) : double :=
  (v - v_last) / (d_current + d_last) * 2.

(** A way point [p] of the CartesianTrajectory overload and the way point
    [p_prev] before it. *)
Definition cart_step (d_last d_current : double)
    (p_prev p : JointTrajectoryPoint) : Prop :=
  forall (j : nat) (q q_prev v_prev : double),
    positions p !! j = Some q ->
    positions p_prev !! j = Some q_prev ->
    velocities p_prev !! j = Some v_prev ->
    velocities p !! j = Some (cart_velocity q q_prev d_current)
    /\ accelerations p !! j
       = Some (cart_acceleration (cart_velocity q q_prev d_current) v_prev
                 d_last d_current).

(** The time stamp of the [k]-th point of a Cartesian trajectory, and the
    duration the loop uses for it. *)
Definition sample_time {PoseMsg : Type}
    (trajectory : list (CartesianTrajectoryPoint PoseMsg)) (k : nat)
    : double :=
  from_option ctp_time_from_start 0 (trajectory !! k).

Definition sample_duration {PoseMsg : Type}
    (trajectory : list (CartesianTrajectoryPoint PoseMsg)) (k : nat)
    : double :=
  match k with
  | O => sample_time trajectory 0
  | S k' => sample_time trajectory (S k') - sample_time trajectory k'
  end.

(** Two robot states agree within the tolerance of [merge]: the norms of
    the differences of their position, velocity and acceleration vectors
    are at most [ROBOT_STATE_EQUALITY_EPSILON]. *)
Definition within_tolerance (state1 state2 : RobotState) (group : string)
    : Prop :=
  let eps := TrajectoryAppender.ROBOT_STATE_EQUALITY_EPSILON in
  squaredNorm (vec_sub (copyJointGroupPositions state1 group)
                       (copyJointGroupPositions state2 group)) <= eps ^ 2
  /\ squaredNorm (vec_sub (copyJointGroupVelocities state1 group)
                          (copyJointGroupVelocities state2 group)) <= eps ^ 2
  /\ squaredNorm (vec_sub (copyJointGroupAccelerations state1 group)
                          (copyJointGroupAccelerations state2 group))
     <= eps ^ 2.

(** The accumulator [result] is not empty and its last way point agrees
    with [first] within the tolerance. *)
Definition boundary_matches (result : RobotTrajectory) (first : RobotState)
    : Prop :=
  exists result_last,
    last (waypoints result) = Some result_last
    /\ within_tolerance result_last first (getGroupName result).

(** * Concrete inputs *)

Module Inputs.

Open Scope string_scope.

(** A container that declares no limit at all. *)
Definition no_limit : JointLimit :=
  {| max_velocity := 0;
     has_acceleration_limits := false; max_acceleration := 0;
     has_deceleration_limits := false; max_deceleration := 0 |}.

Definition no_limits : JointLimitsContainer :=
  {| verifyVelocityLimit := fun _ _ => true; getLimit := fun _ => no_limit |}.

(** Joint [j] may decelerate with at most 1 rad/s^2, stored as -1. *)
Definition deceleration_limit : JointLimitsContainer :=
  {| verifyVelocityLimit := fun _ _ => true;
     getLimit := fun _ =>
       {| max_velocity := 0;
          has_acceleration_limits := false; max_acceleration := 0;
          has_deceleration_limits := true; max_deceleration := -1 |} |}.

(** A robot with the planning group [arm] and the single joint [j].  A
    pose is a number, and the solver puts the joint at that number. *)
Definition robot : RobotModel Q :=
  {| hasJointModelGroup := fun g => String.eqb g "arm";
     canSetStateFromIK := fun _ _ => true;
     getModelFrame := "world";
     getActiveJointModelNames := fun _ => ["j"];
     setFromIK := fun _ pose _ _ _ _ => Some (fun _ => pose) |}.

(** The same robot with a solver that finds nothing. *)
Definition robot_without_solution : RobotModel Q :=
  {| hasJointModelGroup := fun g => String.eqb g "arm";
     canSetStateFromIK := fun _ _ => true;
     getModelFrame := "world";
     getActiveJointModelNames := fun _ => ["j"];
     setFromIK := fun _ _ _ _ _ _ => None |}.

(** The same robot with a solver that reaches the poses up to 1 only. *)
Definition robot_short_reach : RobotModel Q :=
  {| hasJointModelGroup := fun g => String.eqb g "arm";
     canSetStateFromIK := fun _ _ => true;
     getModelFrame := "world";
     getActiveJointModelNames := fun _ => ["j"];
     setFromIK := fun _ pose _ _ _ _ =>
       if (pose <=? 1)%Q then Some (fun _ => pose) else None |}.

(** Joint velocities up to 1/2 rad/s are allowed. *)
Definition velocity_limit : JointLimitsContainer :=
  {| verifyVelocityLimit := fun _ v => (fabs v <=? 1 # 2)%Q;
     getLimit := fun _ => no_limit |}.

Definition at_zero : gmap string double := {[ "j" := 0 ]}.

(** A path of two seconds through the poses 0, 1 and 4. *)
Definition kdl_path : KDLTrajectory Q :=
  {| Duration := 2; Pos := fun t => t * t |}.

(** A path of 1 + 2^-18 seconds, not a whole number of nanoseconds, at
    the pose [t] after [t] seconds. *)
Definition kdl_path_off_grid : KDLTrajectory Q :=
  {| Duration := 1 + (1 # 262144); Pos := fun t => t |}.

(** The poses 1, 3 and 4 after one, two and three seconds. *)
Definition cart_path : list (CartesianTrajectoryPoint Q) :=
  [ {| pose := 1; ctp_time_from_start := 1 |};
    {| pose := 3; ctp_time_from_start := 2 |};
    {| pose := 4; ctp_time_from_start := 3 |} ].

Definition empty_joint_trajectory : JointTrajectory :=
  {| joint_names := []; points := [] |}.

(** A robot state in which the only joint stands still at [q]. *)
Definition standing_at (q : double) : RobotState :=
  {| copyJointGroupPositions := fun _ => [q];
     copyJointGroupVelocities := fun _ => [0];
     copyJointGroupAccelerations := fun _ => [0] |}.

(** Way points at the given positions, one second apart. *)
Definition trajectory_through (qs : list double) : RobotTrajectory :=
  {| getGroupName := "arm";
     waypoints := standing_at <$> qs;
     duration_from_previous := (fun _ => 1) <$> qs |}.

Definition empty_trajectory : RobotTrajectory := trajectory_through [].

(** Way points with the given durations from the previous one. *)
Definition trajectory_with_durations (ds : list double) : RobotTrajectory :=
  {| getGroupName := "arm";
     waypoints := (fun _ => standing_at 0) <$> ds;
     duration_from_previous := ds |}.

(** A way point of a trajectory with one joint. *)
Definition way_point (q v a t : double) : JointTrajectoryPoint :=
  {| positions := [q]; velocities := [v]; accelerations := [a];
     time_from_start := t |}.

End Inputs.

Module SearchInputs.

(** The link sits on the x axis, at the position of the first joint. *)
Definition on_x_axis (state : RobotState) (link_name : string) : Vector3d :=
  {| v3_x := hd 0 (copyJointGroupPositions state link_name);
     v3_y := 0; v3_z := 0 |}.

Definition origin : Vector3d := {| v3_x := 0; v3_y := 0; v3_z := 0 |}.

(** The link moves away from the origin, one unit per way point. *)
Definition leaving : RobotTrajectory := Inputs.trajectory_through [0; 1; 2; 3].

End SearchInputs.

(** * Properties *)

(** ** Comparisons *)

Lemma Qleb_iff (x y : double) : (x <=? y) = true <-> x <= y.
Proof. apply Qle_bool_iff. Qed.

Lemma Qltb_iff (x y : double) : (x <? y) = true <-> x < y.
Proof.
  unfold Qltb. rewrite negb_true_iff. split.
  - intros H. apply Qnot_le_lt. intros Hle.
    apply Qle_bool_iff in Hle. congruence.
  - intros H. destruct (Qle_bool y x) eqn:E; [|reflexivity].
    apply Qle_bool_iff in E. exfalso. apply (Qlt_not_le _ _ H E).
Qed.

Lemma Qgtb_iff (x y : double) : (x >? y) = true <-> y < x.
Proof. apply Qltb_iff. Qed.

Lemma Qleb_false_iff (x y : double) : (x <=? y) = false <-> y < x.
Proof.
  rewrite <- Qltb_iff. unfold Qltb, Qleb.
  destruct (Qle_bool x y); simpl; intuition congruence.
Qed.

Lemma Qltb_false_iff (x y : double) : (x <? y) = false <-> y <= x.
Proof.
  rewrite <- Qleb_iff. unfold Qltb, Qleb.
  destruct (Qle_bool y x); simpl; intuition congruence.
Qed.

Lemma Qgtb_false_iff (x y : double) : (x >? y) = false <-> x <= y.
Proof. apply Qltb_false_iff. Qed.

(** ** ros::Duration *)

(** A duration made from [d] is a whole number [n] of nanoseconds, the
    nearest to [d]. *)
Lemma ros_Duration_nanoseconds (d : double) :
  exists n : Z,
    ros_Duration d == inject_Z n / (1000000000 # 1)
    /\ inject_Z n <= d * (1000000000 # 1) + (1 # 2)
    /\ d * (1000000000 # 1) + (1 # 2) < inject_Z n + 1.
Proof.
  unfold ros_Duration. cbv zeta.
  set (sec := Qfloor d).
  set (x := (d - inject_Z sec) * (1000000000 # 1) + (1 # 2)).
  exists (sec * 1000000000 + Qfloor x)%Z.
  pose proof (Qfloor_le x) as Hle. pose proof (Qlt_floor x) as Hlt.
  rewrite inject_Z_plus in Hlt. change (inject_Z 1) with 1 in Hlt.
  rewrite Qred_correct, inject_Z_plus, inject_Z_mult.
  change (inject_Z 1000000000) with (1000000000 # 1).
  set (z := Qfloor x) in *. unfold x in Hle, Hlt.
  split; [|split].
  - field.
  - lra.
  - lra.
Qed.

(** It lies within half a nanosecond of [d]. *)
Lemma ros_Duration_close (d : double) :
  d - (1 # 2000000000) < ros_Duration d
  /\ ros_Duration d <= d + (1 # 2000000000).
Proof.
  destruct (ros_Duration_nanoseconds d) as (n & -> & Hle & Hlt).
  unfold Qdiv. change (/ (1000000000 # 1)) with (1 # 1000000000).
  split; lra.
Qed.

Lemma ros_Duration_mono (d d' : double) :
  d <= d' -> ros_Duration d <= ros_Duration d'.
Proof.
  intros H.
  destruct (ros_Duration_nanoseconds d) as (n & -> & Hle & _).
  destruct (ros_Duration_nanoseconds d') as (n' & -> & _ & Hlt').
  assert (Hn : (n < n' + 1)%Z).
  { rewrite Zlt_Qlt, inject_Z_plus. change (inject_Z 1) with 1. lra. }
  assert (Hq : inject_Z n <= inject_Z n') by (rewrite <- Zle_Qle; lia).
  unfold Qdiv. change (/ (1000000000 # 1)) with (1 # 1000000000). lra.
Qed.

(** Two numbers at least a nanosecond apart make different durations. *)
Lemma ros_Duration_strict (d d' : double) :
  d + (1 # 1000000000) <= d' -> ros_Duration d < ros_Duration d'.
Proof.
  intros H.
  destruct (ros_Duration_nanoseconds d) as (n & -> & Hle & _).
  destruct (ros_Duration_nanoseconds d') as (n' & -> & _ & Hlt').
  assert (Hn : (n < n')%Z).
  { rewrite Zlt_Qlt. lra. }
  assert (Hq : inject_Z n + 1 <= inject_Z n').
  { change 1 with (inject_Z 1). rewrite <- inject_Z_plus, <- Zle_Qle. lia. }
  unfold Qdiv. change (/ (1000000000 # 1)) with (1 # 1000000000). lra.
Qed.

(** The duration made from 1 + 2^-18 seconds is 1 s 3815 ns, and the one
    made from 2^-31 seconds is zero. *)
Example ros_Duration_rounds :
  ros_Duration (1 + (1 # 262144)) == 1 + (3815 # 1000000000)
  /\ ros_Duration (1 # 2147483648) = 0
  /\ ros_Duration 0 = 0 /\ ros_Duration 1 = 1 /\ ros_Duration 2 = 2.
Proof. repeat split; vm_compute; reflexivity. Qed.

(** ** The sample validator *)

Section SampleValidatorProperties.

Variables position_last velocity_last : gmap string double.
Variables duration_last duration_current : double.
Variable joint_limits : JointLimitsContainer.

Lemma verifyJoints_examined (todo : list (string * double)) (n : nat)
    (r : outcome bool) (m : nat) :
  verifyJoints position_last velocity_last duration_last duration_current
               joint_limits todo n = (r, m) ->
  (todo = [] /\ r = Ret true /\ m = n) \/ (n < m)%nat.
Proof.
  revert n. induction todo as [|pos todo IH]; intros n; simpl.
  - intros [= <- <-]. left. done.
  - destruct (verifyJoint _ _ _ _ _ pos) as [[|]|e].
    + intros H. right. destruct (IH _ H) as [(_ & _ & ->)|Hlt]; lia.
    + intros [= <- <-]. right. lia.
    + intros [= <- <-]. right. lia.
Qed.

(** The loop over the joints returns false iff the body returns false for
    some joint and lets all the joints before it pass. *)
Lemma verifyJoints_false_iff (todo : list (string * double)) (n : nat) :
  (verifyJoints position_last velocity_last duration_last duration_current
                joint_limits todo n).1 = Ret false
  <-> exists before pos after,
        todo = before ++ pos :: after
        /\ Forall (fun p => verifyJoint position_last velocity_last
                              duration_last duration_current joint_limits p
                            = Ret true) before
        /\ verifyJoint position_last velocity_last duration_last
                       duration_current joint_limits pos = Ret false.
Proof.
  revert n. induction todo as [|pos todo IH]; intros n; cbn [verifyJoints].
  - split; [discriminate|]. intros (before & p & after & H & _).
    destruct before; discriminate H.
  - destruct (verifyJoint _ _ _ _ _ pos) as [[|]|e] eqn:Hpos.
    + rewrite IH. split.
      * intros (before & p & after & -> & Hall & Hp).
        exists (pos :: before), p, after.
        split; [reflexivity|]. split; [constructor; assumption|exact Hp].
      * intros (before & p & after & Heq & Hall & Hp).
        destruct before as [|b before]; cbn in Heq.
        -- injection Heq as <- <-. congruence.
        -- injection Heq as <- ->. inversion Hall; subst.
           exists before, p, after. done.
    + split; [intros _|reflexivity].
      exists [], pos, todo. split; [reflexivity|]. split; [constructor|].
      exact Hpos.
    + split; [discriminate|].
      intros (before & p & after & Heq & Hall & Hp).
      destruct before as [|b before]; cbn in Heq.
      * injection Heq as <- <-. congruence.
      * injection Heq as <- ->. inversion Hall; subst. congruence.
Qed.

End SampleValidatorProperties.

(** A sample that passes has a current duration above [10e-6]. *)
Lemma verifySampleJointLimits_true_duration
    (position_last velocity_last position_current : gmap string double)
    (duration_last duration_current : double)
    (joint_limits : JointLimitsContainer) :
  verifySampleJointLimits position_last velocity_last position_current
    duration_last duration_current joint_limits = Ret true ->
  1 # 100000 < duration_current.
Proof.
  unfold verifySampleJointLimits, verifySampleJointLimits_traced.
  destruct (duration_current <=? SampleValidator.epsilon) eqn:E;
    [discriminate|].
  intros _. apply Qleb_false_iff in E.
  change SampleValidator.epsilon with (10 # 1000000) in E. lra.
Qed.

(** C3, as the code has it.  [verifySampleJointLimits] returns failure
    without having examined any joint exactly when the current-interval
    duration is at most [10e-6] (that is 1e-5, not 1e-6); for every duration
    strictly above it, its result is that of the loop over the joints. *)
Theorem verifySampleJointLimits_duration_guard
    (position_last velocity_last position_current : gmap string double)
    (duration_last duration_current : double)
    (joint_limits : JointLimitsContainer) :
  (verifySampleJointLimits_traced position_last velocity_last position_current
     duration_last duration_current joint_limits = (Ret false, O)
   <-> duration_current <= 1 # 100000)
  /\ (1 # 100000 < duration_current ->
      verifySampleJointLimits_traced position_last velocity_last
        position_current duration_last duration_current joint_limits
      = verifyJoints position_last velocity_last duration_last
          duration_current joint_limits (entries position_current) O).
Proof.
  unfold verifySampleJointLimits_traced.
  destruct (duration_current <=? SampleValidator.epsilon) eqn:E.
  - apply Qleb_iff in E.
    change SampleValidator.epsilon with (10 # 1000000) in E.
    split; [split; [intros _|reflexivity]|intros H]; lra.
  - apply Qleb_false_iff in E.
    change SampleValidator.epsilon with (10 # 1000000) in E.
    split; [split|reflexivity].
    + intros H. apply verifyJoints_examined in H.
      destruct H as [(_ & [=] & _)|H]; lia.
    + intros H. lra.
Qed.

(** C3 does not hold with the bound 1e-6: at the duration 2^-18 (about
    3.8e-6) the function fails before it looks at the only joint, which is
    within all limits. *)
Lemma verifySampleJointLimits_guard_above_1e_6 :
  1e-6 < 1 # 262144
  /\ verifySampleJointLimits_traced Inputs.at_zero Inputs.at_zero
       Inputs.at_zero 1 (1 # 262144) Inputs.no_limits = (Ret false, O)
  /\ verifyJoints Inputs.at_zero Inputs.at_zero 1 (1 # 262144)
       Inputs.no_limits (entries Inputs.at_zero) O = (Ret true, 1%nat).
Proof. split; [reflexivity|split; vm_compute; reflexivity]. Qed.

Lemma verifySampleJointLimits_duration_guard_witness :
  verifySampleJointLimits_traced Inputs.at_zero Inputs.at_zero Inputs.at_zero
    1 1 Inputs.no_limits
  = verifyJoints Inputs.at_zero Inputs.at_zero 1 1 Inputs.no_limits
      (entries Inputs.at_zero) O.
Proof.
  apply (proj2 (verifySampleJointLimits_duration_guard
                  Inputs.at_zero Inputs.at_zero Inputs.at_zero 1 1
                  Inputs.no_limits)).
  reflexivity.
Defined.

(** The comparison of the doubled quotient with a limit: for a divisor that
    is not zero it compares the magnitudes; over a zero divisor it holds
    exactly when the dividend is not zero. *)
Lemma fabs_exceeds_divide (n d limit : double) :
  fabs_exceeds (twice (divide n d)) limit = true
  <-> (~ d == 0 /\ Qabs limit < Qabs (2 * n / d)) \/ (d == 0 /\ ~ n == 0).
Proof.
  unfold divide.
  destruct (Qeq_bool d 0) eqn:Ed.
  - apply Qeq_bool_iff in Ed.
    destruct (Qeq_bool n 0) eqn:En; cbn [twice fabs_exceeds].
    + apply Qeq_bool_iff in En.
      split; [discriminate|]. intros [[H _]|[_ H]]; contradiction.
    + apply Qeq_bool_neq in En.
      split; [intros _; right; done|done].
  - apply Qeq_bool_neq in Ed. cbn [twice fabs_exceeds].
    rewrite Qgtb_iff. unfold fabs.
    assert (Ha : Qabs (n / d * 2) == Qabs (2 * n / d)).
    { apply Qabs_wd. unfold Qdiv. ring. }
    rewrite Ha.
    split; [intros H; left; done|].
    intros [[_ H]|[H _]]; [done|contradiction].
Qed.

(** C6, as the code has it.  For a current duration above [10e-6] and a
    joint that is examined (its previous position and velocity are known)
    and whose velocity limit is satisfied, the body of the loop never
    throws; it fails iff either the sample is accelerating
    (|previous velocity| <= |current velocity|), the joint declares
    acceleration limits and the acceleration exceeds the joint's max
    acceleration, or the sample is decelerating, the joint declares
    deceleration limits and the acceleration exceeds the joint's max
    deceleration.  When the two durations do not add up to zero, the
    acceleration is 2 (current velocity - previous velocity) / (previous
    duration + current duration) and it exceeds a limit when its magnitude
    is above the magnitude of the limit; when they add up to zero, the
    division is by zero and the acceleration exceeds every limit exactly
    when the two velocities differ. *)
Theorem verifyJoint_acceleration_check
    (position_last velocity_last : gmap string double)
    (duration_last duration_current : double)
    (joint_limits : JointLimitsContainer)
    (joint : string) (p p_last v_last : double) :
  position_last !! joint = Some p_last ->
  velocity_last !! joint = Some v_last ->
  1 # 100000 < duration_current ->
  let v := (p - p_last) / duration_current in
  let a := 2 * (v - v_last) / (duration_last + duration_current) in
  let limit := getLimit joint_limits joint in
  let exceeds := fun m : double =>
    (~ duration_last + duration_current == 0 /\ Qabs m < Qabs a)
    \/ (duration_last + duration_current == 0 /\ ~ v == v_last) in
  verifyVelocityLimit joint_limits joint v = true ->
  (exists b, verifyJoint position_last velocity_last duration_last
               duration_current joint_limits (joint, p) = Ret b)
  /\ (verifyJoint position_last velocity_last duration_last duration_current
        joint_limits (joint, p) = Ret false
      <-> (Qabs v_last <= Qabs v
           /\ has_acceleration_limits limit = true
           /\ exceeds (max_acceleration limit))
          \/ (~ Qabs v_last <= Qabs v
              /\ has_deceleration_limits limit = true
              /\ exceeds (max_deceleration limit))).
Proof.
  intros Hp Hv _ v a limit exceeds Hvel.
  assert (Hex : forall m,
             fabs_exceeds
               (twice (divide (v - v_last) (duration_last + duration_current)))
               m = true <-> exceeds m).
  { intros m. rewrite fabs_exceeds_divide. unfold exceeds. fold a.
    assert (Hz : v - v_last == 0 <-> v == v_last) by (split; intros H; lra).
    rewrite Hz. reflexivity. }
  unfold verifyJoint. cbn [fst snd]. rewrite Hp. cbv zeta. fold v.
  rewrite Hvel. cbn [negb]. rewrite Hv. unfold fabs. fold limit.
  destruct (Qabs v_last <=? Qabs v) eqn:Hcase.
  - apply Qleb_iff in Hcase.
    destruct (has_acceleration_limits limit); cbn [andb].
    + destruct (fabs_exceeds _ (max_acceleration limit)) eqn:Hcmp.
      * apply Hex in Hcmp.
        split; [eauto|]. split; [intros _; left; done|done].
      * split; [eauto|]. split; [done|].
        intros [(_ & _ & H)|(H & _)]; [|done].
        apply Hex in H. congruence.
    + split; [eauto|]. split; [done|].
      intros [(_ & H & _)|(H & _)]; done.
  - apply Qleb_false_iff in Hcase.
    assert (Hn : ~ Qabs v_last <= Qabs v) by (apply Qlt_not_le; done).
    destruct (has_deceleration_limits limit); cbn [andb].
    + destruct (fabs_exceeds _ (max_deceleration limit)) eqn:Hcmp.
      * apply Hex in Hcmp.
        split; [eauto|]. split; [intros _; right; done|done].
      * split; [eauto|]. split; [done|].
        intros [(H & _)|(_ & _ & H)]; [done|].
        apply Hex in H. congruence.
    + split; [eauto|]. split; [done|].
      intros [(H & _)|(_ & H & _)]; done.
Qed.

(** Joint [j] moved with velocity 4 and now moves with velocity 1 over
    durations of 1: the deceleration has magnitude 3, above the magnitude 1
    of the declared limit, and the sample fails. *)
Lemma verifyJoint_acceleration_check_witness :
  verifyJoint {[ "j"%string := 0 ]} {[ "j"%string := 4 ]} 1 1
    Inputs.deceleration_limit ("j"%string, 1) = Ret false.
Proof.
  destruct (verifyJoint_acceleration_check
              {[ "j"%string := 0 ]} {[ "j"%string := 4 ]} 1 1
              Inputs.deceleration_limit "j"%string 1 0 4)
    as [_ H]; [reflexivity|reflexivity|reflexivity|reflexivity|].
  apply H. right.
  split; [intros C; vm_compute in C; apply C; reflexivity|].
  split; [reflexivity|].
  left. split; [intros C; vm_compute in C; discriminate C|reflexivity].
Defined.

(** A previous duration of -1 and a current one of 1: the division is by
    zero.  With the velocity falling from 4 to 1 the acceleration is
    infinite and the declared limit is exceeded; with the velocity staying
    at 1 the acceleration is not a number and no limit is exceeded. *)
Example verifyJoint_zero_divisor :
  verifyJoint {[ "j"%string := 0 ]} {[ "j"%string := 4 ]} (-1) 1
    Inputs.deceleration_limit ("j"%string, 1) = Ret false
  /\ verifyJoint {[ "j"%string := 0 ]} {[ "j"%string := 1 ]} (-1) 1
       Inputs.deceleration_limit ("j"%string, 1) = Ret true.
Proof. split; vm_compute; reflexivity. Qed.

(** C6 does not hold when the limit itself is compared: joint [j] slows
    down from velocity 1 to velocity 1/2, its acceleration has magnitude
    1/2, which exceeds the declared max deceleration -1, and yet the sample
    passes, because the code compares with the magnitude 1 of the limit. *)
Lemma verifyJoint_negative_deceleration_limit :
  let p_last := 0 in
  let v_last := 1 in
  let p := 1 # 2 in
  let v := (p - p_last) / 1 in
  let a := 2 * (v - v_last) / (1 + 1) in
  let limit := getLimit Inputs.deceleration_limit "j" in
  ~ Qabs v_last <= Qabs v
  /\ has_deceleration_limits limit = true
  /\ max_deceleration limit < Qabs a
  /\ verifyJoint {[ "j"%string := p_last ]} {[ "j"%string := v_last ]} 1 1
       Inputs.deceleration_limit ("j"%string, p) = Ret true.
Proof.
  cbv zeta. split; [|split; [|split]].
  - intros H. vm_compute in H. apply H. reflexivity.
  - reflexivity.
  - reflexivity.
  - vm_compute. reflexivity.
Qed.

(** ** computePoseIK *)

Section ComputePoseIKProperties.

Context {Isometry3d : Type}.

(** C10.  When the planning group is unknown, or the group cannot set its
    state from IK for the link, or [frame_id] is not the model frame,
    [computePoseIK] returns false, has not invoked the solver and leaves
    [solution] as it was; so a successful call implies that [frame_id] is
    the model frame. *)
Theorem computePoseIK_guards (robot_model : RobotModel Isometry3d)
    (group_name link_name : string) (pose : Isometry3d) (frame_id : string)
    (seed solution : gmap string double) (check_self_collision : bool)
    (timeout : double) :
  let r := computePoseIK robot_model group_name link_name pose frame_id
             seed solution check_self_collision timeout in
  (hasJointModelGroup robot_model group_name = false
   \/ canSetStateFromIK robot_model group_name link_name = false
   \/ frame_id <> getModelFrame robot_model ->
   ik_ok r = false /\ ik_solver_calls r = O /\ ik_solution_out r = solution)
  /\ (ik_ok r = true -> frame_id = getModelFrame robot_model).
Proof.
  unfold computePoseIK.
  destruct (hasJointModelGroup robot_model group_name) eqn:Hg; cbn [negb];
    [|split; [done|discriminate]].
  destruct (canSetStateFromIK robot_model group_name link_name) eqn:Hl;
    cbn [negb]; [|split; [done|discriminate]].
  destruct (String.eqb_spec frame_id (getModelFrame robot_model)) as [He|He];
    cbn [negb]; [|split; [done|discriminate]].
  split; [|done].
  intros [H|[H|H]]; done.
Qed.

End ComputePoseIKProperties.

Lemma computePoseIK_guards_witness :
  let r := computePoseIK Inputs.robot "arm" "tcp" (1 : Q) "base"
             Inputs.at_zero ∅ false 0 in
  ik_ok r = false /\ ik_solver_calls r = O /\ ik_solution_out r = ∅.
Proof.
  apply (proj1 (computePoseIK_guards Inputs.robot "arm" "tcp" (1 : Q) "base"
                  Inputs.at_zero ∅ false 0)).
  right. right. discriminate.
Defined.

(** ** The scaling factors *)

Section ScalingFactorProperties.

Import TrajectoryGenerator.
Context {Rest : Type}.
Variable further_checks :
  MotionPlanRequest Rest -> option MoveItErrorCodeException.
Variable plan : MotionPlanRequest Rest -> double -> JointTrajectory.

Lemma isScalingFactorValid_iff (s : double) :
  isScalingFactorValid s = true <-> 1 # 10000 < s /\ s <= 1.
Proof.
  unfold isScalingFactorValid. rewrite andb_true_iff, Qgtb_iff, Qleb_iff.
  change MIN_SCALING_FACTOR with (1 # 10000).
  change MAX_SCALING_FACTOR with 1. reflexivity.
Qed.

(** C7.  [isScalingFactorValid s] is true iff 0.0001 < s <= 1.  A request
    whose velocity scaling factor is <= 0.0001 or > 1 is rejected as
    VelocityScalingIncorrect, one whose velocity factor is valid and whose
    acceleration factor is <= 0.0001 or > 1 as
    AccelerationScalingIncorrect; [generate] then fails with the code of
    that exception, INVALID_MOTION_PLAN, without a call of [plan] and with
    no trajectory point.  Factors in (0.0001, 1] pass both checks. *)
Theorem scaling_factor_validation (req : MotionPlanRequest Rest)
    (sampling_time : double) :
  let v := max_velocity_scaling_factor req in
  let a := max_acceleration_scaling_factor req in
  let res := generate further_checks plan req sampling_time in
  (forall s, isScalingFactorValid s = true <-> 1 # 10000 < s /\ s <= 1)
  /\ (v <= 1 # 10000 \/ 1 < v ->
      validateRequest further_checks req = Some VelocityScalingIncorrect
      /\ res_ok res = false
      /\ res_error_code res = MoveItErrorCodes.INVALID_MOTION_PLAN
      /\ res_plan_calls res = O /\ res_trajectory res = [])
  /\ (1 # 10000 < v /\ v <= 1 -> a <= 1 # 10000 \/ 1 < a ->
      validateRequest further_checks req = Some AccelerationScalingIncorrect
      /\ res_ok res = false
      /\ res_error_code res = MoveItErrorCodes.INVALID_MOTION_PLAN
      /\ res_plan_calls res = O /\ res_trajectory res = [])
  /\ (1 # 10000 < v /\ v <= 1 -> 1 # 10000 < a /\ a <= 1 ->
      checkVelocityScaling v = None /\ checkAccelerationScaling a = None
      /\ validateRequest further_checks req = further_checks req).
Proof.
  intros v a res. split; [exact isScalingFactorValid_iff|].
  unfold res, generate, validateRequest, checkVelocityScaling,
    checkAccelerationScaling. fold v a.
  destruct (isScalingFactorValid v) eqn:Hv;
    destruct (isScalingFactorValid a) eqn:Ha.
  - apply isScalingFactorValid_iff in Hv, Ha.
    split; [|split]; [intros H; exfalso; lra| intros _ H; exfalso; lra|done].
  - apply isScalingFactorValid_iff in Hv.
    apply not_true_iff_false in Ha. rewrite isScalingFactorValid_iff in Ha.
    split; [|split]; [intros H; exfalso; lra|done|].
    intros _ H. exfalso. apply Ha, H.
  - apply not_true_iff_false in Hv. rewrite isScalingFactorValid_iff in Hv.
    split; [|split]; [done| |]; intros H; exfalso; apply Hv, H.
  - apply not_true_iff_false in Hv. rewrite isScalingFactorValid_iff in Hv.
    split; [|split]; [done| |]; intros H; exfalso; apply Hv, H.
Qed.

End ScalingFactorProperties.

Lemma scaling_factor_validation_witness :
  let req := {| TrajectoryGenerator.max_velocity_scaling_factor := 1 # 10000;
                TrajectoryGenerator.max_acceleration_scaling_factor := 1;
                TrajectoryGenerator.request_rest := tt |} in
  let res := TrajectoryGenerator.generate (fun _ => None)
               (fun _ _ => Inputs.empty_joint_trajectory) req (1 # 10) in
  TrajectoryGenerator.validateRequest (fun _ => None) req
  = Some TrajectoryGenerator.VelocityScalingIncorrect
  /\ TrajectoryGenerator.res_ok res = false
  /\ TrajectoryGenerator.res_error_code res
     = MoveItErrorCodes.INVALID_MOTION_PLAN
  /\ TrajectoryGenerator.res_plan_calls res = O
  /\ TrajectoryGenerator.res_trajectory res = [].
Proof.
  cbv zeta.
  apply (proj1 (proj2 (scaling_factor_validation (fun _ => None)
                         (fun _ _ => Inputs.empty_joint_trajectory)
                         {| TrajectoryGenerator.max_velocity_scaling_factor :=
                              1 # 10000;
                            TrajectoryGenerator.max_acceleration_scaling_factor
                              := 1;
                            TrajectoryGenerator.request_rest := tt |}
                         (1 # 10)))).
  left. cbn. apply Qle_refl.
Defined.

(** ** TrajectoryAppender::merge *)

Section MergeProperties.

Import TrajectoryAppender.

Lemma add_suffix_from_waypoints (source : RobotTrajectory) (todo i : nat)
    (result : RobotTrajectory) :
  waypoints (add_suffix_from source todo i result)
  = waypoints result ++ take todo (drop i (waypoints source)).
Proof.
  revert i result. induction todo as [|todo IH]; intros i result.
  - cbn. rewrite take_0, app_nil_r. reflexivity.
  - cbn [add_suffix_from].
    destruct (waypoints source !! i) as [w|] eqn:Hw.
    + rewrite IH. cbn [addSuffixWayPoint waypoints].
      rewrite (drop_S _ _ _ Hw). cbn [take]. rewrite <- app_assoc.
      reflexivity.
    + rewrite drop_ge by (apply lookup_ge_None; exact Hw).
      rewrite take_nil, app_nil_r. reflexivity.
Qed.

Lemma norm_gt_false_iff (v : list double) (epsilon : double) :
  0 <= epsilon ->
  norm_gt v epsilon = false <-> squaredNorm v <= epsilon ^ 2.
Proof.
  intros Heps. unfold norm_gt.
  rewrite orb_false_iff, Qltb_false_iff, Qgtb_false_iff.
  split; [intros [_ H]; exact H|intros H; split; [exact Heps|exact H]].
Qed.

Lemma isRobotStateEqual_iff (state1 state2 : RobotState) (group : string) :
  isRobotStateEqual state1 state2 group ROBOT_STATE_EQUALITY_EPSILON = true
  <-> within_tolerance state1 state2 group.
Proof.
  assert (Heps : 0 <= ROBOT_STATE_EQUALITY_EPSILON) by discriminate.
  unfold isRobotStateEqual, within_tolerance. cbv zeta.
  rewrite <- !(norm_gt_false_iff _ _ Heps).
  repeat match goal with |- context [norm_gt ?v ?e] => destruct (norm_gt v e) end;
    intuition discriminate.
Qed.

Lemma same_boundary_iff (result : RobotTrajectory) (first : RobotState) :
  same_boundary result first = true <-> boundary_matches result first.
Proof.
  unfold same_boundary, boundary_matches.
  destruct (last (waypoints result)) as [result_last|].
  - rewrite isRobotStateEqual_iff. split.
    + intros H. exists result_last. done.
    + intros (l & [= <-] & H). exact H.
  - split; [discriminate|]. intros (l & [=] & _).
Qed.

(** C8.  For a source with at least one way point: when the accumulator
    is not empty and its last way point equals the first one of the
    source within the tolerance, [merge] adds the way points of the source
    from the second one on, and the result has (accumulator count + source
    count - 1) way points; otherwise, an empty accumulator included, it
    adds every way point of the source, and the result has (accumulator
    count + source count) way points. *)
Theorem merge_waypoints (result source : RobotTrajectory)
    (first : RobotState) :
  head (waypoints source) = Some first ->
  exists merged,
    merge result source = Some merged
    /\ (boundary_matches result first ->
        waypoints merged = waypoints result ++ tail (waypoints source)
        /\ getWayPointCount merged
           = (getWayPointCount result + getWayPointCount source - 1)%nat)
    /\ (~ boundary_matches result first ->
        waypoints merged = waypoints result ++ waypoints source
        /\ getWayPointCount merged
           = (getWayPointCount result + getWayPointCount source)%nat).
Proof.
  intros Hfirst. unfold merge. rewrite Hfirst.
  destruct (same_boundary result first) eqn:Hsame; eexists;
    (split; [reflexivity|]).
  - apply same_boundary_iff in Hsame. split; [intros _|done].
    assert (Hw : waypoints
                   (add_suffix_from source (getWayPointCount source - 1) 1
                      result)
                 = waypoints result ++ tail (waypoints source)).
    { rewrite add_suffix_from_waypoints. f_equal.
      unfold getWayPointCount.
      destruct (waypoints source) as [|w ws]; [done|].
      cbn [drop tail length]. rewrite drop_0.
      apply take_ge. lia. }
    split; [exact Hw|].
    unfold getWayPointCount in *. rewrite Hw, length_app.
    destruct (waypoints source) as [|w ws]; [done|].
    cbn [tail length]. lia.
  - apply not_true_iff_false in Hsame. rewrite same_boundary_iff in Hsame.
    split; [done|intros _].
    split; [reflexivity|].
    unfold getWayPointCount, append. cbn [waypoints].
    apply length_app.
Qed.

End MergeProperties.

Lemma merge_waypoints_witness :
  exists merged,
    TrajectoryAppender.merge (Inputs.trajectory_through [0; 1])
                             (Inputs.trajectory_through [1; 2]) = Some merged
    /\ getWayPointCount merged = 3%nat.
Proof.
  destruct (merge_waypoints (Inputs.trajectory_through [0; 1])
              (Inputs.trajectory_through [1; 2]) (Inputs.standing_at 1))
    as (merged & Hm & Hsame & _); [reflexivity|].
  exists merged. split; [exact Hm|].
  apply Hsame. exists (Inputs.standing_at 1). split; [reflexivity|].
  repeat split; vm_compute; discriminate.
Defined.

(** [merge] on an accumulator that ends where the source begins, on one that
    ends elsewhere, and on an empty one. *)
Example merge_same_boundary :
  (waypoints <$> TrajectoryAppender.merge (Inputs.trajectory_through [0; 1])
                   (Inputs.trajectory_through [1; 2]))
  = Some (Inputs.standing_at <$> [0; 1; 2]).
Proof. reflexivity. Qed.

Example merge_other_boundary :
  (waypoints <$> TrajectoryAppender.merge (Inputs.trajectory_through [0; 1])
                   (Inputs.trajectory_through [2; 3]))
  = Some (Inputs.standing_at <$> [0; 1; 2; 3]).
Proof. reflexivity. Qed.

Example merge_into_empty :
  (waypoints <$> TrajectoryAppender.merge Inputs.empty_trajectory
                   (Inputs.trajectory_through [2; 3]))
  = Some (Inputs.standing_at <$> [2; 3]).
Proof. reflexivity. Qed.

(** ** determineAndCheckSamplingTime *)

Section ReconcilerProperties.

Variables first_trajectory second_trajectory : RobotTrajectory.
Variables epsilon sampling_time : double.
Variables n1 n2 : Z.

Lemma check_loop_true_iff (todo : nat) (i : Z) :
  check_loop first_trajectory second_trajectory epsilon sampling_time
             n1 n2 todo i = true
  <-> forall k, (i <= k < i + Z.of_nat todo)%Z ->
        interval_ok first_trajectory second_trajectory epsilon
                    sampling_time n1 n2 k.
Proof.
  revert i. induction todo as [|todo IH]; intros i.
  - cbn. split; [intros _ k Hk; lia|done].
  - cbn [check_loop]. unfold fabs, interval_ok.
    destruct (Z.ltb_spec i n1) as [H1|H1]; cbn [andb].
    + destruct (Qabs (sampling_time - duration_at first_trajectory i)
                >? epsilon) eqn:E1.
      * apply Qgtb_iff in E1. split; [done|]. intros H.
        destruct (H i) as [Hi _]; [lia|].
        exfalso. apply (Qlt_not_le _ _ E1), Hi, H1.
      * apply Qltb_false_iff in E1.
        destruct (Z.ltb_spec i n2) as [H2|H2]; cbn [andb].
        -- destruct (Qabs (sampling_time - duration_at second_trajectory i)
                     >? epsilon) eqn:E2.
           ++ apply Qgtb_iff in E2. split; [done|]. intros H.
              destruct (H i) as [_ Hi]; [lia|].
              exfalso. apply (Qlt_not_le _ _ E2), Hi, H2.
           ++ apply Qltb_false_iff in E2. rewrite IH. split.
              ** intros H k Hk. destruct (decide (k = i)) as [->|Hne].
                 --- split; intros _; assumption.
                 --- apply H. lia.
              ** intros H k Hk. apply H. lia.
        -- rewrite IH. split.
           ++ intros H k Hk. destruct (decide (k = i)) as [->|Hne].
              ** split; [intros _; assumption|lia].
              ** apply H. lia.
           ++ intros H k Hk. apply H. lia.
    + destruct (Z.ltb_spec i n2) as [H2|H2]; cbn [andb].
      * destruct (Qabs (sampling_time - duration_at second_trajectory i)
                  >? epsilon) eqn:E2.
        -- apply Qgtb_iff in E2. split; [done|]. intros H.
           destruct (H i) as [_ Hi]; [lia|].
           exfalso. apply (Qlt_not_le _ _ E2), Hi, H2.
        -- apply Qltb_false_iff in E2. rewrite IH. split.
           ++ intros H k Hk. destruct (decide (k = i)) as [->|Hne].
              ** split; [lia|intros _; assumption].
              ** apply H. lia.
           ++ intros H k Hk. apply H. lia.
      * rewrite IH. split.
        -- intros H k Hk. destruct (decide (k = i)) as [->|Hne].
           ++ split; lia.
           ++ apply H. lia.
        -- intros H k Hk. apply H. lia.
Qed.

End ReconcilerProperties.

Lemma size_t_sub_one (count : nat) :
  (1 <= count)%nat -> (Z.of_nat count < 2 ^ 64)%Z ->
  size_t_sub (Z.of_nat count) 1 = (Z.of_nat count - 1)%Z.
Proof. intros H1 H2. unfold size_t_sub. apply Z.mod_small. lia. Qed.

(** X11.  Trajectories that are not empty.  With fewer than three way points in
    each of them the function fails and leaves the sampling time alone; otherwise the sampling time is the duration between the first two
    way points of the first trajectory if that one has three way points or
    more, else of the second, and the function succeeds iff every interval
    of both trajectories, the last one of each left out, lasts that long up
    to [epsilon]. *)
Lemma determineAndCheckSamplingTime_nonempty
    (first_trajectory second_trajectory : RobotTrajectory)
    (epsilon sampling_time : double) :
  let c1 := getWayPointCount first_trajectory in
  let c2 := getWayPointCount second_trajectory in
  let r := determineAndCheckSamplingTime first_trajectory second_trajectory
             epsilon sampling_time in
  (1 <= c1)%nat -> (1 <= c2)%nat ->
  (Z.of_nat c1 < 2 ^ 64)%Z -> (Z.of_nat c2 < 2 ^ 64)%Z ->
  ((c1 < 3)%nat /\ (c2 < 3)%nat -> r = (false, sampling_time))
  /\ ((3 <= c1)%nat \/ (3 <= c2)%nat ->
      r.2 = (if decide (3 <= c1)%nat
             then getWayPointDurationFromPrevious first_trajectory 1
             else getWayPointDurationFromPrevious second_trajectory 1)
      /\ (r.1 = true <->
          inner_intervals_ok first_trajectory epsilon r.2
          /\ inner_intervals_ok second_trajectory epsilon r.2)).
Proof.
  intros c1 c2 r Hc1 Hc2 Hb1 Hb2.
  unfold r, determineAndCheckSamplingTime. fold c1 c2.
  rewrite !size_t_sub_one by assumption.
  split.
  - intros [H1 H2].
    destruct (Z.ltb_spec (Z.of_nat c1 - 1) 2); [|lia].
    destruct (Z.ltb_spec (Z.of_nat c2 - 1) 2); [|lia]. reflexivity.
  - intros H.
    assert (Hif : (Z.of_nat c1 - 1 <? 2)%Z && (Z.of_nat c2 - 1 <? 2)%Z = false).
    { apply andb_false_iff.
      destruct H; [left|right]; apply Z.ltb_ge; lia. }
    rewrite Hif. cbn [fst snd].
    set (st := if (2 <=? Z.of_nat c1 - 1)%Z
               then getWayPointDurationFromPrevious first_trajectory 1
               else getWayPointDurationFromPrevious second_trajectory 1).
    assert (Hst : st = if decide (3 <= c1)%nat
                       then getWayPointDurationFromPrevious first_trajectory 1
                       else getWayPointDurationFromPrevious second_trajectory 1).
    { unfold st. destruct (Z.leb_spec 2 (Z.of_nat c1 - 1));
        destruct (decide (3 <= c1)%nat); (reflexivity || lia). }
    split; [exact Hst|].
    rewrite check_loop_true_iff. unfold interval_ok, inner_intervals_ok.
    fold c1 c2. split.
    + intros Hall. split; intros i Hi.
      * destruct (Hall (Z.of_nat i)) as [Hk _]; [lia|].
        unfold duration_at in Hk. rewrite Nat2Z.id in Hk. apply Hk. lia.
      * destruct (Hall (Z.of_nat i)) as [_ Hk]; [lia|].
        unfold duration_at in Hk. rewrite Nat2Z.id in Hk. apply Hk. lia.
    + intros [Hf Hs] k Hk. unfold duration_at. split; intros Hlt.
      * apply Hf. lia.
      * apply Hs. lia.
Qed.

Lemma determineAndCheckSamplingTime_nonempty_witness :
  determineAndCheckSamplingTime (Inputs.trajectory_through [0; 1])
    (Inputs.trajectory_through [0; 1]) (1 # 1024) 5 = (false, 5).
Proof.
  apply (proj1 (determineAndCheckSamplingTime_nonempty
                  (Inputs.trajectory_through [0; 1])
                  (Inputs.trajectory_through [0; 1]) (1 # 1024) 5
                  ltac:(cbn; lia) ltac:(cbn; lia)
                  ltac:(cbn; lia) ltac:(cbn; lia))).
  cbn. lia.
Defined.

(** Two trajectories sampled every 0.1 s; and one with an interval of
    0.3 s among intervals of 0.1 s. *)
Example determineAndCheckSamplingTime_equal_spacing :
  determineAndCheckSamplingTime
    (Inputs.trajectory_with_durations [0; 0.1; 0.1; 0.1; 0.05])
    (Inputs.trajectory_with_durations [0; 0.1; 0.1; 0.1])
    1e-6 0
  = (true, 0.1).
Proof. vm_compute. reflexivity. Qed.

Example determineAndCheckSamplingTime_unequal_spacing :
  determineAndCheckSamplingTime
    (Inputs.trajectory_with_durations [0; 0.1; 0.3; 0.1; 0.1])
    (Inputs.trajectory_with_durations [0; 0.1; 0.1; 0.1])
    1e-6 0
  = (false, 0.1).
Proof. vm_compute. reflexivity. Qed.

(** The result of the loop when no interval of either trajectory is off. *)
Lemma check_loop_all_ok (first_trajectory second_trajectory : RobotTrajectory)
    (epsilon sampling_time : double) (n1 n2 : Z) (todo : nat) (i : Z) :
  (forall k, Qabs (sampling_time - duration_at first_trajectory k) <= epsilon) ->
  (forall k, Qabs (sampling_time - duration_at second_trajectory k) <= epsilon) ->
  check_loop first_trajectory second_trajectory epsilon sampling_time
             n1 n2 todo i = true.
Proof.
  intros H1 H2. apply check_loop_true_iff. intros k _.
  split; intros _; [apply H1|apply H2].
Qed.

Lemma duration_at_empty (i : Z) : duration_at Inputs.empty_trajectory i = 0.
Proof.
  unfold duration_at, getWayPointDurationFromPrevious. cbn.
  destruct (Z.to_nat i); reflexivity.
Qed.

(** C9 at two trajectories without way points.  [n1] and [n2] wrap around to
    2^64 - 1, the function does not give up, takes 0 for the sampling time
    and, after 2^64 - 2 iterations in which no interval is looked at,
    returns true. *)
Theorem determineAndCheckSamplingTime_empty :
  size_t_sub (Z.of_nat (getWayPointCount Inputs.empty_trajectory)) 1
  = (2 ^ 64 - 1)%Z
  /\ determineAndCheckSamplingTime Inputs.empty_trajectory
       Inputs.empty_trajectory (1 # 1024) 5 = (true, 0).
Proof.
  split; [reflexivity|].
  unfold determineAndCheckSamplingTime. cbv zeta.
  generalize (Z.to_nat
    (Z.max (size_t_sub (Z.of_nat (getWayPointCount Inputs.empty_trajectory)) 1)
           (size_t_sub (Z.of_nat (getWayPointCount Inputs.empty_trajectory)) 1)
     - 1)).
  intros todo.
  change (size_t_sub (Z.of_nat (getWayPointCount Inputs.empty_trajectory)) 1)
    with 18446744073709551615%Z.
  change (getWayPointDurationFromPrevious Inputs.empty_trajectory 1) with 0.
  cbn [Z.ltb Z.leb Z.compare Pos.compare Pos.compare_cont andb].
  f_equal. apply check_loop_all_ok; intros k; rewrite duration_at_empty;
    discriminate.
Qed.

(** ** The time samples *)

Lemma Qnat_0 : Qnat 0 == 0.
Proof. reflexivity. Qed.

Lemma Qnat_S (n : nat) : Qnat (S n) == Qnat n + 1.
Proof.
  unfold Qnat. rewrite Nat2Z.inj_succ, <- Z.add_1_r, inject_Z_plus.
  reflexivity.
Qed.

Lemma Qnat_le (i j : nat) : (i <= j)%nat -> Qnat i <= Qnat j.
Proof. intros H. unfold Qnat. rewrite <- Zle_Qle. lia. Qed.

Lemma Qnat_lt (i j : nat) : (i < j)%nat -> Qnat i + 1 <= Qnat j.
Proof. intros H. rewrite <- Qnat_S. apply Qnat_le. lia. Qed.

Section TimeSamplesProperties.

Variables limit sampling_time : double.

(** What the loop has pushed when it ends: the [i]-th sample is
    [t_sample + i * sampling_time] and lies below [limit], and the value
    the loop stopped at does not. *)
Lemma time_samples_loop_spec (fuel : nat) (t_sample : double)
    (l : list double) :
  time_samples_loop fuel limit sampling_time t_sample = Some l ->
  (forall (i : nat) (x : double), l !! i = Some x ->
     x == t_sample + Qnat i * sampling_time /\ x < limit)
  /\ limit <= t_sample + Qnat (length l) * sampling_time
  /\ (t_sample < limit -> head l = Some t_sample)
  /\ (limit <= t_sample -> l = []).
Proof.
  revert t_sample l. induction fuel as [|fuel IH]; intros t l; cbn.
  - destruct (t <? limit) eqn:E; [discriminate|].
    intros [= <-]. apply Qltb_false_iff in E.
    split; [intros i x; rewrite lookup_nil; discriminate|].
    split; [cbn; rewrite Qnat_0; lra|].
    split; [intros H; lra|done].
  - destruct (t <? limit) eqn:E.
    + apply Qltb_iff in E.
      destruct (time_samples_loop fuel limit sampling_time
                  (t + sampling_time)) as [l'|] eqn:El'; [|discriminate].
      intros [= <-]. destruct (IH _ _ El') as (Hl & Hend & _).
      split; [|split; [|split]].
      * intros [|i] x; cbn.
        -- intros [= <-]. rewrite Qnat_0. split; [ring|exact E].
        -- intros Hx. destruct (Hl _ _ Hx) as [Heq Hlt].
           split; [|exact Hlt]. rewrite Heq, Qnat_S. ring.
      * cbn [length]. rewrite Qnat_S. lra.
      * reflexivity.
      * intros H. lra.
    + intros [= <-]. apply Qltb_false_iff in E.
      split; [intros i x; rewrite lookup_nil; discriminate|].
      split; [cbn; rewrite Qnat_0; lra|].
      split; [intros H; lra|done].
Qed.

(** With a positive sampling time the loop ends. *)
Lemma time_samples_loop_terminates (n : nat) (t_sample : double) :
  0 < sampling_time ->
  limit - t_sample <= Qnat n * sampling_time ->
  exists l, time_samples_loop n limit sampling_time t_sample = Some l.
Proof.
  intros Hs. revert t_sample. induction n as [|n IH]; intros t Hn; cbn.
  - rewrite Qnat_0 in Hn.
    destruct (t <? limit) eqn:E; [|eauto].
    apply Qltb_iff in E. lra.
  - destruct (t <? limit) eqn:E; [|eauto].
    destruct (IH (t + sampling_time)) as [l Hl].
    + rewrite Qnat_S in Hn. lra.
    + rewrite Hl. eauto.
Qed.

End TimeSamplesProperties.

Lemma Qnat_step_mult (a b s : Q) : a + 1 <= b -> 0 < s -> a * s + s <= b * s.
Proof.
  intros Hab Hs.
  assert (H : (a + 1) * s <= b * s) by (apply Qmult_le_compat_r; lra).
  lra.
Qed.

Lemma Qnat_ceiling (q : Q) : q <= Qnat (Z.to_nat (Qceiling q)).
Proof.
  apply Qle_trans with (inject_Z (Qceiling q)); [apply Qle_ceiling|].
  unfold Qnat. rewrite <- Zle_Qle. lia.
Qed.

(** With a positive sampling time the time samples are built within
    ceiling ((D - epsilon) / s) iterations. *)
Lemma make_time_samples_terminates (D s : double) :
  0 < s -> exists fuel ts, make_time_samples fuel D s = Some ts.
Proof.
  intros Hs. unfold make_time_samples.
  set (q := (D - TimeSamples.epsilon) / s).
  destruct (time_samples_loop_terminates (D - TimeSamples.epsilon) s
              (Z.to_nat (Qceiling q)) 0 Hs) as [l Hl].
  - assert (Hq : q * s == D - TimeSamples.epsilon).
    { unfold q. field. lra. }
    assert (H : q * s <= Qnat (Z.to_nat (Qceiling q)) * s).
    { apply Qmult_le_compat_r; [apply Qnat_ceiling|lra]. }
    lra.
  - exists (Z.to_nat (Qceiling q)), (l ++ [D]). rewrite Hl. reflexivity.
Qed.

(** C5, as the code has it.  For a positive sampling time [s] the loop that
    builds the time samples ends, and the samples it yields for the path
    duration [D] are strictly increasing (so no value occurs twice), end
    with [D] itself, and every gap but the last one equals [s]; they start
    at 0 when [D] exceeds [10e-6] and consist of [D] alone otherwise; the
    last gap is above [10e-6] and at most [s + 10e-6]. *)
Theorem make_time_samples_spec (D s : double) :
  0 < s ->
  (exists fuel ts, make_time_samples fuel D s = Some ts)
  /\ forall fuel ts, make_time_samples fuel D s = Some ts ->
       last ts = Some D
       /\ (forall (i j : nat) (x y : double), (i < j)%nat ->
             ts !! i = Some x -> ts !! j = Some y -> x < y)
       /\ (forall (i : nat) (x y : double), (S (S i) < length ts)%nat ->
             ts !! i = Some x -> ts !! S i = Some y -> y - x == s)
       /\ (1 # 100000 < D -> head ts = Some 0)
       /\ (D <= 1 # 100000 -> ts = [D])
       /\ (forall x : double, ts !! (length ts - 2)%nat = Some x ->
             (2 <= length ts)%nat ->
             1 # 100000 < D - x /\ D - x <= s + (1 # 100000)).
Proof.
  intros Hs. split.
  - exact (make_time_samples_terminates D s Hs).
  - unfold make_time_samples.
    change TimeSamples.epsilon with (10 # 1000000).
    intros fuel ts.
    destruct (time_samples_loop fuel (D - (10 # 1000000)) s 0) as [l|] eqn:El;
      [|discriminate].
    intros [= <-].
    destruct (time_samples_loop_spec _ _ _ _ _ El)
      as (Hl & Hend & Hhead & Hnil).
    split; [apply last_snoc|]. split; [|split; [|split; [|split]]].
    + intros i j x y Hij Hx Hy.
      apply lookup_app_Some in Hy as [Hy|[Hlen Hy]].
      * assert (Hi : (i < length l)%nat).
        { apply lookup_lt_Some in Hy. lia. }
        rewrite lookup_app_l in Hx by exact Hi.
        destruct (Hl _ _ Hx) as [Ex _]. destruct (Hl _ _ Hy) as [Ey _].
        pose proof (Qnat_step_mult _ _ s (Qnat_lt _ _ Hij) Hs). lra.
      * apply list_lookup_singleton_Some in Hy as [Hj <-].
        assert (Hi : (i < length l)%nat) by lia.
        rewrite lookup_app_l in Hx by exact Hi.
        destruct (Hl _ _ Hx) as [_ Hlt]. lra.
    + intros i x y Hlen Hx Hy.
      rewrite length_app in Hlen. cbn in Hlen.
      rewrite lookup_app_l in Hx by lia.
      rewrite lookup_app_l in Hy by lia.
      destruct (Hl _ _ Hx) as [Ex _]. destruct (Hl _ _ Hy) as [Ey _].
      rewrite Qnat_S in Ey. lra.
    + intros HD. destruct l as [|t l]; cbn.
      * assert (H : 0 < D - (10 # 1000000)) by lra.
        apply Hhead in H. discriminate.
      * assert (H : 0 < D - (10 # 1000000)) by lra.
        apply Hhead in H. exact H.
    + intros HD. rewrite Hnil by lra. reflexivity.
    + intros x Hx Hlen. rewrite length_app in Hx, Hlen. cbn in Hx, Hlen.
      destruct (length l) as [|n] eqn:En; [lia|].
      replace (S n + 1 - 2)%nat with n in Hx by lia.
      rewrite lookup_app_l in Hx by lia.
      destruct (Hl _ _ Hx) as [Ex Hlt].
      rewrite Qnat_S in Hend. lra.
Qed.

Lemma make_time_samples_spec_witness :
  exists fuel ts, make_time_samples fuel 2 1 = Some ts.
Proof.
  apply (proj1 (make_time_samples_spec 2 1 ltac:(reflexivity))).
Defined.

(** C5 on two inputs.  For the duration 2^-20 the only sample is the
    duration itself, so the samples do not start at 0; for the duration
    1 + 2^-18 and the sampling time 1/2 the samples are 0, 1/2 and the
    duration, so the last gap exceeds the sampling time. *)
Lemma make_time_samples_not_as_claimed :
  (0 < 1 # 1048576
   /\ make_time_samples 1 (1 # 1048576) 1 = Some [1 # 1048576])
  /\ (0 < 262145 # 262144
      /\ make_time_samples 2 (262145 # 262144) (1 # 2)
         = Some [0; 0 + (1 # 2); 262145 # 262144]
      /\ 1 # 2 < (262145 # 262144) - (0 + (1 # 2))).
Proof. repeat split; vm_compute; reflexivity. Qed.

(** ** The joint trajectory generators *)

Lemma keys_NoDup (m : gmap string double) : NoDup (keys m).
Proof.
  unfold keys, entries.
  rewrite (fmap_Permutation fst _ _ (merge_sort_Permutation key_le _)).
  apply NoDup_fst_map_to_list.
Qed.

Section FillPointKDL.

Variable inner : bool.
Variable d : double.
Variables ik_solution ik_solution_last : gmap string double.

Lemma fill_point_kdl_spec (names : list string) :
  forall (point : JointTrajectoryPoint) (jvl : gmap string double)
         (point' : JointTrajectoryPoint) (jvl' : gmap string double),
  NoDup names ->
  fill_point_kdl inner d ik_solution ik_solution_last names point jvl
  = Ret (point', jvl') ->
  time_from_start point' = time_from_start point
  /\ (forall name, name ∉ names -> jvl' !! name = jvl !! name)
  /\ exists qs vs accs,
       positions point' = positions point ++ qs
       /\ velocities point' = velocities point ++ vs
       /\ accelerations point' = accelerations point ++ accs
       /\ length qs = length names
       /\ length vs = length names
       /\ length accs = length names
       /\ forall (j : nat) (name : string), names !! j = Some name ->
            ik_solution !! name = qs !! j
            /\ jvl' !! name = vs !! j
            /\ (inner = false -> vs !! j = Some 0 /\ accs !! j = Some 0)
            /\ (inner = true ->
                exists q q_last v_last,
                  ik_solution !! name = Some q
                  /\ ik_solution_last !! name = Some q_last
                  /\ jvl !! name = Some v_last
                  /\ accs !! j = Some (kdl_acceleration q q_last v_last d)
                  /\ vs !! j = Some (kdl_velocity q q_last v_last d)).
Proof.
  induction names as [|name0 names IH]; intros point jvl point' jvl' Hnd.
  - cbn. intros [= <- <-]. split; [done|]. split; [done|].
    exists [], [], []. rewrite !app_nil_r.
    repeat split; try done; intros j name; rewrite lookup_nil; done.
  - apply NoDup_cons in Hnd as [Hnotin Hnd].
    cbn [fill_point_kdl].
    destruct (ik_solution !! name0) as [q|] eqn:Hq; [|discriminate].
    destruct inner eqn:Hinner.
    + destruct (ik_solution_last !! name0) as [q_last|] eqn:Hql;
        [|discriminate].
      destruct (jvl !! name0) as [v_last|] eqn:Hvl; [|discriminate].
      cbv zeta. fold (kdl_acceleration q q_last v_last d).
      fold (kdl_velocity q q_last v_last d).
      intros Hfill.
      destruct (IH _ _ _ _ Hnd Hfill)
        as (Ht & Hout & qs & vs & accs & Hp & Hv & Ha & Lq & Lv & La & Hj).
      split; [exact Ht|]. split.
      * intros name Hn. apply not_elem_of_cons in Hn as [Hne Hn].
        rewrite (Hout _ Hn). apply lookup_insert_ne. congruence.
      * exists (q :: qs), (kdl_velocity q q_last v_last d :: vs),
          (kdl_acceleration q q_last v_last d :: accs).
        cbn [push_joint positions velocities accelerations] in Hp, Hv, Ha.
        rewrite <- app_assoc in Hp, Hv, Ha.
        split; [exact Hp|]. split; [exact Hv|]. split; [exact Ha|].
        cbn [length]. split; [lia|]. split; [lia|]. split; [lia|].
        intros [|j] name; cbn.
        -- intros [= <-]. split; [exact Hq|]. split.
           ++ rewrite (Hout _ Hnotin). apply lookup_insert_eq.
           ++ split; [discriminate|]. intros _.
              exists q, q_last, v_last. done.
        -- intros Hname. destruct (Hj _ _ Hname) as (H1 & H2 & H3 & H4).
           split; [exact H1|]. split; [exact H2|].
           split; [discriminate|]. intros _.
           destruct (H4 eq_refl) as (q' & ql' & vl' & E1 & E2 & E3 & E4).
           exists q', ql', vl'. split; [exact E1|]. split; [exact E2|].
           split; [|exact E4].
           rewrite <- E3. symmetry. apply lookup_insert_ne.
           intros ->. apply Hnotin. eapply list_elem_of_lookup_2, Hname.
    + intros Hfill.
      destruct (IH _ _ _ _ Hnd Hfill)
        as (Ht & Hout & qs & vs & accs & Hp & Hv & Ha & Lq & Lv & La & Hj).
      split; [exact Ht|]. split.
      * intros name Hn. apply not_elem_of_cons in Hn as [Hne Hn].
        rewrite (Hout _ Hn). apply lookup_insert_ne. congruence.
      * exists (q :: qs), (0 :: vs), (0 :: accs).
        cbn [push_joint positions velocities accelerations] in Hp, Hv, Ha.
        rewrite <- app_assoc in Hp, Hv, Ha.
        split; [exact Hp|]. split; [exact Hv|]. split; [exact Ha|].
        cbn [length]. split; [lia|]. split; [lia|]. split; [lia|].
        intros [|j] name; cbn.
        -- intros [= <-]. split; [exact Hq|]. split.
           ++ rewrite (Hout _ Hnotin). apply lookup_insert_eq.
           ++ split; [done|discriminate].
        -- intros Hname. destruct (Hj _ _ Hname) as (H1 & H2 & H3 & H4).
           split; [exact H1|]. split; [exact H2|].
           split; [exact H3|discriminate].
Qed.

End FillPointKDL.

Lemma outputs_agree_throw (e : exn) (jt : JointTrajectory) (ec : Z) :
  outputs_agree (finish (Throw e) jt ec).
Proof. split; discriminate. Qed.

Lemma outputs_agree_no_ik (jt : JointTrajectory) :
  outputs_agree (finish (Ret false) (clear_points jt)
                        MoveItErrorCodes.NO_IK_SOLUTION).
Proof. split; [intros _; split; [done|left; done]|discriminate]. Qed.

Lemma outputs_agree_planning_failed (jt : JointTrajectory) :
  outputs_agree (finish (Ret false) (clear_points jt)
                        MoveItErrorCodes.PLANNING_FAILED).
Proof. split; [intros _; split; [done|right; done]|discriminate]. Qed.

Lemma outputs_agree_success (jt : JointTrajectory) :
  outputs_agree (finish (Ret true) jt MoveItErrorCodes.SUCCESS).
Proof. split; [discriminate|done]. Qed.

Create HintDb generator.

#[local] Hint Resolve outputs_agree_throw outputs_agree_no_ik
  outputs_agree_planning_failed outputs_agree_success : generator.

Section GeneratorOutputs.

Context {Frame PoseMsg Isometry3d : Type}.
Variable transformKDLToEigen : Frame -> Isometry3d.
Variable poseMsgToEigen : PoseMsg -> Isometry3d.
Variable default_timeout : double.
Variable robot_model : RobotModel Isometry3d.
Variable joint_limits : JointLimitsContainer.
Variables group_name link_name : string.
Variable check_self_collision : bool.

Lemma kdl_loop_outputs_agree (trajectory : KDLTrajectory Frame)
    (initial_joint_position : gmap string double) (sampling_time : double)
    (time_samples : list double) (todo : nat) :
  forall (time_iter : nat)
         (ik_solution_last ik_solution jvl : gmap string double)
         (jt : JointTrajectory) (ec : Z),
  outputs_agree
    (kdl_loop transformKDLToEigen default_timeout robot_model joint_limits
       trajectory group_name link_name initial_joint_position sampling_time
       check_self_collision time_samples todo time_iter
       ik_solution_last ik_solution jvl jt ec).
Proof.
  induction todo as [|todo IH]; intros; cbn [kdl_loop];
    [auto with generator|].
  repeat (match goal with
          | |- outputs_agree (if ?b then _ else _) => destruct b
          | |- outputs_agree (match ?o with _ => _ end) => destruct o
          end; auto with generator).
Qed.

Lemma cart_loop_outputs_agree
    (trajectory : list (CartesianTrajectoryPoint PoseMsg)) (todo : nat) :
  forall (i : nat) (ik_solution_last ik_solution jvl : gmap string double)
         (duration_last : double) (jt : JointTrajectory) (ec : Z),
  outputs_agree
    (cart_loop poseMsgToEigen default_timeout robot_model joint_limits
       trajectory group_name link_name check_self_collision todo i
       ik_solution_last ik_solution jvl duration_last jt ec).
Proof.
  induction todo as [|todo IH]; intros; cbn [cart_loop];
    [auto with generator|].
  repeat (match goal with
          | |- outputs_agree (if ?b then _ else _) => destruct b
          | |- outputs_agree (match ?o with _ => _ end) => destruct o
          end; auto with generator).
Qed.

(** C1.  Whenever either overload of [generateJointTrajectory] returns
    false, the point list of the output trajectory is empty and the error
    code is NO_IK_SOLUTION or PLANNING_FAILED; whenever it returns true,
    the error code is SUCCESS. *)
Theorem generateJointTrajectory_outputs_agree :
  (forall (fuel : nat) (trajectory : KDLTrajectory Frame)
          (initial_joint_position : gmap string double)
          (sampling_time : double) (jt : JointTrajectory) (ec : Z)
          (r : GenResult),
     generateJointTrajectory_KDL transformKDLToEigen default_timeout fuel
       robot_model joint_limits trajectory group_name link_name
       initial_joint_position sampling_time jt ec check_self_collision
     = Some r ->
     outputs_agree r)
  /\ (forall (trajectory : list (CartesianTrajectoryPoint PoseMsg))
             (initial_joint_position initial_joint_velocity
                : gmap string double)
             (jt : JointTrajectory) (ec : Z),
        outputs_agree
          (generateJointTrajectory_Cartesian poseMsgToEigen default_timeout
             robot_model joint_limits trajectory group_name link_name
             initial_joint_position initial_joint_velocity jt ec
             check_self_collision)).
Proof.
  split.
  - intros fuel trajectory initial sampling_time jt ec r.
    unfold generateJointTrajectory_KDL.
    destruct (make_time_samples fuel (Duration trajectory) sampling_time);
      [|discriminate].
    intros [= <-]. apply kdl_loop_outputs_agree.
  - intros. apply cart_loop_outputs_agree.
Qed.

End GeneratorOutputs.

(** *** The way points of the KDL overload *)

Section KDLLoop.

Context {Frame Isometry3d : Type}.
Variable transformKDLToEigen : Frame -> Isometry3d.
Variable default_timeout : double.
Variable robot_model : RobotModel Isometry3d.
Variable joint_limits : JointLimitsContainer.
Variable trajectory : KDLTrajectory Frame.
Variables group_name link_name : string.
Variable initial_joint_position : gmap string double.
Variable sampling_time : double.
Variable check_self_collision : bool.
Variable time_samples : list double.

Local Abbreviation names := (keys initial_joint_position).
Local Abbreviation loop :=
  (kdl_loop transformKDLToEigen default_timeout robot_model joint_limits
     trajectory group_name link_name initial_joint_position sampling_time
     check_self_collision time_samples).

(** One iteration that does not leave the function. *)
Lemma kdl_loop_S_true (todo time_iter : nat)
    (ik_solution_last ik_solution jvl : gmap string double)
    (jt : JointTrajectory) (ec : Z) :
  gen_ret (loop (S todo) time_iter ik_solution_last ik_solution jvl jt ec)
  = Ret true ->
  (time_iter < length time_samples)%nat ->
  exists (d : double) (ik_solution' jvl' : gmap string double)
         (point : JointTrajectoryPoint),
    let inner := negb (Nat.eqb time_iter 0)
                 && negb (Nat.eqb (S time_iter) (length time_samples)) in
    (inner = true -> d = sampling_time)
    /\ fill_point_kdl inner d ik_solution' ik_solution_last names
         (empty_point (ros_Duration (nth time_iter time_samples 0))) jvl
       = Ret (point, jvl')
    /\ loop (S todo) time_iter ik_solution_last ik_solution jvl jt ec
       = loop todo (S time_iter) ik_solution' ik_solution' jvl'
           (push_point (set_joint_names jt names) point) ec.
Proof.
  cbn [kdl_loop]. intros Hret Hlt.
  destruct (ik_ok _) eqn:Hik; cbn [negb] in *; [|discriminate Hret].
  match type of Hret with
  | context [fill_point_kdl _ ?d ?sol _ _ _ _] =>
    set (dd := d) in *; set (sol' := sol) in *
  end.
  destruct (if Nat.eqb time_iter 0 then Ret true else _) as [[|]|e];
    [|discriminate Hret|discriminate Hret].
  cbn [set_joint_names joint_names] in *.
  destruct (fill_point_kdl _ dd sol' ik_solution_last names _ jvl)
    as [[point jvl']|e] eqn:Hfill; [|discriminate Hret].
  exists dd, sol', jvl', point. cbv zeta.
  split; [|split; [exact Hfill|reflexivity]].
  intros Hinner. apply andb_true_iff in Hinner as [H0 Hl].
  apply negb_true_iff in H0, Hl. unfold dd. rewrite Hl. cbn [andb].
  destruct (Nat.eqb_spec (length time_samples) 1) as [H1|H1];
    [|reflexivity].
  apply Nat.eqb_neq in H0. lia.
Qed.

Lemma all_zero (vs : list double) :
  length vs = length names ->
  (forall (j : nat) (name : string), names !! j = Some name ->
     vs !! j = Some 0) ->
  Forall (fun v => v = 0) vs.
Proof.
  intros Hlen H. apply Forall_lookup. intros j x Hx.
  destruct (lookup_lt_is_Some_2 names j) as [name Hname].
  { rewrite <- Hlen. eapply lookup_lt_Some, Hx. }
  rewrite (H _ _ Hname) in Hx. congruence.
Qed.

(** What the loop pushes, from the sample [time_iter] on, when the
    function returns true. *)
Lemma kdl_loop_points (todo : nat) :
  forall (time_iter : nat)
         (ik_solution_last ik_solution jvl : gmap string double)
         (jt : JointTrajectory) (ec : Z),
  (time_iter + todo = length time_samples)%nat ->
  gen_ret (loop todo time_iter ik_solution_last ik_solution jvl jt ec)
  = Ret true ->
  ((0 < time_iter)%nat ->
   exists p_prev, last (points jt) = Some p_prev
                  /\ linked names ik_solution_last jvl p_prev) ->
  exists new : list JointTrajectoryPoint,
    points (gen_trajectory
              (loop todo time_iter ik_solution_last ik_solution jvl jt ec))
    = points jt ++ new
    /\ length new = todo
    /\ forall (k : nat) (p : JointTrajectoryPoint), new !! k = Some p ->
         time_from_start p = ros_Duration (nth (time_iter + k) time_samples 0)
         /\ length (positions p) = length names
         /\ length (velocities p) = length names
         /\ length (accelerations p) = length names
         /\ ((time_iter + k = 0)%nat
             \/ S (time_iter + k) = length time_samples -> at_rest p)
         /\ ((0 < time_iter + k)%nat ->
             (S (time_iter + k) < length time_samples)%nat ->
             forall p_prev,
               (points jt ++ new) !! (length (points jt) + k - 1)%nat
               = Some p_prev ->
               kdl_inner_step sampling_time p_prev p).
Proof.
  induction todo as [|todo IH];
    intros i ik_last ik_sol jvl jt ec Hlen Hret Hprev.
  - exists []. rewrite app_nil_r. split; [reflexivity|].
    split; [reflexivity|]. intros k p. rewrite lookup_nil. discriminate.
  - destruct (kdl_loop_S_true _ _ _ _ _ _ _ Hret ltac:(lia))
      as (d & sol' & jvl' & point & Hd & Hfill & Heq).
    cbv zeta in Hd, Hfill. rewrite Heq in Hret |- *.
    destruct (fill_point_kdl_spec _ _ _ _ _ _ _ _ _
                (keys_NoDup initial_joint_position) Hfill)
      as (Ht & _ & qs & vs & accs & Hp & Hv & Ha & Lq & Lv & La & Hj).
    cbn [empty_point positions velocities accelerations time_from_start
         app] in Ht, Hp, Hv, Ha.
    assert (Hlinked : linked names sol' jvl' point).
    { split; [rewrite Hp; exact Lq|]. split; [rewrite Hv; exact Lv|].
      intros j name Hname. rewrite Hp, Hv.
      destruct (Hj _ _ Hname) as (H1 & H2 & _). done. }
    destruct (IH (S i) sol' sol' jvl'
                (push_point (set_joint_names jt names) point) ec)
      as (new' & Hpts & Hnew & Hall).
    { lia. }
    { exact Hret. }
    { intros _. exists point. split; [|exact Hlinked].
      cbn [push_point points set_joint_names]. apply last_snoc. }
    cbn [push_point points set_joint_names] in Hpts, Hall.
    rewrite <- app_assoc in Hpts, Hall. cbn [app] in Hpts, Hall.
    exists (point :: new'). split; [exact Hpts|].
    split; [cbn; lia|].
    intros [|k] p; cbn [lookup list_lookup].
    + intros [= <-]. rewrite Nat.add_0_r.
      split; [exact Ht|]. split; [rewrite Hp; exact Lq|].
      split; [rewrite Hv; exact Lv|]. split; [rewrite Ha; exact La|].
      split.
      * intros Hedge.
        assert (Hinner : negb (Nat.eqb i 0)
                         && negb (Nat.eqb (S i) (length time_samples))
                         = false).
        { apply andb_false_iff.
          destruct Hedge as [H0|H1]; [left|right];
            apply negb_false_iff, Nat.eqb_eq; assumption. }
        rewrite Hinner in Hj.
        split; [rewrite Hv|rewrite Ha]; apply all_zero; try assumption;
          intros j name Hname;
          destruct (Hj _ _ Hname) as (_ & _ & H3 & _);
          destruct (H3 eq_refl); assumption.
      * intros H0 H1 p_prev Hpp.
        assert (Hinner : negb (Nat.eqb i 0)
                         && negb (Nat.eqb (S i) (length time_samples))
                         = true).
        { apply andb_true_iff.
          split; apply negb_true_iff, Nat.eqb_neq; lia. }
        rewrite Hinner in Hj. rewrite (Hd Hinner) in Hj.
        destruct (Hprev H0) as (p0 & Hlast & Hl0 & Hl1 & Hl2).
        assert (p_prev = p0) as ->.
        { rewrite last_lookup in Hlast.
          assert (Hne : (0 < length (points jt))%nat).
          { destruct (points jt); [discriminate Hlast|cbn; lia]. }
          rewrite lookup_app_l in Hpp by lia.
          replace (length (points jt) + 0 - 1)%nat
            with (pred (length (points jt))) in Hpp by lia.
          congruence. }
        intros j q q_prev v_prev Hq Hqp Hvp.
        destruct (lookup_lt_is_Some_2 names j) as [name Hname].
        { rewrite <- Lq, <- Hp. eapply lookup_lt_Some, Hq. }
        destruct (Hj _ _ Hname) as (H1' & _ & _ & H4).
        destruct (H4 eq_refl) as (q' & ql' & vl' & E1 & E2 & E3 & E4 & E5).
        destruct (Hl2 _ _ Hname) as [L1 L2].
        rewrite Hp in Hq.
        assert (q' = q) as -> by congruence.
        assert (ql' = q_prev) as -> by congruence.
        assert (vl' = v_prev) as -> by congruence.
        rewrite Ha, Hv. done.
    + intros Hk. destruct (Hall _ _ Hk) as (T & P & V & A & R & I).
      replace (i + S k)%nat with (S i + k)%nat by lia.
      split; [exact T|]. split; [exact P|]. split; [exact V|].
      split; [exact A|]. split; [exact R|].
      intros H0 H1 p_prev Hpp. apply (I H0 H1).
      rewrite length_app. cbn [length].
      replace (length (points jt) + 1 + k - 1)%nat
        with (length (points jt) + S k - 1)%nat by lia.
      exact Hpp.
Qed.

End KDLLoop.

(** *** The way points of the CartesianTrajectory overload *)

Section FillPointCart.

Variables d_last d_current : double.
Variables ik_solution ik_solution_last : gmap string double.

Lemma fill_point_cart_spec (names : list string) :
  forall (point : JointTrajectoryPoint) (jvl : gmap string double)
         (point' : JointTrajectoryPoint) (jvl' : gmap string double),
  NoDup names ->
  fill_point_cart d_last d_current ik_solution ik_solution_last names
                  point jvl
  = Ret (point', jvl') ->
  time_from_start point' = time_from_start point
  /\ (forall name, name ∉ names -> jvl' !! name = jvl !! name)
  /\ exists qs vs accs,
       positions point' = positions point ++ qs
       /\ velocities point' = velocities point ++ vs
       /\ accelerations point' = accelerations point ++ accs
       /\ length qs = length names
       /\ length vs = length names
       /\ length accs = length names
       /\ forall (j : nat) (name : string), names !! j = Some name ->
            ik_solution !! name = qs !! j
            /\ jvl' !! name = vs !! j
            /\ exists q q_last v_last,
                 ik_solution !! name = Some q
                 /\ ik_solution_last !! name = Some q_last
                 /\ jvl !! name = Some v_last
                 /\ vs !! j = Some (cart_velocity q q_last d_current)
                 /\ accs !! j
                    = Some (cart_acceleration
                              (cart_velocity q q_last d_current) v_last
                              d_last d_current).
Proof.
  induction names as [|name0 names IH]; intros point jvl point' jvl' Hnd.
  - cbn. intros [= <- <-]. split; [done|]. split; [done|].
    exists [], [], []. rewrite !app_nil_r.
    repeat split; try done; intros j name; rewrite lookup_nil; done.
  - apply NoDup_cons in Hnd as [Hnotin Hnd].
    cbn [fill_point_cart].
    destruct (ik_solution !! name0) as [q|] eqn:Hq; [|discriminate].
    destruct (ik_solution_last !! name0) as [q_last|] eqn:Hql;
      [|discriminate].
    destruct (jvl !! name0) as [v_last|] eqn:Hvl; [|discriminate].
    cbv zeta. fold (cart_velocity q q_last d_current).
    fold (cart_acceleration (cart_velocity q q_last d_current) v_last
            d_last d_current).
    intros Hfill.
    destruct (IH _ _ _ _ Hnd Hfill)
      as (Ht & Hout & qs & vs & accs & Hp & Hv & Ha & Lq & Lv & La & Hj).
    split; [exact Ht|]. split.
    + intros name Hn. apply not_elem_of_cons in Hn as [Hne Hn].
      rewrite (Hout _ Hn). apply lookup_insert_ne. congruence.
    + exists (q :: qs), (cart_velocity q q_last d_current :: vs),
        (cart_acceleration (cart_velocity q q_last d_current) v_last
           d_last d_current :: accs).
      cbn [push_joint positions velocities accelerations] in Hp, Hv, Ha.
      rewrite <- app_assoc in Hp, Hv, Ha.
      split; [exact Hp|]. split; [exact Hv|]. split; [exact Ha|].
      cbn [length]. split; [lia|]. split; [lia|]. split; [lia|].
      intros [|j] name; cbn.
      * intros [= <-]. split; [exact Hq|]. split.
        -- rewrite (Hout _ Hnotin). apply lookup_insert_eq.
        -- exists q, q_last, v_last. done.
      * intros Hname. destruct (Hj _ _ Hname) as (H1 & H2 & H4).
        split; [exact H1|]. split; [exact H2|].
        destruct H4 as (q' & ql' & vl' & E1 & E2 & E3 & E4).
        exists q', ql', vl'. split; [exact E1|]. split; [exact E2|].
        split; [|exact E4].
        rewrite <- E3. symmetry. apply lookup_insert_ne.
        intros ->. apply Hnotin. eapply list_elem_of_lookup_2, Hname.
Qed.

End FillPointCart.

Section CartLoop.

Context {PoseMsg Isometry3d : Type}.
Variable poseMsgToEigen : PoseMsg -> Isometry3d.
Variable default_timeout : double.
Variable robot_model : RobotModel Isometry3d.
Variable joint_limits : JointLimitsContainer.
Variable trajectory : list (CartesianTrajectoryPoint PoseMsg).
Variables group_name link_name : string.
Variable check_self_collision : bool.

Local Abbreviation loop :=
  (cart_loop poseMsgToEigen default_timeout robot_model joint_limits
     trajectory group_name link_name check_self_collision).

(** One iteration that does not leave the function. *)
Lemma cart_loop_S_true (todo i : nat)
    (ik_solution_last ik_solution jvl : gmap string double)
    (duration_last : double) (jt : JointTrajectory) (ec : Z) :
  gen_ret (loop (S todo) i ik_solution_last ik_solution jvl duration_last
                jt ec)
  = Ret true ->
  exists (ik_solution' jvl' : gmap string double)
         (point : JointTrajectoryPoint),
    let d_last := match i with
                  | O => sample_duration trajectory 0
                  | S _ => duration_last
                  end in
    fill_point_cart d_last (sample_duration trajectory i) ik_solution'
      ik_solution_last (joint_names jt)
      (empty_point (sample_time trajectory i)) jvl
    = Ret (point, jvl')
    /\ loop (S todo) i ik_solution_last ik_solution jvl duration_last jt ec
       = loop todo (S i) ik_solution' ik_solution' jvl'
           (sample_duration trajectory i) (push_point jt point) ec
    /\ 1 # 100000 < sample_duration trajectory i.
Proof.
  cbn [cart_loop]. intros Hret.
  destruct (trajectory !! i) as [point_i|] eqn:Hi; [|discriminate Hret].
  destruct (ik_ok _) eqn:Hik; cbn [negb] in *; [|discriminate Hret].
  match type of Hret with
  | context [verifySampleJointLimits _ _ ?sol _ _ _] =>
    set (sol' := sol) in *
  end.
  assert (Ht : sample_time trajectory i = ctp_time_from_start point_i).
  { unfold sample_time. rewrite Hi. reflexivity. }
  destruct i as [|i]; cbn [Nat.eqb] in *.
  - assert (Hhead : head trajectory = Some point_i).
    { rewrite head_lookup. exact Hi. }
    rewrite Hhead in Hret |- *.
    destruct (verifySampleJointLimits _ _ _ _ _ _) as [[|]|e] eqn:Hverify;
      [|discriminate Hret|discriminate Hret].
    apply verifySampleJointLimits_true_duration in Hverify.
    cbn [sample_duration]. rewrite Ht.
    destruct (fill_point_cart _ _ sol' ik_solution_last _ _ jvl)
      as [[point jvl']|e] eqn:Hfill; [|discriminate Hret].
    exists sol', jvl', point. done.
  - replace (S i - 1)%nat with i in * by lia.
    destruct (trajectory !! i) as [point_before|] eqn:Hb;
      [|discriminate Hret].
    destruct (verifySampleJointLimits _ _ _ _ _ _) as [[|]|e] eqn:Hverify;
      [|discriminate Hret|discriminate Hret].
    apply verifySampleJointLimits_true_duration in Hverify.
    assert (Hd : sample_duration trajectory (S i)
                 = ctp_time_from_start point_i
                   - ctp_time_from_start point_before).
    { cbn [sample_duration]. unfold sample_time. rewrite Hi, Hb.
      reflexivity. }
    rewrite Hd, Ht.
    destruct (fill_point_cart _ _ sol' ik_solution_last _ _ jvl)
      as [[point jvl']|e] eqn:Hfill; [|discriminate Hret].
    exists sol', jvl', point. done.
Qed.

(** What the loop pushes, from the point [i] on, when the function
    returns true. *)
Lemma cart_loop_points (names : list string) (todo : nat) :
  NoDup names ->
  forall (i : nat) (ik_solution_last ik_solution jvl : gmap string double)
         (duration_last : double) (jt : JointTrajectory) (ec : Z),
  joint_names jt = names ->
  gen_ret (loop todo i ik_solution_last ik_solution jvl duration_last jt ec)
  = Ret true ->
  ((0 < i)%nat ->
   duration_last = sample_duration trajectory (i - 1)
   /\ exists p_prev, last (points jt) = Some p_prev
                     /\ linked names ik_solution_last jvl p_prev) ->
  exists new : list JointTrajectoryPoint,
    points (gen_trajectory
              (loop todo i ik_solution_last ik_solution jvl duration_last
                    jt ec))
    = points jt ++ new
    /\ length new = todo
    /\ forall (k : nat) (p : JointTrajectoryPoint), new !! k = Some p ->
         time_from_start p = sample_time trajectory (i + k)
         /\ length (positions p) = length names
         /\ length (velocities p) = length names
         /\ length (accelerations p) = length names
         /\ 1 # 100000 < sample_duration trajectory (i + k)
         /\ ((0 < i + k)%nat ->
             forall p_prev,
               (points jt ++ new) !! (length (points jt) + k - 1)%nat
               = Some p_prev ->
               cart_step (sample_duration trajectory (i + k - 1))
                         (sample_duration trajectory (i + k)) p_prev p).
Proof.
  intros Hnd. induction todo as [|todo IH];
    intros i ik_last ik_sol jvl dl jt ec Hnames Hret Hprev.
  - exists []. rewrite app_nil_r. split; [reflexivity|].
    split; [reflexivity|]. intros k p. rewrite lookup_nil. discriminate.
  - destruct (cart_loop_S_true _ _ _ _ _ _ _ _ Hret)
      as (sol' & jvl' & point & Hfill & Heq & Hguard).
    cbv zeta in Hfill. rewrite Heq in Hret |- *. rewrite Hnames in Hfill.
    destruct (fill_point_cart_spec _ _ _ _ _ _ _ _ _ Hnd Hfill)
      as (Ht & _ & qs & vs & accs & Hp & Hv & Ha & Lq & Lv & La & Hj).
    cbn [empty_point positions velocities accelerations time_from_start
         app] in Ht, Hp, Hv, Ha.
    assert (Hlinked : linked names sol' jvl' point).
    { split; [rewrite Hp; exact Lq|]. split; [rewrite Hv; exact Lv|].
      intros j name Hname. rewrite Hp, Hv.
      destruct (Hj _ _ Hname) as (H1 & H2 & _). done. }
    destruct (IH (S i) sol' sol' jvl' (sample_duration trajectory i)
                (push_point jt point) ec)
      as (new' & Hpts & Hnew & Hall).
    { exact Hnames. }
    { exact Hret. }
    { intros _. replace (S i - 1)%nat with i by lia.
      split; [reflexivity|]. exists point. split; [|exact Hlinked].
      cbn [push_point points]. apply last_snoc. }
    cbn [push_point points] in Hpts, Hall.
    rewrite <- app_assoc in Hpts, Hall. cbn [app] in Hpts, Hall.
    exists (point :: new'). split; [exact Hpts|].
    split; [cbn; lia|].
    intros [|k] p; cbn [lookup list_lookup].
    + intros [= <-]. rewrite Nat.add_0_r.
      split; [exact Ht|]. split; [rewrite Hp; exact Lq|].
      split; [rewrite Hv; exact Lv|]. split; [rewrite Ha; exact La|].
      split; [exact Hguard|].
      intros H0 p_prev Hpp.
      destruct (Hprev H0) as (Hdl & p0 & Hlast & Hl0 & Hl1 & Hl2).
      destruct i as [|i]; [lia|]. rewrite <- Hdl.
      assert (p_prev = p0) as ->.
      { rewrite last_lookup in Hlast.
        assert (Hne : (0 < length (points jt))%nat).
        { destruct (points jt); [discriminate Hlast|cbn; lia]. }
        rewrite lookup_app_l in Hpp by lia.
        replace (length (points jt) + 0 - 1)%nat
          with (pred (length (points jt))) in Hpp by lia.
        congruence. }
      intros j q q_prev v_prev Hq Hqp Hvp.
      destruct (lookup_lt_is_Some_2 names j) as [name Hname].
      { rewrite <- Lq, <- Hp. eapply lookup_lt_Some, Hq. }
      destruct (Hj _ _ Hname) as (H1' & _ & H4).
      destruct H4 as (q' & ql' & vl' & E1 & E2 & E3 & E4 & E5).
      destruct (Hl2 _ _ Hname) as [L1 L2].
      rewrite Hp in Hq.
      assert (q' = q) as -> by congruence.
      assert (ql' = q_prev) as -> by congruence.
      assert (vl' = v_prev) as -> by congruence.
      rewrite Ha, Hv. done.
    + intros Hk. destruct (Hall _ _ Hk) as (T & P & V & A & G & I).
      replace (i + S k)%nat with (S i + k)%nat by lia.
      split; [exact T|]. split; [exact P|]. split; [exact V|].
      split; [exact A|]. split; [exact G|].
      intros H0 p_prev Hpp. apply (I H0).
      rewrite length_app. cbn [length].
      replace (length (points jt) + 1 + k - 1)%nat
        with (length (points jt) + S k - 1)%nat by lia.
      exact Hpp.
Qed.

End CartLoop.

(** *** The trajectory of the KDL overload *)

Lemma make_time_samples_length (fuel : nat) (D s : double)
    (ts : list double) :
  make_time_samples fuel D s = Some ts -> (1 <= length ts)%nat.
Proof.
  unfold make_time_samples.
  destruct (time_samples_loop _ _ _ _); [|discriminate].
  intros [= <-]. rewrite length_app. cbn. lia.
Qed.

(** Two consecutive time samples, the last one apart, are one sampling
    time apart. *)
Lemma make_time_samples_gap (fuel : nat) (D s : double) (ts : list double)
    (k : nat) :
  make_time_samples fuel D s = Some ts ->
  (S (S k) < length ts)%nat ->
  nth (S k) ts 0 - nth k ts 0 == s.
Proof.
  unfold make_time_samples.
  destruct (time_samples_loop _ _ _ _) as [l|] eqn:El; [|discriminate].
  intros [= <-]. rewrite length_app. cbn [length]. intros Hk.
  destruct (time_samples_loop_spec _ _ _ _ _ El) as (Hl & _).
  rewrite !nth_lookup, !lookup_app_l by lia.
  destruct (lookup_lt_is_Some_2 l k ltac:(lia)) as [x Hx].
  destruct (lookup_lt_is_Some_2 l (S k) ltac:(lia)) as [y Hy].
  rewrite Hx, Hy. change (y - x == s).
  destruct (Hl _ _ Hx) as [Ex _]. destruct (Hl _ _ Hy) as [Ey _].
  rewrite Qnat_S in Ey. lra.
Qed.

(** The loop over the time samples runs at least once and ends only for a
    positive sampling time. *)
Lemma make_time_samples_positive (fuel : nat) (D s : double)
    (ts : list double) :
  make_time_samples fuel D s = Some ts -> (2 <= length ts)%nat -> 0 < s.
Proof.
  unfold make_time_samples.
  destruct (time_samples_loop _ _ _ _) as [l|] eqn:El; [|discriminate].
  intros [= <-]. rewrite length_app. cbn [length]. intros Hk.
  destruct (time_samples_loop_spec _ _ _ _ _ El) as (Hl & Hend & _).
  destruct (lookup_lt_is_Some_2 l 0 ltac:(lia)) as [x Hx].
  destruct (Hl _ _ Hx) as [Ex Hlim].
  pose proof (Qnat_lt 0 (length l) ltac:(lia)) as Hn.
  change (Qnat 0) with 0 in Ex, Hn.
  set (limit := D - TimeSamples.epsilon) in *.
  destruct (Qlt_le_dec 0 s) as [Hs|Hs]; [exact Hs|exfalso].
  assert (Hm : Qnat (length l) * s <= 0) by nra.
  lra.
Qed.

Section KDLTrajectoryProperties.

Context {Frame Isometry3d : Type}.
Variable transformKDLToEigen : Frame -> Isometry3d.
Variable default_timeout : double.
Variable robot_model : RobotModel Isometry3d.
Variable joint_limits : JointLimitsContainer.
Variable trajectory : KDLTrajectory Frame.
Variables group_name link_name : string.
Variable initial_joint_position : gmap string double.
Variable sampling_time : double.
Variable check_self_collision : bool.

(** X17.  With a positive sampling time the KDL overload comes to an end: enough
    fuel gives a result. *)
Lemma generateJointTrajectory_KDL_returns (jt : JointTrajectory) (ec : Z) :
  0 < sampling_time ->
  exists (fuel : nat) (r : GenResult),
    generateJointTrajectory_KDL transformKDLToEigen default_timeout fuel
      robot_model joint_limits trajectory group_name link_name
      initial_joint_position sampling_time jt ec check_self_collision
    = Some r.
Proof.
  intros Hs.
  destruct (make_time_samples_terminates (Duration trajectory) sampling_time
              Hs) as (fuel & ts & Hts).
  exists fuel. unfold generateJointTrajectory_KDL. rewrite Hts. eauto.
Qed.

(** The points a successful call adds to the output trajectory. *)
Lemma generateJointTrajectory_KDL_points (fuel : nat)
    (jt : JointTrajectory) (ec : Z) (r : GenResult) :
  generateJointTrajectory_KDL transformKDLToEigen default_timeout fuel
    robot_model joint_limits trajectory group_name link_name
    initial_joint_position sampling_time jt ec check_self_collision
  = Some r ->
  gen_ret r = Ret true ->
  exists (ts : list double) (new : list JointTrajectoryPoint),
    make_time_samples fuel (Duration trajectory) sampling_time = Some ts
    /\ points (gen_trajectory r) = points jt ++ new
    /\ length new = length ts
    /\ forall (k : nat) (p : JointTrajectoryPoint), new !! k = Some p ->
         time_from_start p = ros_Duration (nth k ts 0)
         /\ length (positions p) = length (keys initial_joint_position)
         /\ length (velocities p) = length (keys initial_joint_position)
         /\ length (accelerations p) = length (keys initial_joint_position)
         /\ (k = O \/ S k = length ts -> at_rest p)
         /\ ((0 < k)%nat -> (S k < length ts)%nat ->
             forall p_prev, new !! (k - 1)%nat = Some p_prev ->
               kdl_inner_step sampling_time p_prev p).
Proof.
  unfold generateJointTrajectory_KDL.
  destruct (make_time_samples fuel (Duration trajectory) sampling_time)
    as [ts|] eqn:Hts; [|discriminate].
  intros [= <-] Hret.
  destruct (kdl_loop_points transformKDLToEigen default_timeout robot_model
              joint_limits trajectory group_name link_name
              initial_joint_position sampling_time check_self_collision ts
              (length ts) 0 _ _ _ _ _ eq_refl Hret)
    as (new & Hpts & Hlen & Hall); [lia|].
  exists ts, new. split; [reflexivity|]. split; [exact Hpts|].
  split; [exact Hlen|].
  intros k p Hk. destruct (Hall _ _ Hk) as (T & P & V & A & R & I).
  cbn [Nat.add] in *.
  split; [exact T|]. split; [exact P|]. split; [exact V|].
  split; [exact A|]. split; [exact R|].
  intros H0 H1 p_prev Hpp. apply (I H0 H1).
  rewrite lookup_app_r by lia. rewrite <- Hpp. f_equal. lia.
Qed.

(** C2, as the code has it: the KDL overload.  The way points a
    successful call adds to the output trajectory are at least one; the
    first and the last of them have velocity 0 and acceleration 0 for
    every joint. *)
Theorem generateJointTrajectory_KDL_at_rest (fuel : nat)
    (jt : JointTrajectory) (ec : Z) (r : GenResult) :
  generateJointTrajectory_KDL transformKDLToEigen default_timeout fuel
    robot_model joint_limits trajectory group_name link_name
    initial_joint_position sampling_time jt ec check_self_collision
  = Some r ->
  gen_ret r = Ret true ->
  exists (new : list JointTrajectoryPoint)
         (first final : JointTrajectoryPoint),
    points (gen_trajectory r) = points jt ++ new
    /\ head new = Some first /\ last new = Some final
    /\ at_rest first /\ at_rest final
    /\ length (velocities first) = length (keys initial_joint_position)
    /\ length (accelerations first) = length (keys initial_joint_position)
    /\ length (velocities final) = length (keys initial_joint_position)
    /\ length (accelerations final) = length (keys initial_joint_position).
Proof.
  intros Hgen Hret.
  destruct (generateJointTrajectory_KDL_points _ _ _ _ Hgen Hret)
    as (ts & new & Hts & Hpts & Hlen & Hall).
  pose proof (make_time_samples_length _ _ _ _ Hts) as Hts1.
  destruct (lookup_lt_is_Some_2 new 0 ltac:(lia)) as [first Hfirst].
  destruct (lookup_lt_is_Some_2 new (length new - 1) ltac:(lia))
    as [final Hfinal].
  exists new, first, final.
  destruct (Hall _ _ Hfirst) as (_ & _ & V & A & R & _).
  destruct (Hall _ _ Hfinal) as (_ & _ & V' & A' & R' & _).
  split; [exact Hpts|]. split; [rewrite head_lookup; exact Hfirst|].
  split.
  { rewrite last_lookup. rewrite <- Hfinal. f_equal. lia. }
  split; [apply R; left; reflexivity|].
  split; [apply R'; right; lia|]. done.
Qed.

(** For every inner way point a successful call adds and for every joint,
    the recorded acceleration and velocity are [kdl_acceleration] and
    [kdl_velocity] of the two positions and the previous velocity, over the
    sampling time; the sampling time is positive and is the difference of
    the two time samples the time stamps are made from. *)
Lemma generateJointTrajectory_KDL_inner (fuel : nat)
    (jt : JointTrajectory) (ec : Z) (r : GenResult) :
  generateJointTrajectory_KDL transformKDLToEigen default_timeout fuel
    robot_model joint_limits trajectory group_name link_name
    initial_joint_position sampling_time jt ec check_self_collision
  = Some r ->
  gen_ret r = Ret true ->
  exists new : list JointTrajectoryPoint,
    points (gen_trajectory r) = points jt ++ new
    /\ forall (k : nat) (p_prev p : JointTrajectoryPoint),
         (S (S k) < length new)%nat ->
         new !! k = Some p_prev -> new !! S k = Some p ->
         kdl_inner_step sampling_time p_prev p
         /\ 0 < sampling_time
         /\ exists t_prev t : double,
              time_from_start p_prev = ros_Duration t_prev
              /\ time_from_start p = ros_Duration t
              /\ t - t_prev == sampling_time.
Proof.
  intros Hgen Hret.
  destruct (generateJointTrajectory_KDL_points _ _ _ _ Hgen Hret)
    as (ts & new & Hts & Hpts & Hlen & Hall).
  exists new. split; [exact Hpts|].
  intros k p_prev p Hk Hprev Hp.
  destruct (Hall _ _ Hp) as (T & _ & _ & _ & _ & I).
  destruct (Hall _ _ Hprev) as (T' & _).
  split; [|split].
  - apply I; [lia|lia|]. rewrite <- Hprev. f_equal. lia.
  - apply (make_time_samples_positive _ _ _ _ Hts). lia.
  - exists (nth k ts 0), (nth (S k) ts 0).
    split; [exact T'|]. split; [exact T|].
    apply (make_time_samples_gap _ _ _ _ _ Hts). lia.
Qed.

End KDLTrajectoryProperties.

(** *** The trajectory of the CartesianTrajectory overload *)

Section CartesianTrajectoryProperties.

Context {PoseMsg Isometry3d : Type}.
Variable poseMsgToEigen : PoseMsg -> Isometry3d.
Variable default_timeout : double.
Variable robot_model : RobotModel Isometry3d.
Variable joint_limits : JointLimitsContainer.
Variable trajectory : list (CartesianTrajectoryPoint PoseMsg).
Variables group_name link_name : string.
Variables initial_joint_position initial_joint_velocity : gmap string double.
Variable check_self_collision : bool.

(** Every way point after the first one that a successful call adds
    records, for every joint, the velocity dposition / dtime and the
    acceleration 2 (velocity - previous_velocity) / (dtime + previous
    dtime), dtime being the difference of the two time stamps; both
    durations are above [10e-6]. *)
Lemma generateJointTrajectory_Cartesian_steps
    (jt : JointTrajectory) (ec : Z) :
  let r := generateJointTrajectory_Cartesian poseMsgToEigen default_timeout
             robot_model joint_limits trajectory group_name link_name
             initial_joint_position initial_joint_velocity jt ec
             check_self_collision in
  gen_ret r = Ret true ->
  exists new : list JointTrajectoryPoint,
    points (gen_trajectory r) = points jt ++ new
    /\ length new = length trajectory
    /\ forall (k : nat) (p_prev p : JointTrajectoryPoint),
         new !! k = Some p_prev -> new !! S k = Some p ->
         cart_step (sample_duration trajectory k)
                   (sample_duration trajectory (S k)) p_prev p
         /\ time_from_start p - time_from_start p_prev
            = sample_duration trajectory (S k)
         /\ 1 # 100000 < sample_duration trajectory k
         /\ 1 # 100000 < sample_duration trajectory (S k).
Proof.
  intros r Hret. unfold r, generateJointTrajectory_Cartesian in *.
  destruct (cart_loop_points poseMsgToEigen default_timeout robot_model
              joint_limits trajectory group_name link_name
              check_self_collision (keys initial_joint_position)
              (length trajectory) (keys_NoDup _) 0 initial_joint_position
              ∅ initial_joint_velocity 0
              (set_joint_names jt (keys initial_joint_position)) ec
              eq_refl Hret)
    as (new & Hpts & Hlen & Hall); [lia|].
  exists new. split; [exact Hpts|]. split; [exact Hlen|].
  intros k p_prev p Hprev Hp.
  destruct (Hall _ _ Hp) as (T & _ & _ & _ & G & I).
  destruct (Hall _ _ Hprev) as (T' & _ & _ & _ & G' & _).
  cbn [Nat.add] in *. split; [|split; [|split]].
  - replace k with (S k - 1)%nat at 1 by lia.
    apply I; [lia|].
    cbn [set_joint_names points].
    rewrite lookup_app_r by lia. rewrite <- Hprev. f_equal. lia.
  - rewrite T, T'. reflexivity.
  - exact G'.
  - exact G.
Qed.

End CartesianTrajectoryProperties.

Section InnerSamples.

Context {Frame PoseMsg Isometry3d : Type}.
Variable transformKDLToEigen : Frame -> Isometry3d.
Variable poseMsgToEigen : PoseMsg -> Isometry3d.
Variable default_timeout : double.
Variable robot_model : RobotModel Isometry3d.
Variable joint_limits : JointLimitsContainer.
Variables group_name link_name : string.
Variable check_self_collision : bool.

(** C4, as the code has it.  In the trajectory a successful call of the
    KDL overload adds, every inner way point records for every joint the
    acceleration 2 (dposition - previous_velocity dtime) / dtime^2 and the
    velocity previous_velocity + acceleration dtime, where dtime is the
    sampling time: it is positive and it is the difference of the two time
    samples, which the two time stamps hold rounded to whole nanoseconds.
    In the trajectory a successful call of the CartesianTrajectory
    overload adds, every way point after the first one records for every
    joint the velocity dposition / dtime and the acceleration
    2 (velocity - previous_velocity) / (dtime + previous dtime), where
    dtime is the difference of the time stamps; dtime and the previous
    dtime are above [10e-6]. *)
Theorem generateJointTrajectory_finite_differences :
  (forall (fuel : nat) (trajectory : KDLTrajectory Frame)
          (initial_joint_position : gmap string double)
          (sampling_time : double) (jt : JointTrajectory) (ec : Z)
          (r : GenResult),
     generateJointTrajectory_KDL transformKDLToEigen default_timeout fuel
       robot_model joint_limits trajectory group_name link_name
       initial_joint_position sampling_time jt ec check_self_collision
     = Some r ->
     gen_ret r = Ret true ->
     exists new : list JointTrajectoryPoint,
       points (gen_trajectory r) = points jt ++ new
       /\ forall (k : nat) (p_prev p : JointTrajectoryPoint),
            (S (S k) < length new)%nat ->
            new !! k = Some p_prev -> new !! S k = Some p ->
            0 < sampling_time
            /\ (exists t_prev t : double,
                  time_from_start p_prev = ros_Duration t_prev
                  /\ time_from_start p = ros_Duration t
                  /\ t - t_prev == sampling_time)
            /\ forall (j : nat) (q q_prev v_prev : double),
                 positions p !! j = Some q ->
                 positions p_prev !! j = Some q_prev ->
                 velocities p_prev !! j = Some v_prev ->
                 let a := 2 * (q - q_prev - v_prev * sampling_time)
                          / sampling_time ^ 2 in
                 accelerations p !! j = Some a
                 /\ velocities p !! j = Some (v_prev + a * sampling_time))
  /\ (forall (trajectory : list (CartesianTrajectoryPoint PoseMsg))
             (initial_joint_position initial_joint_velocity
                : gmap string double)
             (jt : JointTrajectory) (ec : Z),
        let r := generateJointTrajectory_Cartesian poseMsgToEigen
                   default_timeout robot_model joint_limits trajectory
                   group_name link_name initial_joint_position
                   initial_joint_velocity jt ec check_self_collision in
        gen_ret r = Ret true ->
        exists new : list JointTrajectoryPoint,
          points (gen_trajectory r) = points jt ++ new
          /\ forall (k : nat) (p_prev p : JointTrajectoryPoint),
               new !! k = Some p_prev -> new !! S k = Some p ->
               let dtime := time_from_start p - time_from_start p_prev in
               let dtime_prev := sample_duration trajectory k in
               1 # 100000 < dtime
               /\ 1 # 100000 < dtime_prev
               /\ forall (j : nat) (q q_prev v_prev : double),
                    positions p !! j = Some q ->
                    positions p_prev !! j = Some q_prev ->
                    velocities p_prev !! j = Some v_prev ->
                    let v := (q - q_prev) / dtime in
                    velocities p !! j = Some v
                    /\ accelerations p !! j
                       = Some ((v - v_prev) / (dtime + dtime_prev) * 2)).
Proof.
  split.
  - intros fuel trajectory initial s jt ec r Hgen Hret.
    destruct (generateJointTrajectory_KDL_inner _ _ _ _ _ _ _ _ _ _ _ _ _ _
                Hgen Hret) as (new & Hpts & Hall).
    exists new. split; [exact Hpts|].
    intros k p_prev p Hk Hprev Hp.
    destruct (Hall _ _ _ Hk Hprev Hp) as (Hstep & Hs & Ht).
    split; [exact Hs|]. split; [exact Ht|].
    intros j q q_prev v_prev Hq Hqp Hvp. exact (Hstep _ _ _ _ Hq Hqp Hvp).
  - intros trajectory initial initial_v jt ec r Hret.
    destruct (generateJointTrajectory_Cartesian_steps _ _ _ _ _ _ _ _ _ _
                _ _ Hret) as (new & Hpts & _ & Hall).
    exists new. split; [exact Hpts|].
    intros k p_prev p Hprev Hp dtime dtime_prev.
    destruct (Hall _ _ _ Hprev Hp) as (Hstep & Ht & G' & G).
    unfold dtime, dtime_prev. rewrite Ht.
    split; [exact G|]. split; [exact G'|].
    intros j q q_prev v_prev Hq Hqp Hvp. exact (Hstep _ _ _ _ Hq Hqp Hvp).
Qed.

End InnerSamples.

(** *** Runs of the two overloads *)

Section Runs.

Import Inputs.
Open Scope string_scope.

(** The KDL overload along [kdl_path], sampled every second. *)
Example kdl_run :
  generateJointTrajectory_KDL id 0 3 robot no_limits kdl_path "arm" "tcp"
    at_zero 1 empty_joint_trajectory 0%Z false
  = Some (finish (Ret true)
            {| joint_names := ["j"];
               points := [way_point 0 0 0 0; way_point 1 2 2 1;
                          way_point 4 0 0 2] |}
            MoveItErrorCodes.SUCCESS).
Proof. vm_compute. reflexivity. Qed.

(** Along [kdl_path_off_grid] the last time stamp is 1 s 3815 ns, not the
    duration of the path. *)
Example kdl_run_off_grid :
  (fun r => time_from_start <$> points (gen_trajectory r))
  <$> generateJointTrajectory_KDL id 0 3 robot no_limits kdl_path_off_grid
        "arm" "tcp" at_zero 1 empty_joint_trajectory 0%Z false
  = Some [0; 200000763 # 200000000]
  /\ 200000763 # 200000000 == 1 + (3815 # 1000000000)
  /\ ~ 200000763 # 200000000 == Duration kdl_path_off_grid.
Proof.
  split; [vm_compute; reflexivity|]. split; [reflexivity|discriminate].
Qed.

(** The solver fails at the third sample: the two points made before are
    dropped. *)
Example kdl_run_without_solution :
  generateJointTrajectory_KDL id 0 3 robot_short_reach no_limits kdl_path
    "arm" "tcp" at_zero 1 empty_joint_trajectory 0%Z false
  = Some (finish (Ret false) {| joint_names := ["j"]; points := [] |}
            MoveItErrorCodes.NO_IK_SOLUTION).
Proof. vm_compute. reflexivity. Qed.

(** The second sample is too fast. *)
Example kdl_run_too_fast :
  generateJointTrajectory_KDL id 0 3 robot velocity_limit kdl_path
    "arm" "tcp" at_zero 1 empty_joint_trajectory 0%Z false
  = Some (finish (Ret false) {| joint_names := ["j"]; points := [] |}
            MoveItErrorCodes.PLANNING_FAILED).
Proof. vm_compute. reflexivity. Qed.

(** The CartesianTrajectory overload along [cart_path]. *)
Example cart_run :
  generateJointTrajectory_Cartesian id 0 robot no_limits cart_path
    "arm" "tcp" at_zero at_zero empty_joint_trajectory 0%Z false
  = finish (Ret true)
      {| joint_names := ["j"];
         points := [way_point 1 1 (2 # 2) 1; way_point 3 2 (2 # 2) 2;
                    way_point 4 1 (-2 # 2) 3] |}
      MoveItErrorCodes.SUCCESS.
Proof. vm_compute. reflexivity. Qed.

Example cart_run_too_fast :
  generateJointTrajectory_Cartesian id 0 robot velocity_limit cart_path
    "arm" "tcp" at_zero at_zero empty_joint_trajectory 0%Z false
  = finish (Ret false) {| joint_names := ["j"]; points := [] |}
      MoveItErrorCodes.PLANNING_FAILED.
Proof. vm_compute. reflexivity. Qed.

End Runs.

Lemma generateJointTrajectory_outputs_agree_witness :
  outputs_agree
    (finish (Ret false) {| joint_names := ["j"%string]; points := [] |}
            MoveItErrorCodes.NO_IK_SOLUTION).
Proof.
  apply (proj1 (generateJointTrajectory_outputs_agree id id 0
                  Inputs.robot_short_reach Inputs.no_limits "arm" "tcp"
                  false)
           3%nat Inputs.kdl_path Inputs.at_zero 1
           Inputs.empty_joint_trajectory 0%Z).
  vm_compute. reflexivity.
Defined.

Lemma generateJointTrajectory_KDL_at_rest_witness :
  exists (new : list JointTrajectoryPoint)
         (first final : JointTrajectoryPoint),
    [ {| positions := [0]; velocities := [0];
         accelerations := [0]; time_from_start := 0 |};
      {| positions := [1]; velocities := [2];
         accelerations := [2]; time_from_start := 1 |};
      {| positions := [4]; velocities := [0];
         accelerations := [0]; time_from_start := 2 |} ] = [] ++ new
    /\ head new = Some first /\ last new = Some final
    /\ at_rest first /\ at_rest final.
Proof.
  destruct (generateJointTrajectory_KDL_at_rest id 0 Inputs.robot
              Inputs.no_limits Inputs.kdl_path "arm" "tcp" Inputs.at_zero
              1 false 3 Inputs.empty_joint_trajectory 0%Z
              (finish (Ret true)
                 {| joint_names := ["j"%string];
                    points :=
                      [ {| positions := [0]; velocities := [0];
                           accelerations := [0]; time_from_start := 0 |};
                        {| positions := [1]; velocities := [2];
                           accelerations := [2]; time_from_start := 1 |};
                        {| positions := [4]; velocities := [0];
                           accelerations := [0]; time_from_start := 2 |} ] |}
                 MoveItErrorCodes.SUCCESS))
    as (new & first & final & H1 & H2 & H3 & H4 & H5 & _).
  - vm_compute. reflexivity.
  - reflexivity.
  - exists new, first, final.
    split; [exact H1|]. split; [exact H2|]. split; [exact H3|].
    split; [exact H4|exact H5].
Defined.

(** C2 on the CartesianTrajectory overload: the call succeeds, and the
    joint moves with velocity 1 in the first and in the last way point. *)
Lemma generateJointTrajectory_Cartesian_not_at_rest :
  let r := generateJointTrajectory_Cartesian id 0 Inputs.robot
             Inputs.no_limits Inputs.cart_path "arm" "tcp" Inputs.at_zero
             Inputs.at_zero Inputs.empty_joint_trajectory 0%Z false in
  gen_ret r = Ret true
  /\ velocities <$> head (points (gen_trajectory r)) = Some [1]
  /\ velocities <$> last (points (gen_trajectory r)) = Some [1]
  /\ ~ 1 == 0.
Proof.
  cbv zeta. split; [vm_compute; reflexivity|].
  split; [vm_compute; reflexivity|]. split; [vm_compute; reflexivity|].
  discriminate.
Qed.

Lemma generateJointTrajectory_finite_differences_witness :
  accelerations (Inputs.way_point 1 2 2 1) !! 0%nat
  = Some (2 * (1 - 0 - 0 * 1) / 1 ^ 2)
  /\ velocities (Inputs.way_point 1 2 2 1) !! 0%nat
     = Some (0 + 2 * (1 - 0 - 0 * 1) / 1 ^ 2 * 1).
Proof.
  destruct (proj1 (generateJointTrajectory_finite_differences id id 0
                     Inputs.robot Inputs.no_limits "arm" "tcp" false)
              3%nat Inputs.kdl_path Inputs.at_zero 1
              Inputs.empty_joint_trajectory 0%Z
              (finish (Ret true)
                 {| joint_names := ["j"%string];
                    points := [Inputs.way_point 0 0 0 0;
                               Inputs.way_point 1 2 2 1;
                               Inputs.way_point 4 0 0 2] |}
                 MoveItErrorCodes.SUCCESS))
    as (new & Hnew & Hall).
  - vm_compute. reflexivity.
  - reflexivity.
  - cbn [finish gen_trajectory points Inputs.empty_joint_trajectory app]
      in Hnew.
    subst new.
    destruct (Hall 0%nat (Inputs.way_point 0 0 0 0)
                (Inputs.way_point 1 2 2 1)) as (_ & _ & Hj);
      [cbn; lia|reflexivity|reflexivity|].
    exact (Hj 0%nat 1 0 0 eq_refl eq_refl eq_refl).
Defined.

(** C4 on two runs.  In the KDL run the inner way point records the
    velocity 2, and dposition / dtime is 1.  In the CartesianTrajectory run
    the inner way point records the acceleration 1, and
    2 (dposition - previous_velocity dtime) / dtime^2 is 2. *)
Lemma generateJointTrajectory_not_as_claimed :
  (exists (r : GenResult) (p_prev p : JointTrajectoryPoint)
          (q q_prev v : double),
     generateJointTrajectory_KDL id 0 3 Inputs.robot Inputs.no_limits
       Inputs.kdl_path "arm" "tcp" Inputs.at_zero 1
       Inputs.empty_joint_trajectory 0%Z false = Some r
     /\ gen_ret r = Ret true
     /\ length (points (gen_trajectory r)) = 3%nat
     /\ points (gen_trajectory r) !! 0%nat = Some p_prev
     /\ points (gen_trajectory r) !! 1%nat = Some p
     /\ positions p_prev = [q_prev] /\ positions p = [q]
     /\ velocities p = [v]
     /\ ~ v == (q - q_prev) / (time_from_start p - time_from_start p_prev))
  /\ (exists (p_prev p : JointTrajectoryPoint) (q q_prev v_prev a : double),
        let r := generateJointTrajectory_Cartesian id 0 Inputs.robot
                   Inputs.no_limits Inputs.cart_path "arm" "tcp"
                   Inputs.at_zero Inputs.at_zero
                   Inputs.empty_joint_trajectory 0%Z false in
        let dtime := time_from_start p - time_from_start p_prev in
        gen_ret r = Ret true
        /\ length (points (gen_trajectory r)) = 3%nat
        /\ points (gen_trajectory r) !! 0%nat = Some p_prev
        /\ points (gen_trajectory r) !! 1%nat = Some p
        /\ positions p_prev = [q_prev] /\ velocities p_prev = [v_prev]
        /\ positions p = [q] /\ accelerations p = [a]
        /\ ~ a == 2 * (q - q_prev - v_prev * dtime) / dtime ^ 2).
Proof.
  split.
  - exists (finish (Ret true)
              {| joint_names := ["j"%string];
                 points :=
                   [ {| positions := [0]; velocities := [0];
                        accelerations := [0]; time_from_start := 0 |};
                     {| positions := [1]; velocities := [2];
                        accelerations := [2]; time_from_start := 1 |};
                     {| positions := [4]; velocities := [0];
                        accelerations := [0]; time_from_start := 2 |} ] |}
              MoveItErrorCodes.SUCCESS),
      {| positions := [0]; velocities := [0];
         accelerations := [0]; time_from_start := 0 |},
      {| positions := [1]; velocities := [2];
         accelerations := [2]; time_from_start := 1 |},
      1, 0, 2.
    split; [vm_compute; reflexivity|].
    repeat (split; [reflexivity|]). vm_compute. discriminate.
  - exists {| positions := [1]; velocities := [1];
              accelerations := [2 # 2]; time_from_start := 1 |},
      {| positions := [3]; velocities := [2];
         accelerations := [2 # 2]; time_from_start := 2 |},
      3, 1, 1, (2 # 2).
    cbv zeta.
    repeat (split; [vm_compute; reflexivity|]). vm_compute. discriminate.
Qed.

(** * Further properties *)

(** ** computePoseIK: the solution map *)

Lemma copy_solution_lookup (rstate : string -> double) (names : list string)
    (solution : gmap string double) (name : string) :
  copy_solution rstate names solution !! name
  = if decide (name ∈ names) then Some (rstate name) else solution !! name.
Proof.
  unfold copy_solution. revert solution.
  induction names as [|n names IH]; intros solution; cbn [foldl].
  - rewrite decide_False by apply not_elem_of_nil. reflexivity.
  - rewrite IH. destruct (decide (name ∈ names)) as [Hin|Hnin].
    + rewrite decide_True by (right; exact Hin). reflexivity.
    + destruct (decide (name = n)) as [->|Hne].
      * rewrite decide_True by left. apply lookup_insert_eq.
      * rewrite decide_False.
        -- apply lookup_insert_ne. congruence.
        -- intros Hin. apply elem_of_cons in Hin as [?|?]; done.
Qed.

Section ComputePoseIKSolution.

Context {Isometry3d : Type}.
Variable robot_model : RobotModel Isometry3d.
Variables group_name link_name : string.
Variable pose : Isometry3d.
Variables seed solution : gmap string double.
Variable check_self_collision : bool.
Variable timeout : double.

(** X1.  When the three guards of [computePoseIK] pass, the solver is invoked
    once, with the seed.  If it finds a state, the call returns true and the
    solution map holds the state's position for every active joint of the
    group and keeps what it held under every other key; if it finds none,
    the call returns false and the solution map is as it was. *)
Theorem computePoseIK_solution :
  hasJointModelGroup robot_model group_name = true ->
  canSetStateFromIK robot_model group_name link_name = true ->
  let r := computePoseIK robot_model group_name link_name pose
             (getModelFrame robot_model) seed solution check_self_collision
             timeout in
  ik_solver_calls r = 1%nat
  /\ (forall rstate,
        setFromIK robot_model group_name pose link_name timeout
                  check_self_collision seed = Some rstate ->
        ik_ok r = true
        /\ forall name,
             ik_solution_out r !! name
             = if decide (name ∈ getActiveJointModelNames robot_model
                                   group_name)
               then Some (rstate name) else solution !! name)
  /\ (setFromIK robot_model group_name pose link_name timeout
                check_self_collision seed = None ->
      ik_ok r = false /\ ik_solution_out r = solution).
Proof.
  intros Hg Hl. unfold computePoseIK. rewrite Hg, Hl, String.eqb_refl.
  cbn [negb].
  destruct (setFromIK _ _ _ _ _ _ _) as [rstate|]; cbn.
  - split; [reflexivity|]. split; [|discriminate].
    intros rstate' [= <-]. split; [reflexivity|].
    intros name. apply copy_solution_lookup.
  - split; [reflexivity|]. split; [discriminate|done].
Qed.

End ComputePoseIKSolution.

Lemma computePoseIK_solution_witness :
  ik_solver_calls
    (computePoseIK Inputs.robot "arm" "tcp" (1 : Q) "world" Inputs.at_zero ∅
                   false 0) = 1%nat.
Proof.
  apply (computePoseIK_solution Inputs.robot "arm" "tcp" (1 : Q)
           Inputs.at_zero ∅ false 0); reflexivity.
Defined.

(** ** verifySampleJointLimits: all joints, in any order *)

Lemma entries_elem_of (m : gmap string double) (k : string) (v : double) :
  (k, v) ∈ entries m <-> m !! k = Some v.
Proof.
  unfold entries. rewrite (merge_sort_Permutation key_le (map_to_list m)).
  apply elem_of_map_to_list.
Qed.

Section VerifyAllJoints.

Variables position_last velocity_last : gmap string double.
Variables duration_last duration_current : double.
Variable joint_limits : JointLimitsContainer.

Lemma verifyJoint_returns (pos : string * double) :
  is_Some (position_last !! pos.1) -> is_Some (velocity_last !! pos.1) ->
  exists b, verifyJoint position_last velocity_last duration_last
              duration_current joint_limits pos = Ret b.
Proof.
  intros [p Hp] [v Hv]. unfold verifyJoint. rewrite Hp, Hv. cbv zeta.
  repeat match goal with
         | |- context [if ?b then _ else _] => destruct b
         end; eauto.
Qed.

Lemma verifyJoints_true_iff (todo : list (string * double)) (n : nat) :
  (verifyJoints position_last velocity_last duration_last duration_current
                joint_limits todo n).1 = Ret true
  <-> Forall (fun pos => verifyJoint position_last velocity_last
                           duration_last duration_current joint_limits pos
                         = Ret true) todo.
Proof.
  revert n. induction todo as [|pos todo IH]; intros n; cbn [verifyJoints].
  - split; [constructor|reflexivity].
  - destruct (verifyJoint _ _ _ _ _ pos) as [[|]|e] eqn:Hpos.
    + rewrite IH. split; [intros H; constructor; assumption|].
      intros H. inversion H; assumption.
    + split; [discriminate|]. intros H. inversion H; congruence.
    + split; [discriminate|]. intros H. inversion H; congruence.
Qed.

Lemma verifyJoints_returns (todo : list (string * double)) (n : nat) :
  Forall (fun pos => is_Some (position_last !! pos.1)
                     /\ is_Some (velocity_last !! pos.1)) todo ->
  exists b, (verifyJoints position_last velocity_last duration_last
               duration_current joint_limits todo n).1 = Ret b.
Proof.
  revert n. induction todo as [|pos todo IH]; intros n Hall;
    cbn [verifyJoints]; [eauto|].
  inversion Hall as [|? ? [Hp Hv] Hrest]; subst.
  destruct (verifyJoint_returns pos Hp Hv) as [[|] ->]; [|eauto].
  apply IH, Hrest.
Qed.

Variable position_current : gmap string double.

(** X2.  When every joint of the current sample has a previous position and a
    previous velocity, [verifySampleJointLimits] does not throw, and it
    returns true iff the current duration is above [10e-6] and the body of
    the loop lets every joint of the current sample pass; the order in
    which the joints are visited plays no role. *)
Theorem verifySampleJointLimits_true_iff :
  (forall k p, position_current !! k = Some p ->
     is_Some (position_last !! k) /\ is_Some (velocity_last !! k)) ->
  (exists b, verifySampleJointLimits position_last velocity_last
               position_current duration_last duration_current joint_limits
             = Ret b)
  /\ (verifySampleJointLimits position_last velocity_last position_current
        duration_last duration_current joint_limits = Ret true
      <-> 1 # 100000 < duration_current
          /\ forall k p, position_current !! k = Some p ->
               verifyJoint position_last velocity_last duration_last
                 duration_current joint_limits (k, p) = Ret true).
Proof.
  intros Hdom. unfold verifySampleJointLimits, verifySampleJointLimits_traced.
  destruct (duration_current <=? SampleValidator.epsilon) eqn:E.
  - apply Qleb_iff in E.
    change SampleValidator.epsilon with (10 # 1000000) in E.
    split; [eauto|]. split; [discriminate|]. intros [H _]. lra.
  - apply Qleb_false_iff in E.
    change SampleValidator.epsilon with (10 # 1000000) in E.
    split.
    + apply verifyJoints_returns, Forall_forall. intros [k p] Hin.
      apply entries_elem_of in Hin. apply (Hdom _ _ Hin).
    + rewrite verifyJoints_true_iff, Forall_forall. split.
      * intros H. split; [lra|]. intros k p Hk.
        apply (H (k, p)), entries_elem_of, Hk.
      * intros [_ H] [k p] Hin. apply H, entries_elem_of, Hin.
Qed.

(** X3.  A joint of the current sample without a previous position makes the
    validation end in false or in [std::out_of_range], never in true. *)
Theorem verifySampleJointLimits_missing_joint (k : string) (p : double) :
  position_current !! k = Some p ->
  position_last !! k = None ->
  verifySampleJointLimits position_last velocity_last position_current
    duration_last duration_current joint_limits <> Ret true.
Proof.
  intros Hk Hnone. unfold verifySampleJointLimits,
    verifySampleJointLimits_traced.
  destruct (duration_current <=? SampleValidator.epsilon); [discriminate|].
  rewrite verifyJoints_true_iff, Forall_forall. intros H.
  specialize (H (k, p) (proj2 (entries_elem_of _ _ _) Hk)).
  unfold verifyJoint in H. cbn [fst] in H. rewrite Hnone in H.
  discriminate H.
Qed.

End VerifyAllJoints.

Lemma verifySampleJointLimits_true_iff_witness :
  exists b, verifySampleJointLimits Inputs.at_zero Inputs.at_zero
              Inputs.at_zero 1 1 Inputs.no_limits = Ret b.
Proof.
  apply (verifySampleJointLimits_true_iff Inputs.at_zero Inputs.at_zero 1 1
           Inputs.no_limits Inputs.at_zero).
  intros k p Hk. split; exists p; exact Hk.
Defined.

Lemma verifySampleJointLimits_missing_joint_witness :
  verifySampleJointLimits ∅ Inputs.at_zero Inputs.at_zero 1 1
    Inputs.no_limits <> Ret true.
Proof.
  apply (verifySampleJointLimits_missing_joint ∅ Inputs.at_zero 1 1
           Inputs.no_limits Inputs.at_zero "j"%string 0); reflexivity.
Defined.

(** ** isRobotStateEqual and isRobotStateStationary *)

Lemma squaredNorm_nonneg (v : list double) : 0 <= squaredNorm v.
Proof.
  induction v as [|x v IH]; cbn [squaredNorm foldr]; [apply Qle_refl|].
  fold (squaredNorm v). assert (H : 0 <= x * x) by nra. lra.
Qed.

Lemma squaredNorm_vec_sub_sym (a b : list double) :
  squaredNorm (vec_sub a b) == squaredNorm (vec_sub b a).
Proof.
  unfold vec_sub. revert b. induction a as [|x a IH]; intros [|y b];
    cbn [zip_with squaredNorm foldr]; try reflexivity.
  fold (squaredNorm (zip_with Qminus a b)).
  fold (squaredNorm (zip_with Qminus b a)).
  rewrite (IH b). ring.
Qed.

Lemma squaredNorm_vec_sub_diag (a : list double) :
  squaredNorm (vec_sub a a) == 0.
Proof.
  unfold vec_sub. induction a as [|x a IH]; cbn [zip_with squaredNorm foldr];
    [reflexivity|].
  fold (squaredNorm (zip_with Qminus a a)). rewrite IH. ring.
Qed.

Lemma norm_gt_proper (v w : list double) (epsilon : double) :
  squaredNorm v == squaredNorm w -> norm_gt v epsilon = norm_gt w epsilon.
Proof.
  intros H. unfold norm_gt, Qgtb, Qltb, Qleb. rewrite H. reflexivity.
Qed.

Lemma norm_gt_negative (v : list double) (epsilon : double) :
  epsilon < 0 -> norm_gt v epsilon = true.
Proof.
  intros H. unfold norm_gt. apply orb_true_iff. left. apply Qltb_iff, H.
Qed.

Lemma Qsquare_le (a b : Q) : 0 <= a -> a <= b -> a ^ 2 <= b ^ 2.
Proof.
  intros Ha Hab. change (a * a <= b * b). nra.
Qed.

Lemma norm_gt_mono (v : list double) (epsilon epsilon' : double) :
  0 <= epsilon -> epsilon <= epsilon' ->
  norm_gt v epsilon = false -> norm_gt v epsilon' = false.
Proof.
  intros H0 Hle. rewrite !norm_gt_false_iff by lra.
  intros H. pose proof (Qsquare_le _ _ H0 Hle). lra.
Qed.

(** X4.  [isRobotStateEqual] does not depend on the order of the two states. *)
Theorem isRobotStateEqual_sym (state1 state2 : RobotState)
    (joint_group_name : string) (epsilon : double) :
  isRobotStateEqual state1 state2 joint_group_name epsilon
  = isRobotStateEqual state2 state1 joint_group_name epsilon.
Proof.
  unfold isRobotStateEqual.
  rewrite (norm_gt_proper _ _ epsilon
             (squaredNorm_vec_sub_sym
                (copyJointGroupPositions state1 joint_group_name)
                (copyJointGroupPositions state2 joint_group_name))).
  rewrite (norm_gt_proper _ _ epsilon
             (squaredNorm_vec_sub_sym
                (copyJointGroupVelocities state1 joint_group_name)
                (copyJointGroupVelocities state2 joint_group_name))).
  rewrite (norm_gt_proper _ _ epsilon
             (squaredNorm_vec_sub_sym
                (copyJointGroupAccelerations state1 joint_group_name)
                (copyJointGroupAccelerations state2 joint_group_name))).
  reflexivity.
Qed.

(** X5.  A state equals itself for every tolerance that is not negative; for a
    negative tolerance no two states are equal, a state and itself
    included; and states that are equal for a tolerance are equal for every
    larger one. *)
Theorem isRobotStateEqual_tolerance (state1 state2 : RobotState)
    (joint_group_name : string) (epsilon epsilon' : double) :
  (0 <= epsilon ->
   isRobotStateEqual state1 state1 joint_group_name epsilon = true)
  /\ (epsilon < 0 ->
      isRobotStateEqual state1 state2 joint_group_name epsilon = false)
  /\ (0 <= epsilon -> epsilon <= epsilon' ->
      isRobotStateEqual state1 state2 joint_group_name epsilon = true ->
      isRobotStateEqual state1 state2 joint_group_name epsilon' = true).
Proof.
  unfold isRobotStateEqual. split; [|split].
  - intros H0.
    assert (Hz : forall a, norm_gt (vec_sub a a) epsilon = false).
    { intros a. apply (norm_gt_false_iff _ _ H0).
      rewrite squaredNorm_vec_sub_diag. change (0 <= epsilon * epsilon).
      nra. }
    rewrite !Hz. reflexivity.
  - intros Hneg. rewrite (norm_gt_negative _ _ Hneg). reflexivity.
  - intros H0 Hle.
    repeat match goal with
           | |- context [norm_gt ?v epsilon] =>
             let E := fresh "E" in
             destruct (norm_gt v epsilon) eqn:E;
             [discriminate|rewrite (norm_gt_mono _ _ _ H0 Hle E)]
           end.
    reflexivity.
Qed.

Lemma isRobotStateEqual_tolerance_witness :
  isRobotStateEqual (Inputs.standing_at 1) (Inputs.standing_at 1) "arm" 0
  = true.
Proof.
  apply (proj1 (isRobotStateEqual_tolerance (Inputs.standing_at 1)
                  (Inputs.standing_at 1) "arm" 0 0)).
  apply Qle_refl.
Defined.

(** X6.  A state is stationary for the tolerance [EPSILON] iff [EPSILON] is not
    negative and the norms of its velocity and acceleration vectors are at
    most [EPSILON]; and a state that is stationary for a tolerance is
    stationary for every larger one. *)
Theorem isRobotStateStationary_iff (state : RobotState) (group : string)
    (EPSILON EPSILON' : double) :
  (isRobotStateStationary state group EPSILON = true
   <-> 0 <= EPSILON
       /\ squaredNorm (copyJointGroupVelocities state group) <= EPSILON ^ 2
       /\ squaredNorm (copyJointGroupAccelerations state group)
          <= EPSILON ^ 2)
  /\ (EPSILON <= EPSILON' ->
      isRobotStateStationary state group EPSILON = true ->
      isRobotStateStationary state group EPSILON' = true).
Proof.
  assert (Hiff : forall e,
    isRobotStateStationary state group e = true
    <-> 0 <= e
        /\ squaredNorm (copyJointGroupVelocities state group) <= e ^ 2
        /\ squaredNorm (copyJointGroupAccelerations state group) <= e ^ 2).
  { intros e. unfold isRobotStateStationary.
    destruct (Qlt_le_dec e 0) as [Hneg|H0].
    - rewrite (norm_gt_negative _ _ Hneg). split; [discriminate|].
      intros [H _]. lra.
    - rewrite <- !(norm_gt_false_iff _ _ H0).
      repeat match goal with
             | |- context [norm_gt ?v e] => destruct (norm_gt v e)
             end; intuition discriminate. }
  split; [apply Hiff|].
  intros Hle. rewrite !Hiff. intros (H0 & Hv & Ha).
  pose proof (Qsquare_le _ _ H0 Hle). split; [lra|]. split; lra.
Qed.

Lemma isRobotStateStationary_iff_witness :
  isRobotStateStationary (Inputs.standing_at 1) "arm" 1 = true.
Proof.
  apply (proj2 (isRobotStateStationary_iff (Inputs.standing_at 1) "arm"
                  0 1)); [discriminate|reflexivity].
Defined.

(** ** linearSearchIntersectionPoint *)

Section LinearSearchProperties.

Variable getFrameTranslation : RobotState -> string -> Vector3d.
Variable link_name : string.
Variable center_position : Vector3d.
Variable r : double.
Variable traj : RobotTrajectory.
Variable index : nat.

Local Abbreviation crossing :=
  (crosses getFrameTranslation link_name center_position r traj).
Local Abbreviation forward :=
  (search_forward getFrameTranslation link_name center_position r traj index).
Local Abbreviation inverse :=
  (search_inverse getFrameTranslation link_name center_position r traj index).

Lemma search_forward_spec (todo : nat) :
  forall i : nat,
  (i + todo < length (waypoints traj))%nat ->
  (exists j, forward todo i = Some (true, j)
             /\ (i <= j < i + todo)%nat
             /\ crossing j (S j)
             /\ forall j', (i <= j' < j)%nat -> ~ crossing j' (S j'))
  \/ (forward todo i = Some (false, index)
      /\ forall j', (i <= j' < i + todo)%nat -> ~ crossing j' (S j')).
Proof.
  induction todo as [|todo IH]; intros i Hlen; cbn [search_forward].
  - right. split; [reflexivity|]. intros j' Hj'. lia.
  - destruct (lookup_lt_is_Some_2 (waypoints traj) i ltac:(lia))
      as [current Hc].
    destruct (lookup_lt_is_Some_2 (waypoints traj) (S i) ltac:(lia))
      as [next Hn].
    rewrite Hc, Hn.
    destruct (intersectionFound _ _ _ _) eqn:Hfound.
    + left. exists i. split; [reflexivity|]. split; [lia|].
      split; [exists current, next; done|]. intros j' Hj'. lia.
    + assert (Hno : ~ crossing i (S i)).
      { intros (c & n & Hc' & Hn' & Hf). congruence. }
      destruct (IH (S i) ltac:(lia))
        as [(j & Hj & Hrange & Hcross & Hfirst)|[Hnone Hall]].
      * left. exists j. split; [exact Hj|]. split; [lia|].
        split; [exact Hcross|]. intros j' Hj'.
        destruct (decide (j' = i)) as [->|Hne]; [exact Hno|].
        apply Hfirst. lia.
      * right. split; [exact Hnone|]. intros j' Hj'.
        destruct (decide (j' = i)) as [->|Hne]; [exact Hno|].
        apply Hall. lia.
Qed.

Lemma search_inverse_spec (i : nat) :
  (i < length (waypoints traj))%nat ->
  (exists j, inverse i = Some (true, j)
             /\ (0 < j <= i)%nat
             /\ crossing j (j - 1)%nat
             /\ forall j', (j < j' <= i)%nat -> ~ crossing j' (j' - 1)%nat)
  \/ (inverse i = Some (false, index)
      /\ forall j', (0 < j' <= i)%nat -> ~ crossing j' (j' - 1)%nat).
Proof.
  induction i as [|i IH]; intros Hlen; cbn [search_inverse].
  - right. split; [reflexivity|]. intros j' Hj'. lia.
  - destruct (lookup_lt_is_Some_2 (waypoints traj) (S i) ltac:(lia))
      as [current Hc].
    destruct (lookup_lt_is_Some_2 (waypoints traj) i ltac:(lia))
      as [next Hn].
    rewrite Hc, Hn.
    destruct (intersectionFound _ _ _ _) eqn:Hfound.
    + left. exists (S i). split; [reflexivity|]. split; [lia|].
      split.
      * exists current, next. replace (S i - 1)%nat with i by lia. done.
      * intros j' Hj'. lia.
    + assert (Hno : ~ crossing (S i) (S i - 1)%nat).
      { replace (S i - 1)%nat with i by lia.
        intros (c & n & Hc' & Hn' & Hf). congruence. }
      destruct (IH ltac:(lia))
        as [(j & Hj & Hrange & Hcross & Hlast)|[Hnone Hall]].
      * left. exists j. split; [exact Hj|]. split; [lia|].
        split; [exact Hcross|]. intros j' Hj'.
        destruct (decide (j' = S i)) as [->|Hne]; [exact Hno|].
        apply Hlast. lia.
      * right. split; [exact Hnone|]. intros j' Hj'.
        destruct (decide (j' = S i)) as [->|Hne]; [exact Hno|].
        apply Hall. lia.
Qed.

Lemma no_crossing_out_of_range (j k : nat) :
  (length (waypoints traj) <= j)%nat \/ (length (waypoints traj) <= k)%nat ->
  ~ crossing j k.
Proof.
  intros Hout (c & n & Hc & Hn & _).
  apply lookup_lt_Some in Hc, Hn. lia.
Qed.

(** X7.  The search from the front, on a trajectory that is not empty.  Either
    it returns true and the index of the first way point that lies within
    the sphere while its successor lies on the sphere or outside, or no way
    point and its successor are so, and it returns false and leaves the
    index as it was. *)
Theorem linearSearchIntersectionPoint_forward :
  (1 <= getWayPointCount traj)%nat ->
  (Z.of_nat (getWayPointCount traj) < 2 ^ 64)%Z ->
  let result := linearSearchIntersectionPoint getFrameTranslation link_name
                  center_position r traj index false in
  (exists j, result = Some (true, j)
             /\ crossing j (S j)
             /\ forall j', (j' < j)%nat -> ~ crossing j' (S j'))
  \/ (result = Some (false, index)
      /\ forall j', ~ crossing j' (S j')).
Proof.
  intros H1 Hb result. unfold result, linearSearchIntersectionPoint.
  rewrite size_t_sub_one by assumption.
  unfold getWayPointCount in *.
  replace (Z.to_nat (Z.of_nat (length (waypoints traj)) - 1))
    with (length (waypoints traj) - 1)%nat by lia.
  destruct (search_forward_spec (length (waypoints traj) - 1) 0 ltac:(lia))
    as [(j & Hj & Hrange & Hcross & Hfirst)|[Hnone Hall]].
  - left. exists j. split; [exact Hj|]. split; [exact Hcross|].
    intros j' Hj'. apply Hfirst. lia.
  - right. split; [exact Hnone|]. intros j'.
    destruct (decide (j' < length (waypoints traj) - 1)%nat) as [Hlt|Hge].
    + apply Hall. lia.
    + apply no_crossing_out_of_range. right. lia.
Qed.

(** X8.  The search from the back, on a trajectory that is not empty.  Either it
    returns true and the index of the last way point that lies within the
    sphere while its predecessor lies on the sphere or outside, or no way
    point and its predecessor are so, and it returns false and leaves the
    index as it was. *)
Theorem linearSearchIntersectionPoint_inverse :
  (1 <= getWayPointCount traj)%nat ->
  (Z.of_nat (getWayPointCount traj) < 2 ^ 64)%Z ->
  let result := linearSearchIntersectionPoint getFrameTranslation link_name
                  center_position r traj index true in
  (exists j, result = Some (true, j)
             /\ (0 < j)%nat
             /\ crossing j (j - 1)%nat
             /\ forall j', (j < j')%nat -> ~ crossing j' (j' - 1)%nat)
  \/ (result = Some (false, index)
      /\ forall j', (0 < j')%nat -> ~ crossing j' (j' - 1)%nat).
Proof.
  intros H1 Hb result. unfold result, linearSearchIntersectionPoint.
  rewrite size_t_sub_one by assumption.
  unfold getWayPointCount in *.
  replace (Z.to_nat (Z.of_nat (length (waypoints traj)) - 1))
    with (length (waypoints traj) - 1)%nat by lia.
  destruct (search_inverse_spec (length (waypoints traj) - 1) ltac:(lia))
    as [(j & Hj & Hrange & Hcross & Hlast)|[Hnone Hall]].
  - left. exists j. split; [exact Hj|]. split; [lia|].
    split; [exact Hcross|]. intros j' Hj'.
    destruct (decide (j' <= length (waypoints traj) - 1)%nat) as [Hle|Hgt].
    + apply Hlast. lia.
    + apply no_crossing_out_of_range. left. lia.
  - right. split; [exact Hnone|]. intros j' Hj'.
    destruct (decide (j' <= length (waypoints traj) - 1)%nat) as [Hle|Hgt].
    + apply Hall. lia.
    + apply no_crossing_out_of_range. left. lia.
Qed.

(** X9.  On a trajectory without way points [waypoint_num-1] wraps around, the
    body of either loop is entered, and its first call of [getWayPointPtr]
    has an index that is out of range. *)
Theorem linearSearchIntersectionPoint_empty (inverseOrder : bool) :
  waypoints traj = [] ->
  linearSearchIntersectionPoint getFrameTranslation link_name
    center_position r traj index inverseOrder = None.
Proof.
  intros Hempty. unfold linearSearchIntersectionPoint, getWayPointCount.
  rewrite Hempty. cbn [length].
  change (size_t_sub (Z.of_nat 0) 1) with 18446744073709551615%Z.
  destruct (Z.to_nat 18446744073709551615) as [|n] eqn:Hn; [lia|].
  destruct inverseOrder; cbn [search_forward search_inverse];
    rewrite Hempty; reflexivity.
Qed.

End LinearSearchProperties.

Lemma linearSearchIntersectionPoint_forward_witness :
  let result := linearSearchIntersectionPoint SearchInputs.on_x_axis "tcp"
                  SearchInputs.origin (3 # 2) SearchInputs.leaving 7 false in
  (exists j, result = Some (true, j)
             /\ crosses SearchInputs.on_x_axis "tcp" SearchInputs.origin
                        (3 # 2) SearchInputs.leaving j (S j)
             /\ forall j', (j' < j)%nat ->
                  ~ crosses SearchInputs.on_x_axis "tcp" SearchInputs.origin
                            (3 # 2) SearchInputs.leaving j' (S j'))
  \/ (result = Some (false, 7%nat)
      /\ forall j', ~ crosses SearchInputs.on_x_axis "tcp"
                              SearchInputs.origin (3 # 2)
                              SearchInputs.leaving j' (S j')).
Proof.
  apply (linearSearchIntersectionPoint_forward SearchInputs.on_x_axis "tcp"
           SearchInputs.origin (3 # 2) SearchInputs.leaving 7);
    [cbn; lia|reflexivity].
Defined.

Lemma linearSearchIntersectionPoint_inverse_witness :
  let result := linearSearchIntersectionPoint SearchInputs.on_x_axis "tcp"
                  SearchInputs.origin (3 # 2) SearchInputs.leaving 7 true in
  (exists j, result = Some (true, j)
             /\ (0 < j)%nat
             /\ crosses SearchInputs.on_x_axis "tcp" SearchInputs.origin
                        (3 # 2) SearchInputs.leaving j (j - 1)%nat
             /\ forall j', (j < j')%nat ->
                  ~ crosses SearchInputs.on_x_axis "tcp" SearchInputs.origin
                            (3 # 2) SearchInputs.leaving j' (j' - 1)%nat)
  \/ (result = Some (false, 7%nat)
      /\ forall j', (0 < j')%nat ->
           ~ crosses SearchInputs.on_x_axis "tcp" SearchInputs.origin
                     (3 # 2) SearchInputs.leaving j' (j' - 1)%nat).
Proof.
  apply (linearSearchIntersectionPoint_inverse SearchInputs.on_x_axis "tcp"
           SearchInputs.origin (3 # 2) SearchInputs.leaving 7);
    [cbn; lia|reflexivity].
Defined.

Lemma linearSearchIntersectionPoint_empty_witness :
  linearSearchIntersectionPoint SearchInputs.on_x_axis "tcp"
    SearchInputs.origin (3 # 2) Inputs.empty_trajectory 7 false = None.
Proof.
  apply (linearSearchIntersectionPoint_empty SearchInputs.on_x_axis "tcp"
           SearchInputs.origin (3 # 2) Inputs.empty_trajectory 7 false).
  reflexivity.
Defined.

(** The link leaves the sphere of radius 3/2 between the way points 1 and
    2; moving away from the centre it never enters it from outside. *)
Example linearSearchIntersectionPoint_leaving :
  linearSearchIntersectionPoint SearchInputs.on_x_axis "tcp"
    SearchInputs.origin (3 # 2) SearchInputs.leaving 7 false
  = Some (true, 1%nat)
  /\ linearSearchIntersectionPoint SearchInputs.on_x_axis "tcp"
       SearchInputs.origin (3 # 2) SearchInputs.leaving 7 true
     = Some (false, 7%nat).
Proof. split; vm_compute; reflexivity. Qed.

(** ** determineAndCheckSamplingTime with a negative tolerance *)

(** X12.  With a negative [epsilon] the function returns false for all
    trajectories that are not empty: either it gives up at once, or the
    first interval it compares is off, whatever it lasts. *)
Theorem determineAndCheckSamplingTime_negative_epsilon
    (first_trajectory second_trajectory : RobotTrajectory)
    (epsilon sampling_time : double) :
  epsilon < 0 ->
  (1 <= getWayPointCount first_trajectory)%nat ->
  (1 <= getWayPointCount second_trajectory)%nat ->
  (Z.of_nat (getWayPointCount first_trajectory) < 2 ^ 64)%Z ->
  (Z.of_nat (getWayPointCount second_trajectory) < 2 ^ 64)%Z ->
  (determineAndCheckSamplingTime first_trajectory second_trajectory epsilon
     sampling_time).1 = false.
Proof.
  intros Heps Hc1 Hc2 Hb1 Hb2. unfold determineAndCheckSamplingTime.
  rewrite !size_t_sub_one by assumption.
  set (n1 := (Z.of_nat (getWayPointCount first_trajectory) - 1)%Z).
  set (n2 := (Z.of_nat (getWayPointCount second_trajectory) - 1)%Z).
  destruct ((n1 <? 2)%Z && (n2 <? 2)%Z) eqn:Hif; [reflexivity|].
  cbn [fst]. apply not_true_iff_false. rewrite check_loop_true_iff.
  intros Hall.
  apply andb_false_iff in Hif.
  assert (Hmax : (2 <= Z.max n1 n2)%Z).
  { destruct Hif as [H|H]; apply Z.ltb_ge in H; lia. }
  destruct (Hall 1%Z ltac:(lia)) as [H1 H2].
  destruct (Z.lt_ge_cases 1 n1) as [Hlt|Hge].
  - specialize (H1 Hlt).
    pose proof (Qabs_nonneg
      ((if (2 <=? n1)%Z
        then getWayPointDurationFromPrevious first_trajectory 1
        else getWayPointDurationFromPrevious second_trajectory 1)
       - duration_at first_trajectory 1)).
    lra.
  - assert (Hlt : (1 < n2)%Z) by lia. specialize (H2 Hlt).
    pose proof (Qabs_nonneg
      ((if (2 <=? n1)%Z
        then getWayPointDurationFromPrevious first_trajectory 1
        else getWayPointDurationFromPrevious second_trajectory 1)
       - duration_at second_trajectory 1)).
    lra.
Qed.

Lemma determineAndCheckSamplingTime_negative_epsilon_witness :
  (determineAndCheckSamplingTime
     (Inputs.trajectory_with_durations [0; 1; 1; 1])
     (Inputs.trajectory_with_durations [0; 1; 1; 1]) (-1) 0).1 = false.
Proof.
  apply (determineAndCheckSamplingTime_negative_epsilon
           (Inputs.trajectory_with_durations [0; 1; 1; 1])
           (Inputs.trajectory_with_durations [0; 1; 1; 1]) (-1) 0);
    first [reflexivity | cbn; lia].
Defined.

(** ** TrajectoryAppender::merge: the durations *)

Section MergeDurations.

Import TrajectoryAppender.

Lemma add_suffix_from_well_formed (source : RobotTrajectory) (todo : nat) :
  forall (i : nat) (result : RobotTrajectory),
  well_formed result -> well_formed (add_suffix_from source todo i result).
Proof.
  induction todo as [|todo IH]; intros i result Hwf; cbn [add_suffix_from];
    [exact Hwf|].
  destruct (waypoints source !! i); [|exact Hwf].
  apply IH. unfold well_formed, addSuffixWayPoint in *.
  cbn [waypoints duration_from_previous]. rewrite !length_app, Hwf.
  reflexivity.
Qed.

Lemma add_suffix_from_group (source : RobotTrajectory) (todo : nat) :
  forall (i : nat) (result : RobotTrajectory),
  getGroupName (add_suffix_from source todo i result) = getGroupName result.
Proof.
  induction todo as [|todo IH]; intros i result; cbn [add_suffix_from];
    [reflexivity|].
  destruct (waypoints source !! i); [|reflexivity].
  rewrite IH. reflexivity.
Qed.

Lemma add_suffix_from_durations (source : RobotTrajectory) (todo : nat) :
  well_formed source ->
  forall (i : nat) (result : RobotTrajectory),
  duration_from_previous (add_suffix_from source todo i result)
  = duration_from_previous result
    ++ take todo (drop i (duration_from_previous source)).
Proof.
  intros Hwf. induction todo as [|todo IH]; intros i result.
  - cbn. rewrite take_0, app_nil_r. reflexivity.
  - cbn [add_suffix_from].
    destruct (waypoints source !! i) as [w|] eqn:Hw.
    + rewrite IH. cbn [addSuffixWayPoint duration_from_previous].
      destruct (lookup_lt_is_Some_2 (duration_from_previous source) i)
        as [d Hd].
      { rewrite Hwf. eapply lookup_lt_Some, Hw. }
      unfold getWayPointDurationFromPrevious.
      rewrite nth_lookup, Hd. cbn [default from_option id].
      rewrite (drop_S _ _ _ Hd). cbn [take]. rewrite <- app_assoc.
      reflexivity.
    + rewrite drop_ge.
      * rewrite take_nil, app_nil_r. reflexivity.
      * rewrite Hwf. apply lookup_ge_None, Hw.
Qed.

(** X13.  [merge] keeps a trajectory well formed: when the accumulator and the
    source have one duration per way point, so has the result, and the
    result belongs to the group of the accumulator. *)
Theorem merge_well_formed (result source merged : RobotTrajectory) :
  well_formed result -> well_formed source ->
  merge result source = Some merged ->
  well_formed merged /\ getGroupName merged = getGroupName result.
Proof.
  intros Hr Hs. unfold merge.
  destruct (head (waypoints source)) as [first|]; [|discriminate].
  destruct (same_boundary result first); intros [= <-].
  - split; [apply add_suffix_from_well_formed, Hr|].
    apply add_suffix_from_group.
  - split; [|reflexivity].
    unfold well_formed, append in *. cbn [waypoints duration_from_previous].
    destruct (Nat.ltb _ _);
      rewrite ?length_insert, !length_app, Hr, Hs; reflexivity.
Qed.

(** X14.  The durations after [merge], for a well formed accumulator and source.
    When the boundary way point is found twice, the durations of the source
    are added from the second one on, so a source of one way point leaves
    the accumulator as it is.  Otherwise all durations of the source are
    added, the first of them replaced by 0: the first way point of the
    source gets the time stamp of the last way point of the accumulator. *)
Theorem merge_durations (result source merged : RobotTrajectory)
    (first : RobotState) :
  well_formed result -> well_formed source ->
  head (waypoints source) = Some first ->
  merge result source = Some merged ->
  (boundary_matches result first ->
   duration_from_previous merged
   = duration_from_previous result ++ tail (duration_from_previous source)
   /\ (length (waypoints source) = 1%nat -> merged = result))
  /\ (~ boundary_matches result first ->
      duration_from_previous merged
      = duration_from_previous result
        ++ 0 :: tail (duration_from_previous source)).
Proof.
  intros Hr Hs Hfirst. unfold merge. rewrite Hfirst.
  destruct (same_boundary result first) eqn:Hsame; intros [= <-].
  - apply same_boundary_iff in Hsame. split; [intros _|done]. split.
    + rewrite (add_suffix_from_durations _ _ Hs). f_equal.
      unfold getWayPointCount. rewrite <- Hs.
      destruct (duration_from_previous source) as [|d ds]; [done|].
      cbn [drop tail length]. rewrite drop_0. apply take_ge. lia.
    + intros Hone. unfold getWayPointCount. rewrite Hone. reflexivity.
  - apply not_true_iff_false in Hsame. rewrite same_boundary_iff in Hsame.
    split; [done|intros _].
    unfold append. cbn [duration_from_previous].
    assert (Hne : duration_from_previous source <> []).
    { intros Hnil. unfold well_formed in Hs. rewrite Hnil in Hs.
      destruct (waypoints source); [discriminate Hfirst|discriminate Hs]. }
    destruct (duration_from_previous source) as [|d ds]; [done|].
    rewrite length_app. cbn [length tail].
    destruct (Nat.ltb_spec (length (duration_from_previous result))
                (length (duration_from_previous result) + S (length ds)));
      [|lia].
    rewrite insert_app_r_alt by lia.
    rewrite Nat.sub_diag. reflexivity.
Qed.

End MergeDurations.

Lemma merge_well_formed_witness :
  well_formed (Inputs.trajectory_through [0; 1; 2])
  /\ getGroupName (Inputs.trajectory_through [0; 1; 2]) = "arm"%string.
Proof.
  apply (merge_well_formed (Inputs.trajectory_through [0; 1])
           (Inputs.trajectory_through [1; 2])
           (Inputs.trajectory_through [0; 1; 2])); reflexivity.
Defined.

Lemma merge_durations_witness :
  ([1; 1; 0; 1] : list double)
  = duration_from_previous (Inputs.trajectory_through [0; 1]) ++ 0 :: [1].
Proof.
  destruct (merge_durations (Inputs.trajectory_through [0; 1])
              (Inputs.trajectory_through [2; 3])
              {| getGroupName := "arm"%string;
                 waypoints := Inputs.standing_at <$> [0; 1; 2; 3];
                 duration_from_previous := [1; 1; 0; 1] |}
              (Inputs.standing_at 2)) as [_ H];
    [reflexivity|reflexivity|reflexivity|vm_compute; reflexivity|].
  apply H. intros (l & Hl & Ht). injection Hl as <-.
  destruct Ht as [Ht _]. vm_compute in Ht. apply Ht. reflexivity.
Defined.

(** ** The generators: time stamps, failures and exceptions *)

Lemma make_time_samples_shape (fuel : nat) (D s : double) (ts : list double) :
  0 < s ->
  make_time_samples fuel D s = Some ts ->
  last ts = Some D
  /\ (forall (i j : nat) (x y : double), (i < j)%nat ->
        ts !! i = Some x -> ts !! j = Some y ->
        x + s <= y \/ x + (1 # 100000) < y)
  /\ (1 # 100000 < D -> head ts = Some 0)
  /\ (D <= 1 # 100000 -> ts = [D]).
Proof.
  intros Hs. unfold make_time_samples.
  change TimeSamples.epsilon with (10 # 1000000).
  destruct (time_samples_loop fuel (D - (10 # 1000000)) s 0) as [l|] eqn:El;
    [|discriminate].
  intros [= <-].
  destruct (time_samples_loop_spec _ _ _ _ _ El) as (Hl & _ & Hhead & Hnil).
  split; [apply last_snoc|]. split; [|split].
  - intros i j x y Hij Hx Hy.
    apply lookup_app_Some in Hy as [Hy|[Hlen Hy]].
    + assert (Hi : (i < length l)%nat).
      { apply lookup_lt_Some in Hy. lia. }
      rewrite lookup_app_l in Hx by exact Hi.
      destruct (Hl _ _ Hx) as [Ex _]. destruct (Hl _ _ Hy) as [Ey _].
      pose proof (Qnat_step_mult _ _ s (Qnat_lt _ _ Hij) Hs). left. lra.
    + apply list_lookup_singleton_Some in Hy as [Hj <-].
      assert (Hi : (i < length l)%nat) by lia.
      rewrite lookup_app_l in Hx by exact Hi.
      destruct (Hl _ _ Hx) as [_ Hlt]. right. lra.
  - intros HD. assert (H : 0 < D - (10 # 1000000)) by lra.
    apply Hhead in H. destruct l; [discriminate H|exact H].
  - intros HD. rewrite Hnil by lra. reflexivity.
Qed.

(** With a sampling time that is not positive the loop that builds the
    time samples has no end as soon as it is entered. *)
Lemma time_samples_loop_no_end (limit s : double) (fuel : nat) :
  s <= 0 ->
  forall t, t < limit -> time_samples_loop fuel limit s t = None.
Proof.
  intros Hs. induction fuel as [|fuel IH]; intros t Ht; cbn [time_samples_loop];
    rewrite (proj2 (Qltb_iff t limit) Ht); [reflexivity|].
  rewrite IH by lra. reflexivity.
Qed.

Lemma fill_point_kdl_missing (inner : bool) (d : double)
    (ik_solution ik_solution_last : gmap string double) (name : string)
    (names : list string) :
  name ∈ names -> ik_solution !! name = None ->
  forall (point : JointTrajectoryPoint) (jvl : gmap string double),
  fill_point_kdl inner d ik_solution ik_solution_last names point jvl
  = Throw out_of_range.
Proof.
  intros Hin Hnone. induction names as [|n names IH]; intros point jvl.
  - apply elem_of_nil in Hin. done.
  - cbn [fill_point_kdl].
    destruct (ik_solution !! n) as [q|] eqn:Hq; [|reflexivity].
    assert (Hin' : name ∈ names).
    { apply elem_of_cons in Hin as [->|H]; [congruence|exact H]. }
    destruct inner; [|apply IH, Hin'].
    destruct (ik_solution_last !! n); [|reflexivity].
    destruct (jvl !! n); [|reflexivity].
    apply IH, Hin'.
Qed.

Lemma keys_elem_of (m : gmap string double) (k : string) :
  k ∈ keys m <-> is_Some (m !! k).
Proof.
  unfold keys. rewrite list_elem_of_fmap. split.
  - intros ([k' v] & -> & Hin). apply entries_elem_of in Hin. eauto.
  - intros [v Hv]. exists (k, v). split; [reflexivity|].
    apply entries_elem_of, Hv.
Qed.

Section GeneratorEdges.

Context {Frame PoseMsg Isometry3d : Type}.
Variable transformKDLToEigen : Frame -> Isometry3d.
Variable poseMsgToEigen : PoseMsg -> Isometry3d.
Variable default_timeout : double.
Variable robot_model : RobotModel Isometry3d.
Variable joint_limits : JointLimitsContainer.
Variables group_name link_name : string.
Variable check_self_collision : bool.

Local Abbreviation generate_KDL :=
  (generateJointTrajectory_KDL transformKDLToEigen default_timeout).
Local Abbreviation generate_Cartesian :=
  (generateJointTrajectory_Cartesian poseMsgToEigen default_timeout).

(** X15.  The time stamps of the KDL overload.  For a positive sampling
    time, the way points a successful call adds are at least one; every
    time from start is a whole number of nanoseconds; the times from start
    never decrease, and they increase strictly when the sampling time is at
    least one nanosecond; the last one is the duration of the path rounded
    to whole nanoseconds, so within half a nanosecond of it; the first one
    is 0 when the duration exceeds [10e-6], and for a shorter path there is
    one way point only. *)
Theorem generateJointTrajectory_KDL_time_stamps (fuel : nat)
    (trajectory : KDLTrajectory Frame)
    (initial_joint_position : gmap string double) (sampling_time : double)
    (jt : JointTrajectory) (ec : Z) (r : GenResult) :
  0 < sampling_time ->
  generate_KDL fuel robot_model joint_limits trajectory group_name link_name
    initial_joint_position sampling_time jt ec check_self_collision = Some r ->
  gen_ret r = Ret true ->
  exists new : list JointTrajectoryPoint,
    points (gen_trajectory r) = points jt ++ new
    /\ (1 <= length new)%nat
    /\ (forall (k : nat) (p : JointTrajectoryPoint), new !! k = Some p ->
          exists n : Z, time_from_start p == inject_Z n / (1000000000 # 1))
    /\ (forall (i j : nat) (p p' : JointTrajectoryPoint), (i < j)%nat ->
          new !! i = Some p -> new !! j = Some p' ->
          time_from_start p <= time_from_start p'
          /\ (1 # 1000000000 <= sampling_time ->
              time_from_start p < time_from_start p'))
    /\ (forall final, last new = Some final ->
          time_from_start final = ros_Duration (Duration trajectory)
          /\ Duration trajectory - (1 # 2000000000) < time_from_start final
          /\ time_from_start final
             <= Duration trajectory + (1 # 2000000000))
    /\ (forall first, head new = Some first ->
          1 # 100000 < Duration trajectory -> time_from_start first = 0)
    /\ (Duration trajectory <= 1 # 100000 -> length new = 1%nat).
Proof.
  intros Hs Hgen Hret.
  destruct (generateJointTrajectory_KDL_points _ _ _ _ _ _ _ _ _ _ _ _ _ _
              Hgen Hret) as (ts & new & Hts & Hpts & Hlen & Hall).
  destruct (make_time_samples_shape _ _ _ _ Hs Hts)
    as (Hlast & Hinc & Hhead & Hone).
  pose proof (make_time_samples_length _ _ _ _ Hts) as Hts1.
  assert (Htime : forall k p, new !! k = Some p ->
                    exists x, ts !! k = Some x
                              /\ time_from_start p = ros_Duration x).
  { intros k p Hk. destruct (Hall _ _ Hk) as (T & _).
    destruct (lookup_lt_is_Some_2 ts k) as [x Hx].
    { rewrite <- Hlen. eapply lookup_lt_Some, Hk. }
    exists x. split; [exact Hx|].
    rewrite T, nth_lookup, Hx. reflexivity. }
  exists new. split; [exact Hpts|]. split; [lia|].
  split; [|split; [|split; [|split]]].
  - intros k p Hk. destruct (Htime _ _ Hk) as (x & _ & ->).
    destruct (ros_Duration_nanoseconds x) as (n & Hn & _). eauto.
  - intros i j p p' Hij Hp Hp'.
    destruct (Htime _ _ Hp) as (x & Hx & ->).
    destruct (Htime _ _ Hp') as (y & Hy & ->).
    pose proof (Hinc i j _ _ Hij Hx Hy) as Hgap.
    split.
    + apply ros_Duration_mono. lra.
    + intros Hns. apply ros_Duration_strict. lra.
  - intros final Hfinal. rewrite last_lookup in Hfinal.
    rewrite last_lookup in Hlast.
    destruct (Htime _ _ Hfinal) as (x & Hx & ->).
    rewrite Hlen in Hx. assert (x = Duration trajectory) as -> by congruence.
    split; [reflexivity|]. apply ros_Duration_close.
  - intros first Hfirst HD. rewrite head_lookup in Hfirst.
    destruct (Htime _ _ Hfirst) as (x & Hx & ->).
    specialize (Hhead HD). rewrite (head_lookup ts) in Hhead.
    assert (x = 0) as -> by congruence. reflexivity.
  - intros HD. rewrite Hlen, (Hone HD). reflexivity.
Qed.

(** X16.  With a sampling time that is not positive and a path that lasts more
    than [10e-6], the KDL overload does not come to an end: whatever the
    bound on the iterations, the loop that builds the time samples is still
    running. *)
Theorem generateJointTrajectory_KDL_no_end (fuel : nat)
    (trajectory : KDLTrajectory Frame)
    (initial_joint_position : gmap string double) (sampling_time : double)
    (jt : JointTrajectory) (ec : Z) :
  sampling_time <= 0 ->
  1 # 100000 < Duration trajectory ->
  generate_KDL fuel robot_model joint_limits trajectory group_name link_name
    initial_joint_position sampling_time jt ec check_self_collision = None.
Proof.
  intros Hs HD. unfold generateJointTrajectory_KDL, make_time_samples.
  rewrite (time_samples_loop_no_end _ _ fuel Hs); [reflexivity|].
  change TimeSamples.epsilon with (10 # 1000000). lra.
Qed.

Lemma computePoseIK_guard_false (pose : Isometry3d) (frame_id : string)
    (seed solution : gmap string double) (timeout : double) :
  hasJointModelGroup robot_model group_name = false
  \/ canSetStateFromIK robot_model group_name link_name = false ->
  ik_ok (computePoseIK robot_model group_name link_name pose frame_id seed
           solution check_self_collision timeout) = false.
Proof.
  unfold computePoseIK. intros [H|H]; rewrite H; cbn [negb]; [reflexivity|].
  destruct (hasJointModelGroup robot_model group_name); reflexivity.
Qed.

(** X18.  When the robot model does not know the planning group, or the
    group has no solver for the link, the KDL overload called with a
    positive sampling time comes to an end and returns false with
    NO_IK_SOLUTION and an empty point list, and so does the
    CartesianTrajectory overload for a trajectory that is not empty; for an
    empty Cartesian trajectory it returns true with SUCCESS and adds no
    point. *)
Theorem generateJointTrajectory_without_solver :
  hasJointModelGroup robot_model group_name = false
  \/ canSetStateFromIK robot_model group_name link_name = false ->
  (forall (trajectory : KDLTrajectory Frame)
          (initial_joint_position : gmap string double)
          (sampling_time : double) (jt : JointTrajectory) (ec : Z),
     0 < sampling_time ->
     (exists fuel : nat,
        generate_KDL fuel robot_model joint_limits trajectory group_name
          link_name initial_joint_position sampling_time jt ec
          check_self_collision
        = Some (finish (Ret false) (clear_points jt)
                       MoveItErrorCodes.NO_IK_SOLUTION))
     /\ (forall (fuel : nat) (r : GenResult),
          generate_KDL fuel robot_model joint_limits trajectory group_name
            link_name initial_joint_position sampling_time jt ec
            check_self_collision = Some r ->
          r = finish (Ret false) (clear_points jt)
                     MoveItErrorCodes.NO_IK_SOLUTION))
  /\ (forall (trajectory : list (CartesianTrajectoryPoint PoseMsg))
             (initial_joint_position initial_joint_velocity
                : gmap string double)
             (jt : JointTrajectory) (ec : Z),
        generate_Cartesian robot_model joint_limits trajectory group_name
          link_name initial_joint_position initial_joint_velocity jt ec
          check_self_collision
        = match trajectory with
          | [] => finish (Ret true)
                    (set_joint_names jt (keys initial_joint_position))
                    MoveItErrorCodes.SUCCESS
          | _ :: _ => finish (Ret false)
                        (clear_points
                           (set_joint_names jt (keys initial_joint_position)))
                        MoveItErrorCodes.NO_IK_SOLUTION
          end).
Proof.
  intros Hguard. split.
  - intros trajectory initial s jt ec Hs.
    assert (Hresult : forall (fuel : nat) (r : GenResult),
              generate_KDL fuel robot_model joint_limits trajectory
                group_name link_name initial s jt ec check_self_collision
              = Some r ->
              r = finish (Ret false) (clear_points jt)
                         MoveItErrorCodes.NO_IK_SOLUTION).
    { intros fuel r. unfold generateJointTrajectory_KDL.
      destruct (make_time_samples fuel (Duration trajectory) s)
        as [ts|] eqn:Hts; [|discriminate].
      pose proof (make_time_samples_length _ _ _ _ Hts) as Hlen.
      destruct (length ts) as [|n] eqn:Hn; [lia|].
      intros [= <-]. cbn [kdl_loop].
      rewrite (computePoseIK_guard_false _ _ _ _ _ Hguard). reflexivity. }
    split; [|exact Hresult].
    destruct (make_time_samples_terminates (Duration trajectory) s Hs)
      as (fuel & ts & Hts).
    exists fuel.
    destruct (generate_KDL fuel robot_model joint_limits trajectory
                group_name link_name initial s jt ec check_self_collision)
      as [r|] eqn:Hgen.
    + rewrite (Hresult _ _ Hgen). reflexivity.
    + unfold generateJointTrajectory_KDL in Hgen. rewrite Hts in Hgen.
      discriminate Hgen.
  - intros [|point_0 trajectory] initial initial_v jt ec;
      unfold generateJointTrajectory_Cartesian; cbn [length cart_loop];
      [reflexivity|].
    cbn [lookup list_lookup]. unfold computePoseIK_msg.
    rewrite (computePoseIK_guard_false _ _ _ _ _ Hguard). reflexivity.
Qed.

(** X19.  A Cartesian trajectory whose first point lies at most [10e-6] after the
    start is refused: when the solver finds a state for the first pose, the
    CartesianTrajectory overload returns false with PLANNING_FAILED and an
    empty point list. *)
Theorem generateJointTrajectory_Cartesian_early_start
    (point_0 : CartesianTrajectoryPoint PoseMsg)
    (trajectory : list (CartesianTrajectoryPoint PoseMsg))
    (initial_joint_position initial_joint_velocity : gmap string double)
    (jt : JointTrajectory) (ec : Z) :
  ik_ok (computePoseIK_msg poseMsgToEigen robot_model group_name link_name
           (pose point_0) (getModelFrame robot_model) initial_joint_position
           ∅ check_self_collision default_timeout) = true ->
  ctp_time_from_start point_0 <= 1 # 100000 ->
  generate_Cartesian robot_model joint_limits (point_0 :: trajectory)
    group_name link_name initial_joint_position initial_joint_velocity jt ec
    check_self_collision
  = finish (Ret false)
      (clear_points (set_joint_names jt (keys initial_joint_position)))
      MoveItErrorCodes.PLANNING_FAILED.
Proof.
  intros Hik Ht. unfold generateJointTrajectory_Cartesian.
  cbn [length cart_loop lookup list_lookup]. rewrite Hik.
  cbn [negb Nat.eqb head].
  unfold verifySampleJointLimits, verifySampleJointLimits_traced.
  assert (E : (ctp_time_from_start point_0 <=? SampleValidator.epsilon)
              = true).
  { apply Qleb_iff. change SampleValidator.epsilon with (10 # 1000000).
    lra. }
  rewrite E. reflexivity.
Qed.

End GeneratorEdges.

Section GeneratorShapes.

Context {Frame PoseMsg Isometry3d : Type}.
Variable transformKDLToEigen : Frame -> Isometry3d.
Variable poseMsgToEigen : PoseMsg -> Isometry3d.
Variable default_timeout : double.
Variable robot_model : RobotModel Isometry3d.
Variable joint_limits : JointLimitsContainer.
Variables group_name link_name : string.
Variable check_self_collision : bool.

Lemma cart_loop_joint_names
    (trajectory : list (CartesianTrajectoryPoint PoseMsg)) (todo : nat) :
  forall (i : nat) (ik_solution_last ik_solution jvl : gmap string double)
         (duration_last : double) (jt : JointTrajectory) (ec : Z),
  joint_names
    (gen_trajectory
       (cart_loop poseMsgToEigen default_timeout robot_model joint_limits
          trajectory group_name link_name check_self_collision todo i
          ik_solution_last ik_solution jvl duration_last jt ec))
  = joint_names jt.
Proof.
  induction todo as [|todo IH]; intros; cbn [cart_loop]; [reflexivity|].
  repeat (match goal with
          | |- joint_names (gen_trajectory (if ?b then _ else _)) = _ =>
            destruct b
          | |- joint_names (gen_trajectory (match ?o with _ => _ end)) = _ =>
            destruct o
          end; try reflexivity).
  rewrite IH. reflexivity.
Qed.

(** X20.  The CartesianTrajectory overload leaves in [joint_names] the keys of
    the initial joint positions, however it ends.  When it returns true it
    has added one way point for every point of the Cartesian trajectory,
    with the time stamp of that point and with one position, velocity and
    acceleration for every joint name. *)
Theorem generateJointTrajectory_Cartesian_shape
    (trajectory : list (CartesianTrajectoryPoint PoseMsg))
    (initial_joint_position initial_joint_velocity : gmap string double)
    (jt : JointTrajectory) (ec : Z) :
  let r := generateJointTrajectory_Cartesian poseMsgToEigen default_timeout
             robot_model joint_limits trajectory group_name link_name
             initial_joint_position initial_joint_velocity jt ec
             check_self_collision in
  joint_names (gen_trajectory r) = keys initial_joint_position
  /\ (gen_ret r = Ret true ->
      exists new : list JointTrajectoryPoint,
        points (gen_trajectory r) = points jt ++ new
        /\ length new = length trajectory
        /\ forall (k : nat) (p : JointTrajectoryPoint)
                  (c : CartesianTrajectoryPoint PoseMsg),
             new !! k = Some p -> trajectory !! k = Some c ->
             time_from_start p = ctp_time_from_start c
             /\ length (positions p) = length (joint_names (gen_trajectory r))
             /\ length (velocities p)
                = length (joint_names (gen_trajectory r))
             /\ length (accelerations p)
                = length (joint_names (gen_trajectory r))).
Proof.
  intros r.
  assert (Hnames : joint_names (gen_trajectory r)
                   = keys initial_joint_position).
  { unfold r, generateJointTrajectory_Cartesian.
    rewrite cart_loop_joint_names. reflexivity. }
  split; [exact Hnames|]. intros Hret. rewrite Hnames.
  unfold r, generateJointTrajectory_Cartesian in *.
  destruct (cart_loop_points poseMsgToEigen default_timeout robot_model
              joint_limits trajectory group_name link_name
              check_self_collision (keys initial_joint_position)
              (length trajectory) (keys_NoDup _) 0 initial_joint_position
              ∅ initial_joint_velocity 0
              (set_joint_names jt (keys initial_joint_position)) ec
              eq_refl Hret)
    as (new & Hpts & Hlen & Hall); [lia|].
  exists new. split; [exact Hpts|]. split; [exact Hlen|].
  intros k p c Hp Hc. destruct (Hall _ _ Hp) as (T & P & V & A & _).
  cbn [Nat.add] in T. unfold sample_time in T. rewrite Hc in T.
  done.
Qed.

(** X21.  When the initial joint positions name a joint that is not an active
    joint of the planning group, the KDL overload never returns true: at
    the first sample either the solver fails, and the call returns false
    with NO_IK_SOLUTION, or the joint is missing in the solution, and the
    call ends in [std::out_of_range] with the point list as it was. *)
Theorem generateJointTrajectory_KDL_missing_joint (fuel : nat)
    (trajectory : KDLTrajectory Frame)
    (initial_joint_position : gmap string double) (sampling_time : double)
    (jt : JointTrajectory) (ec : Z) (r : GenResult) (name : string) :
  is_Some (initial_joint_position !! name) ->
  name ∉ getActiveJointModelNames robot_model group_name ->
  generateJointTrajectory_KDL transformKDLToEigen default_timeout fuel
    robot_model joint_limits trajectory group_name link_name
    initial_joint_position sampling_time jt ec check_self_collision
  = Some r ->
  (gen_ret r = Ret false
   /\ gen_error_code r = MoveItErrorCodes.NO_IK_SOLUTION
   /\ points (gen_trajectory r) = [])
  \/ (gen_ret r = Throw out_of_range
      /\ points (gen_trajectory r) = points jt).
Proof.
  intros Hname Hactive. unfold generateJointTrajectory_KDL.
  destruct (make_time_samples fuel (Duration trajectory) sampling_time)
    as [ts|] eqn:Hts; [|discriminate].
  pose proof (make_time_samples_length _ _ _ _ Hts) as Hlen.
  destruct (length ts) as [|n] eqn:Hn; [lia|].
  intros [= <-]. cbn [kdl_loop].
  match goal with
  | |- context [ik_ok ?c] => set (ik := c)
  end.
  destruct (ik_ok ik) eqn:Hok; cbn [negb]; [|left; done].
  right. cbn [Nat.eqb].
  assert (Hmissing : ik_solution_out ik !! name = None).
  { unfold ik, computePoseIK in *.
    repeat match type of Hok with
           | context [if ?b then _ else _] => destruct b
           end; try discriminate Hok.
    destruct (setFromIK _ _ _ _ _ _ _) as [rstate|]; [|discriminate Hok].
    cbn [ik_solution_out]. rewrite copy_solution_lookup.
    rewrite decide_False by exact Hactive. apply lookup_empty. }
  cbn [set_joint_names joint_names].
  rewrite (fill_point_kdl_missing _ _ _ _ name); [done| |exact Hmissing].
  apply keys_elem_of, Hname.
Qed.

End GeneratorShapes.

Lemma generateJointTrajectory_KDL_time_stamps_witness :
  exists new : list JointTrajectoryPoint,
    [Inputs.way_point 0 0 0 0; Inputs.way_point 1 2 2 1;
     Inputs.way_point 4 0 0 2] = [] ++ new
    /\ (1 <= length new)%nat.
Proof.
  destruct (generateJointTrajectory_KDL_time_stamps id 0 Inputs.robot
              Inputs.no_limits "arm" "tcp" false 3 Inputs.kdl_path
              Inputs.at_zero 1 Inputs.empty_joint_trajectory 0%Z
              (finish (Ret true)
                 {| joint_names := ["j"%string];
                    points := [Inputs.way_point 0 0 0 0;
                               Inputs.way_point 1 2 2 1;
                               Inputs.way_point 4 0 0 2] |}
                 MoveItErrorCodes.SUCCESS))
    as (new & H1 & H2 & _).
  - reflexivity.
  - vm_compute. reflexivity.
  - reflexivity.
  - exists new. split; [exact H1|exact H2].
Defined.

Lemma generateJointTrajectory_KDL_no_end_witness :
  generateJointTrajectory_KDL id 0 5 Inputs.robot Inputs.no_limits
    Inputs.kdl_path "arm" "tcp" Inputs.at_zero 0
    Inputs.empty_joint_trajectory 0%Z false = None.
Proof.
  apply (generateJointTrajectory_KDL_no_end id 0 Inputs.robot
           Inputs.no_limits "arm" "tcp" false 5 Inputs.kdl_path
           Inputs.at_zero 0 Inputs.empty_joint_trajectory 0%Z);
    [discriminate|reflexivity].
Defined.

Lemma generateJointTrajectory_without_solver_witness :
  (exists fuel : nat,
     generateJointTrajectory_KDL id 0 fuel Inputs.robot Inputs.no_limits
       Inputs.kdl_path "leg" "tcp" Inputs.at_zero 1
       Inputs.empty_joint_trajectory 0%Z false
     = Some (finish (Ret false) (clear_points Inputs.empty_joint_trajectory)
                    MoveItErrorCodes.NO_IK_SOLUTION))
  /\ generateJointTrajectory_Cartesian id 0 Inputs.robot Inputs.no_limits
       Inputs.cart_path "leg" "tcp" Inputs.at_zero Inputs.at_zero
       Inputs.empty_joint_trajectory 0%Z false
     = finish (Ret false)
         (clear_points
            (set_joint_names Inputs.empty_joint_trajectory
               (keys Inputs.at_zero)))
         MoveItErrorCodes.NO_IK_SOLUTION.
Proof.
  destruct (generateJointTrajectory_without_solver id id 0 Inputs.robot
              Inputs.no_limits "leg" "tcp" false (or_introl eq_refl))
    as [Hkdl Hcart].
  split.
  - apply (Hkdl Inputs.kdl_path Inputs.at_zero 1
             Inputs.empty_joint_trajectory 0%Z).
    reflexivity.
  - apply (Hcart Inputs.cart_path Inputs.at_zero Inputs.at_zero
             Inputs.empty_joint_trajectory 0%Z).
Defined.

Lemma generateJointTrajectory_Cartesian_early_start_witness :
  generateJointTrajectory_Cartesian id 0 Inputs.robot Inputs.no_limits
    ({| pose := 0; ctp_time_from_start := 0 |} :: Inputs.cart_path)
    "arm" "tcp" Inputs.at_zero Inputs.at_zero
    Inputs.empty_joint_trajectory 0%Z false
  = finish (Ret false)
      (clear_points
         (set_joint_names Inputs.empty_joint_trajectory
            (keys Inputs.at_zero)))
      MoveItErrorCodes.PLANNING_FAILED.
Proof.
  apply (generateJointTrajectory_Cartesian_early_start id 0 Inputs.robot
           Inputs.no_limits "arm" "tcp" false
           {| pose := 0; ctp_time_from_start := 0 |} Inputs.cart_path
           Inputs.at_zero Inputs.at_zero Inputs.empty_joint_trajectory 0%Z);
    [reflexivity|discriminate].
Defined.

Lemma generateJointTrajectory_Cartesian_shape_witness :
  exists new : list JointTrajectoryPoint,
    [Inputs.way_point 1 1 (2 # 2) 1; Inputs.way_point 3 2 (2 # 2) 2;
     Inputs.way_point 4 1 (-2 # 2) 3] = [] ++ new
    /\ length new = 3%nat.
Proof.
  destruct (proj2 (generateJointTrajectory_Cartesian_shape id 0 Inputs.robot
                     Inputs.no_limits "arm" "tcp" false Inputs.cart_path
                     Inputs.at_zero Inputs.at_zero
                     Inputs.empty_joint_trajectory 0%Z))
    as (new & H1 & H2 & _).
  - vm_compute. reflexivity.
  - exists new. split; [|exact H2].
    etransitivity; [|exact H1]. vm_compute. reflexivity.
Defined.

Lemma generateJointTrajectory_KDL_missing_joint_witness :
  let r := finish (Throw out_of_range)
             {| joint_names := ["j"%string; "k"%string]; points := [] |}
             0%Z in
  (gen_ret r = Ret false
   /\ gen_error_code r = MoveItErrorCodes.NO_IK_SOLUTION
   /\ points (gen_trajectory r) = [])
  \/ (gen_ret r = Throw out_of_range
      /\ points (gen_trajectory r) = points Inputs.empty_joint_trajectory).
Proof.
  apply (generateJointTrajectory_KDL_missing_joint id 0 Inputs.robot
           Inputs.no_limits "arm" "tcp" false 3 Inputs.kdl_path
           (<["k"%string := 0]> Inputs.at_zero) 1
           Inputs.empty_joint_trajectory 0%Z
           (finish (Throw out_of_range)
              {| joint_names := ["j"%string; "k"%string]; points := [] |}
              0%Z)
           "k"%string).
  - exists 0. reflexivity.
  - intros Hin. cbn in Hin.
    apply elem_of_cons in Hin as [Hin|Hin]; [discriminate Hin|].
    apply elem_of_nil in Hin. exact Hin.
  - vm_compute. reflexivity.
Defined.

Lemma generateJointTrajectory_KDL_returns_witness :
  exists (fuel : nat) (r : GenResult),
    generateJointTrajectory_KDL id 0 fuel Inputs.robot Inputs.no_limits
      Inputs.kdl_path "arm" "tcp" Inputs.at_zero 1
      Inputs.empty_joint_trajectory 0%Z false = Some r.
Proof.
  apply (generateJointTrajectory_KDL_returns id 0 Inputs.robot
           Inputs.no_limits Inputs.kdl_path "arm" "tcp" Inputs.at_zero 1
           false Inputs.empty_joint_trajectory 0%Z).
  reflexivity.
Defined.
